(** * eBay sold-listing pipeline: model classifier and file locator

    A shallow embedding of the per-family export scripts
    ([pixel_all_only.py], [iphone_all_only.py], [test.py],
    [pixel_only.py]) and of the part
    of Python's [re] and [str] they rely on, followed by the properties
    of the specification that concern them.

    Python strings are sequences of Unicode code points; a code point is
    an [N] and a string a [list N].  Everything the scripts ask about
    ASCII characters is written out; what they ask about characters
    beyond ASCII (is it alphanumeric, what is its lower case) is left to
    the tables of a [Runtime], as is the date parser of pandas. *)

From stdpp Require Import base numbers option list gmap sorting strings pretty.
From Stdlib Require Import Ascii Lia.

Local Open Scope N_scope.

(** ** Characters *)

Abbreviation str := (list N).

(** The code points of a literal written in ASCII. *)
Fixpoint py (s : string) : str :=
  match s with
  | EmptyString => []
  | String a s' => N_of_ascii a :: py s'
  end.
Arguments py s%_string.

Definition in_range (lo hi c : N) : bool := (lo <=? c) && (c <=? hi).

Definition ascii_isdigit (c : N) : bool := in_range 48 57 c.
Definition ascii_isupper (c : N) : bool := in_range 65 90 c.
Definition ascii_islower (c : N) : bool := in_range 97 122 c.
Definition ascii_isalpha (c : N) : bool := ascii_isupper c || ascii_islower c.
Definition ascii_isalnum (c : N) : bool := ascii_isalpha c || ascii_isdigit c.
Definition ascii_tolower (c : N) : N := if ascii_isupper c then c + 32 else c.
Definition ascii_toupper (c : N) : N := if ascii_islower c then c - 32 else c.

(** [str.isspace] and the class [\s] of a [str] pattern: the same 29
    code points. *)
Definition isspace (c : N) : bool :=
  in_range 9 13 c || in_range 28 32 c || (c =? 0x85) || (c =? 0xA0)
  || (c =? 0x1680) || in_range 0x2000 0x200A c || (c =? 0x2028)
  || (c =? 0x2029) || (c =? 0x202F) || (c =? 0x205F) || (c =? 0x3000).

(** A calendar date, as a parsed "Sold Date" holds it. *)
Record Date := mkDate { year : N; month : N; day : N }.

(** ** Dates, as pandas reads and writes them *)

(** The month names of [%b]. *)
Definition MONTH_ABBR : list str :=
  [py "Jan"; py "Feb"; py "Mar"; py "Apr"; py "May"; py "Jun";
   py "Jul"; py "Aug"; py "Sep"; py "Oct"; py "Nov"; py "Dec"].

Definition leap_year (y : N) : bool :=
  ((y mod 4 =? 0) && negb (y mod 100 =? 0)) || (y mod 400 =? 0).

Definition days_in_month (y m : N) : N :=
  if m =? 2 then (if leap_year y then 29 else 28)
  else if (m =? 4) || (m =? 6) || (m =? 9) || (m =? 11) then 30
  else 31.

(** A day of the calendar that a timestamp can hold: [datetime64[ns]]
    reaches from 1677-09-21 to 2262-04-11, so every day of the years
    1678 to 2261 is inside. *)
Definition valid_date (d : Date) : bool :=
  (1678 <=? year d) && (year d <=? 2261) && (1 <=? month d) && (month d <=? 12)
  && (1 <=? day d) && (day d <=? days_in_month (year d) (month d)).

(** The value of a text of ASCII digits. *)
Fixpoint decimal_go (acc : N) (s : str) : option N :=
  match s with
  | [] => Some acc
  | c :: s' => if ascii_isdigit c then decimal_go (acc * 10 + (c - 48)) s' else None
  end.
Definition decimal (s : str) : option N :=
  match s with [] => None | _ => decimal_go 0 s end.

(** [n] in [width] ASCII digits, as [%d] and [%Y] write it. *)
Fixpoint digits_of (width : nat) (n : N) : str :=
  match width with
  | O => []
  | S w => digits_of w (n / 10) ++ [48 + n mod 10]
  end.

(** [strftime('%b %d, %Y')]: "Oct 21, 2025" *)
Definition strftime_mdy (d : Date) : str :=
  nth (N.to_nat (month d - 1)) MONTH_ABBR [] ++ [32] ++ digits_of 2 (day d)
  ++ [44; 32] ++ digits_of 4 (year d).

(** [strftime('%Y-%m-%d')]: "2025-10-21" *)
Definition strftime_ymd (d : Date) : str :=
  digits_of 4 (year d) ++ [45] ++ digits_of 2 (month d) ++ [45] ++ digits_of 2 (day d).

Definition starts_with_letter (w : str) : bool :=
  match w with p :: _ => ascii_isalpha p | [] => false end.

(** The text before and after the first [c]. *)
Fixpoint until (c : N) (s : str) : option (str * str) :=
  match s with
  | [] => None
  | x :: s' =>
      if x =? c then Some ([], s')
      else match until c s' with
           | Some (a, b) => Some (x :: a, b)
           | None => None
           end
  end.

(** The number of a month, whatever the case of the ASCII letters of
    its name. *)
Definition month_of (name : str) : option N :=
  match list_find (λ m, ascii_tolower <$> m = ascii_tolower <$> name) MONTH_ABBR with
  | Some (i, _) => Some (N.of_nat (S i))
  | None => None
  end.

(** The date that a text like "Oct 21, 2025" or "Oct 2, 2025" names:
    a month name, a space, a day of one or two digits, a comma, a
    space and a year of four digits.  [strptime] with the format
    [%b %d, %Y] reads these texts so. *)
Definition month_day_year (s : str) : option Date :=
  match until 44 s with
  | Some (m1 :: m2 :: m3 :: sp :: dd, sp' :: yyyy) =>
      if (sp =? 32) && (sp' =? 32) && (length dd <=? 2)%nat && (length yyyy =? 4)%nat then
        match month_of [m1; m2; m3], decimal dd, decimal yyyy with
        | Some m, Some d, Some y =>
            if valid_date (mkDate y m d) then Some (mkDate y m d) else None
        | _, _, _ => None
        end
      else None
  | _ => None
  end.

(** The date that a text like "2025-10-21" names. *)
Definition year_month_day (s : str) : option Date :=
  match until 45 s with
  | Some (yyyy, rest) =>
      match until 45 rest with
      | Some (mm, dd) =>
          if (length yyyy =? 4)%nat && (length mm =? 2)%nat && (length dd =? 2)%nat then
            match decimal yyyy, decimal mm, decimal dd with
            | Some y, Some m, Some d =>
                if valid_date (mkDate y m d) then Some (mkDate y m d) else None
            | _, _, _ => None
            end
          else None
      | None => None
      end
  | None => None
  end.

(** What the interpreter and pandas supply.

    The Unicode tables beyond ASCII.

    [to_datetime]: [pd.to_datetime(column, errors='coerce')] on a
    column of texts, which never raises and answers a date or NaT
    ([None]) for each text.  pandas 2 reads the whole column in one
    format, which it takes from the first text: where the first text is
    a date as [%b %d, %Y] writes it (in a month other than May, whose
    name [%B] writes the same way), every text that names a date in
    that form is read as that date, and a text without a comma is NaT;
    where the first text is a date as [%Y-%m-%d] writes it, every text
    of that form is read as its date and a text that starts with a
    letter is NaT.
    (The texts "now" and "today" stand for the current time in every
    column; they have at most five characters.)  What pandas answers
    elsewhere is left open. *)
Class Runtime := {
  ext_isalnum : N → bool;
  ext_isdecimal : N → bool;
  ext_lower : N → str;
  ext_upper : N → str;
  ext_casefold : N → str;
  ext_ignorecase : N → N → bool;
  to_datetime : list str → list (option Date);
  to_datetime_length : ∀ col, length (to_datetime col) = length col;
  to_datetime_mdy : ∀ first d0 col,
    month_day_year first = Some d0 → strftime_mdy d0 = first → month d0 ≠ 5 →
    ∀ (i : nat) s, (first :: col) !! i = Some s →
      (∀ d, month_day_year s = Some d → to_datetime (first :: col) !! i = Some (Some d))
      ∧ (44 ∉ s → (5 < length s)%nat → to_datetime (first :: col) !! i = Some None);
  to_datetime_ymd : ∀ first d0 col,
    year_month_day first = Some d0 → strftime_ymd d0 = first →
    ∀ (i : nat) s, (first :: col) !! i = Some s →
      (∀ d, year_month_day s = Some d → to_datetime (first :: col) !! i = Some (Some d))
      ∧ (starts_with_letter s = true → (5 < length s)%nat →
         to_datetime (first :: col) !! i = Some None);
}.

Section Chars.
Context `{Runtime}.

Definition isalnum (c : N) : bool :=
  if c <? 128 then ascii_isalnum c else ext_isalnum c.

(** [\d] *)
Definition isdecimal (c : N) : bool :=
  if c <? 128 then ascii_isdigit c else ext_isdecimal c.

(** [\w], which decides [\b] *)
Definition is_word (c : N) : bool := isalnum c || (c =? 95).

(** A literal of the pattern against a character of the subject under
    [re.IGNORECASE].  For an ASCII letter the interpreter accepts both
    cases and, besides, U+0130 and U+0131 for [i], U+017F for [s] and
    U+212A for [k]. *)
Definition ignorecase_eq (p c : N) : bool :=
  if p <? 128 then
    if ascii_isalpha p then
      let lo := ascii_tolower p in
      (c =? lo) || (c =? lo - 32)
      || ((lo =? 105) && ((c =? 0x130) || (c =? 0x131)))
      || ((lo =? 115) && (c =? 0x17F))
      || ((lo =? 107) && (c =? 0x212A))
    else c =? p
  else ext_ignorecase p c.

Definition lower_char (c : N) : str :=
  if c <? 128 then [ascii_tolower c] else ext_lower c.
Definition upper_char (c : N) : str :=
  if c <? 128 then [ascii_toupper c] else ext_upper c.
Definition casefold_char (c : N) : str :=
  if c <? 128 then [ascii_tolower c] else ext_casefold c.

(** [str.lower], [str.upper], [str.casefold] *)
Definition lower (s : str) : str := s ≫= lower_char.
Definition upper (s : str) : str := s ≫= upper_char.
Definition casefold (s : str) : str := s ≫= casefold_char.
End Chars.

(** ** The methods of [str] the scripts call *)

Fixpoint lstrip (s : str) : str :=
  match s with
  | c :: s' => if isspace c then lstrip s' else s
  | [] => []
  end.
Definition rstrip (s : str) : str := reverse (lstrip (reverse s)).
Definition strip (s : str) : str := rstrip (lstrip s).

Fixpoint startswith (p s : str) : bool :=
  match p, s with
  | [], _ => true
  | a :: p', b :: s' => (a =? b) && startswith p' s'
  | _ :: _, [] => false
  end.
Definition endswith (p s : str) : bool := startswith (reverse p) (reverse s).

(** [p in s] *)
Fixpoint contains (p s : str) : bool :=
  startswith p s || match s with _ :: s' => contains p s' | [] => false end.

(** [s.split()]: the maximal runs without white space. *)
Fixpoint split_go (cur : str) (s : str) : list str :=
  match s with
  | [] => match cur with [] => [] | _ => [reverse cur] end
  | c :: s' =>
      if isspace c
      then match cur with [] => split_go [] s' | _ => reverse cur :: split_go [] s' end
      else split_go (c :: cur) s'
  end.
Definition split (s : str) : list str := split_go [] s.

(** [s.replace(old, new)]: occurrences are taken from the left and do
    not overlap; [skip] counts the characters of an occurrence still to
    be passed over. *)
Fixpoint replace_go (old new : str) (s : str) (skip : nat) : str :=
  match s with
  | [] => []
  | c :: s' =>
      match skip with
      | S n => replace_go old new s' n
      | O =>
          if startswith old s
          then new ++ replace_go old new s' (length old - 1)
          else c :: replace_go old new s' 0
      end
  end.
Definition replace (old new s : str) : str :=
  match old with
  | [] => new ++ (s ≫= λ c, c :: new)
  | _ => replace_go old new s 0
  end.

(** [list(dict.fromkeys(l))]: the first occurrence of each key, in order. *)
Fixpoint fromkeys_go (seen : list str) (l : list str) : list str :=
  match l with
  | [] => []
  | x :: l' =>
      if bool_decide (x ∈ seen) then fromkeys_go seen l'
      else x :: fromkeys_go (x :: seen) l'
  end.
Definition fromkeys (l : list str) : list str := fromkeys_go [] l.

(** The order of [str], by code point, in which [sorted] arranges the
    names of one directory. *)
Fixpoint str_le (a b : str) : bool :=
  match a, b with
  | [], _ => true
  | _ :: _, [] => false
  | x :: a', y :: b' => (x <? y) || ((x =? y) && str_le a' b')
  end.
Definition sorted (l : list str) : list str :=
  merge_sort (λ a b, Is_true (str_le a b)) l.

(** ** Regular expressions: the fragment of [re] the scripts use *)

Inductive cset :=
  | CDigit                      (* \d *)
  | CSpace                      (* \s *)
  | CDot                        (* .  (no DOTALL) *)
  | CRange (lo hi : N)          (* [lo-hi] *)
  | COne (c : N)
  | CUnion (a b : cset).

(** Every repetition of the sources is over a single character class, so
    [Rep] takes a class; [Opt] is the greedy [(?:r)?]. *)
Inductive regex :=
  | Eps
  | Lit (p : N)
  | OneOf (cs : cset)
  | Seq (a b : regex)
  | Alt (a b : regex)
  | Opt (a : regex)
  | Rep (cs : cset) (lo : nat) (hi : option nat)
  | Group (n : nat) (a : regex)
  | NotAhead (a : regex)        (* (?!a) *)
  | Bol                         (* ^ *)
  | Eol                         (* $  (no MULTILINE) *)
  | WordB.                      (* \b *)

Notation "a ~> b" := (Seq a b) (at level 60, right associativity).

Fixpoint lits (s : str) : regex :=
  match s with
  | [] => Eps
  | [c] => Lit c
  | c :: s' => Lit c ~> lits s'
  end.

Fixpoint alts (l : list regex) : regex :=
  match l with
  | [] => NotAhead Eps
  | [a] => a
  | a :: l' => Alt a (alts l')
  end.

Record pattern := Pattern { rx : regex; ignorecase : bool }.

(** A position in the subject: the text before it, nearest character
    first, the text from it on, and the groups closed so far. *)
Record mstate := MState {
  seen : str;
  rest : str;
  groups : list (nat * str);
}.

Definition span (st st' : mstate) : str :=
  reverse (take (length (seen st') - length (seen st)) (seen st')).

Definition set_group (n : nat) (s : str) (st : mstate) : mstate :=
  MState (seen st) (rest st) ((n, s) :: groups st).

Fixpoint assoc (n : nat) (l : list (nat * str)) : option str :=
  match l with
  | [] => None
  | (m, s) :: l' => if (n =? m)%nat then Some s else assoc n l'
  end.

Section Engine.
Context `{Runtime}.

Fixpoint in_cset (cs : cset) (c : N) : bool :=
  match cs with
  | CDigit => isdecimal c
  | CSpace => isspace c
  | CDot => negb (c =? 10)
  | CRange lo hi => in_range lo hi c
  | COne x => c =? x
  | CUnion a b => in_cset a c || in_cset b c
  end.

Definition lit_eq (ic : bool) (p c : N) : bool :=
  if ic then ignorecase_eq p c else c =? p.

Definition at_boundary (st : mstate) : bool :=
  let before := match seen st with c :: _ => is_word c | [] => false end in
  let after := match rest st with c :: _ => is_word c | [] => false end in
  xorb before after.

(** Greedy [cs{lo,hi}]: as many characters as allowed, then one fewer
    each time the continuation fails. *)
Fixpoint rep_greedy (ok : N → bool) (lo : nat) (hi : option nat)
    (k : mstate → option mstate) (gs : list (nat * str))
    (sn rs : str) {struct rs} : option mstate :=
  let stop := match lo with O => k (MState sn rs gs) | S _ => None end in
  match hi, rs with
  | Some O, _ => stop
  | _, c :: rs' =>
      if ok c then
        match rep_greedy ok (pred lo) (pred <$> hi) k gs (c :: sn) rs' with
        | Some r => Some r
        | None => stop
        end
      else stop
  | _, [] => stop
  end.

(** The backtracking matcher, in continuation-passing style: [k] is
    what remains of the pattern. *)
Fixpoint run (ic : bool) (r : regex) (k : mstate → option mstate)
    (st : mstate) : option mstate :=
  match r with
  | Eps => k st
  | Lit p =>
      match rest st with
      | c :: rs =>
          if lit_eq ic p c then k (MState (c :: seen st) rs (groups st))
          else None
      | [] => None
      end
  | OneOf cs =>
      match rest st with
      | c :: rs =>
          if in_cset cs c then k (MState (c :: seen st) rs (groups st))
          else None
      | [] => None
      end
  | Seq a b => run ic a (run ic b k) st
  | Alt a b =>
      match run ic a k st with
      | Some r => Some r
      | None => run ic b k st
      end
  | Opt a =>
      match run ic a k st with
      | Some r => Some r
      | None => k st
      end
  | Rep cs lo hi => rep_greedy (in_cset cs) lo hi k (groups st) (seen st) (rest st)
  | Group n a => run ic a (λ st', k (set_group n (span st st') st')) st
  | NotAhead a =>
      match run ic a Some st with
      | Some _ => None
      | None => k st
      end
  | Bol => match seen st with [] => k st | _ => None end
  | Eol =>
      match rest st with
      | [] => k st
      | [c] => if c =? 10 then k st else None
      | _ => None
      end
  | WordB => if at_boundary st then k st else None
  end.

(** The end of a match: a match that must advance (the search right
    after an empty match) may not be empty. *)
Definition accept (adv : bool) (start : nat) (st : mstate) : option mstate :=
  if adv && (length (seen st) =? start)%nat then None else Some st.

(** One attempt at the position after [sn]. *)
Definition attempt (p : pattern) (adv : bool) (sn rs : str) : option mstate :=
  run (ignorecase p) (rx p) (accept adv (length sn)) (MState sn rs []).

(** A match object: where it starts and where it ends. *)
Record Match := mkMatch { m_before : str; m_end : mstate }.

Definition group (m : Match) (n : nat) : option str :=
  match n with
  | O => Some (reverse (take (length (seen (m_end m)) - length (m_before m))
                             (seen (m_end m))))
  | _ => assoc n (groups (m_end m))
  end.

(** [re.match] *)
Definition re_match (p : pattern) (s : str) : option Match :=
  mkMatch [] <$> attempt p false [] s.

(** [re.search]: the first position, from the left, with a match. *)
Fixpoint search_from (p : pattern) (sn rs : str) : option Match :=
  match attempt p false sn rs with
  | Some st => Some (mkMatch sn st)
  | None =>
      match rs with
      | c :: rs' => search_from p (c :: sn) rs'
      | [] => None
      end
  end.
Definition re_search (p : pattern) (s : str) : option Match := search_from p [] s.

(** The scan shared by [finditer] and [sub]: matches from the left that
    do not overlap, and the characters between them. *)
Inductive piece := Gap (c : N) | Hit (m : Match).

Fixpoint scan (p : pattern) (sn rs : str) (skip : nat) {struct rs} : list piece :=
  let next (skip' : nat) (gap : bool) :=
    match rs with
    | c :: rs' => (if gap then [Gap c] else []) ++ scan p (c :: sn) rs' skip'
    | [] => []
    end in
  match skip with
  | S n => next n false
  | O =>
      match attempt p false sn rs with
      | None => next O true
      | Some st =>
          match (length (seen st) - length sn)%nat with
          | S n => Hit (mkMatch sn st) :: next n false
          | O =>
              Hit (mkMatch sn st) ::
              match attempt p true sn rs with
              | Some st' =>
                  Hit (mkMatch sn st') ::
                  next (length (seen st') - length sn - 1)%nat false
              | None => next O true
              end
          end
      end
  end.

Definition finditer (p : pattern) (s : str) : list Match :=
  omap (λ x, match x with Hit m => Some m | Gap _ => None end) (scan p [] s 0).

(** [re.sub(p, repl, s)] for a replacement without group references. *)
Definition re_sub (p : pattern) (repl : str) (s : str) : str :=
  scan p [] s 0 ≫= λ x, match x with Hit _ => repl | Gap c => [c] end.
End Engine.

(** The relation a pattern denotes between positions: [den ic r st st']
    says that [r] can take the matcher from [st] to [st'].  It ignores
    which of several ways the matcher prefers; [run] is sound and
    complete for it. *)
Section Denotation.
Context `{Runtime}.

Fixpoint den (ic : bool) (r : regex) (st st' : mstate) : Prop :=
  match r with
  | Eps => st' = st
  | Lit p =>
      ∃ c rs, rest st = c :: rs ∧ lit_eq ic p c = true
              ∧ st' = MState (c :: seen st) rs (groups st)
  | OneOf cs =>
      ∃ c rs, rest st = c :: rs ∧ in_cset cs c = true
              ∧ st' = MState (c :: seen st) rs (groups st)
  | Seq a b => ∃ mid, den ic a st mid ∧ den ic b mid st'
  | Alt a b => den ic a st st' ∨ den ic b st st'
  | Opt a => den ic a st st' ∨ st' = st
  | Rep cs lo hi =>
      ∃ xs rs, rest st = xs ++ rs
               ∧ (lo ≤ length xs)%nat
               ∧ match hi with Some h => (length xs ≤ h)%nat | None => True end
               ∧ Forall (λ c, in_cset cs c = true) xs
               ∧ st' = MState (reverse xs ++ seen st) rs (groups st)
  | Group n a => ∃ mid, den ic a st mid ∧ st' = set_group n (span st mid) mid
  | NotAhead a => st' = st ∧ ¬ ∃ mid, den ic a st mid
  | Bol => st' = st ∧ seen st = []
  | Eol => st' = st ∧ (rest st = [] ∨ rest st = [10])
  | WordB => st' = st ∧ at_boundary st = true
  end.
End Denotation.

(** ** Data frames, files and what a script can raise *)

Inductive exn :=
  | ValueError (msg : str)
  | KeyError (key : str)
  | TypeError
  | EmptyDataError
  | FileNotFoundError.

Inductive result (A : Type) :=
  | Ok (a : A)
  | Raise (e : exn).
Arguments Ok {A} a.
Arguments Raise {A} e.

#[global] Instance result_ret : MRet result := λ A a, Ok a.
#[global] Instance result_bind : MBind result := λ A B f m,
  match m with Ok a => f a | Raise e => Raise e end.

Inductive cell :=
  | CStr (s : str)
  | CBool (b : bool)
  | CDate (d : option Date)     (* a timestamp, or NaT *)
  | CNaN
  | CNone.

(** A frame: the column labels in order and, for each row, the cell
    under each label. *)
Record DataFrame := mkDF {
  columns : list str;
  rows : list (gmap str cell);
}.

Definition at_col (col : str) (row : gmap str cell) : cell := default CNaN (row !! col).

(** [df[col]]: [KeyError] when the frame has no such column. *)
Definition get_column (df : DataFrame) (col : str) : result (list cell) :=
  if bool_decide (col ∈ columns df) then Ok (at_col col <$> rows df)
  else Raise (KeyError col).

(** [df[col] = values] *)
Definition set_column (df : DataFrame) (col : str) (values : list cell) : DataFrame :=
  mkDF (if bool_decide (col ∈ columns df) then columns df else columns df ++ [col])
       (zip_with (λ row v, <[col := v]> row) (rows df) values).

(** [series.apply(f)] for an [f] that works on [str] and raises
    [TypeError] on anything else, as [re.search], [re.finditer] and [in]
    do. *)
Definition apply_str {A} (f : str → A) (series : list cell) : result (list A) :=
  mapM (λ c, match c with CStr s => Ok (f s) | _ => Raise TypeError end) series.

(** [df[mask]] *)
Fixpoint select {A} (l : list A) (mask : list bool) : list A :=
  match l, mask with
  | x :: l', b :: mask' => if b then x :: select l' mask' else select l' mask'
  | _, _ => []
  end.
Definition mask_rows (df : DataFrame) (mask : list bool) : DataFrame :=
  mkDF (columns df) (select (rows df) mask).

Definition notna (c : cell) : bool :=
  match c with
  | CStr _ | CBool _ | CDate (Some _) => true
  | CDate None | CNaN | CNone => false
  end.

(** [series == s], one cell at a time *)
Definition eq_str (s : str) (c : cell) : bool :=
  match c with CStr x => bool_decide (x = s) | _ => false end.

Definition is_true (c : cell) : bool :=
  match c with CBool true => true | _ => false end.

Definition pad (width : nat) (s : str) : str := replicate (width - length s) 48 ++ s.
Definition str_of_nat (n : nat) : str := py (pretty n).
Definition str_of_N (n : N) : str := py (pretty n).

(** [str(x)] of a cell, which is what [astype(str)] stores. *)
Definition astype_str (c : cell) : str :=
  match c with
  | CStr s => s
  | CBool true => py "True"
  | CBool false => py "False"
  | CDate (Some d) =>
      pad 4 (str_of_N (year d)) ++ py "-" ++ pad 2 (str_of_N (month d)) ++ py "-"
      ++ pad 2 (str_of_N (day d))
  | CDate None => py "NaT"
  | CNaN => py "nan"
  | CNone => py "None"
  end.

(** A cell as [read_csv] finds it after [to_csv] wrote it: text and
    booleans come back, missing values and the empty text come back as
    NaN, a date comes back as its text.  (That a column of numerals is
    read back as numbers is not modelled.) *)
Definition reload (c : cell) : cell :=
  match c with
  | CStr [] => CNaN
  | CStr s => CStr s
  | CBool b => CBool b
  | CDate (Some d) =>
      CStr (pad 4 (str_of_N (year d)) ++ py "-" ++ pad 2 (str_of_N (month d)) ++ py "-"
            ++ pad 2 (str_of_N (day d)))
  | CDate None | CNaN | CNone => CNaN
  end.

(** The data directory, by file name, and what has been printed. *)
Record World := mkWorld {
  files : gmap str DataFrame;
  stdout : list str;
}.

Definition listing (w : World) : list str := (map_to_list (files w)).*1.
Definition print (line : str) (w : World) : World :=
  mkWorld (files w) (stdout w ++ [line]).
(** [pd.read_csv(name)]: a file that is not there and a file without a
    header line raise. *)
Definition read_csv (name : str) (w : World) : result DataFrame :=
  match files w !! name with
  | None => Raise FileNotFoundError
  | Some df => if bool_decide (columns df = []) then Raise EmptyDataError else Ok df
  end.
Definition to_csv (name : str) (df : DataFrame) (w : World) : World :=
  mkWorld (<[name := mkDF (columns df) ((λ row : gmap str cell, reload <$> row) <$> rows df)]> (files w))
          (stdout w).

(** [directory.glob('*.csv')] *)
Definition glob_csv (names : list str) : list str :=
  filter (λ n, Is_true (endswith (py ".csv") n)) names.

(** A [for] loop over the configured models: an exception leaves it. *)
Fixpoint for_each (body : str → World → result (option str) * World)
    (models : list str) (w : World) : result () * World :=
  match models with
  | [] => (Ok (), w)
  | m :: ms =>
      match body m w with
      | (Ok _, w') => for_each body ms w'
      | (Raise e, w') => (Raise e, w')
      end
  end.

(** ** Helpers the scripts share

    [extract_storage] and [extract_condition] are the same text in
    [pixel_all_only.py] (l. 43-55), [iphone_all_only.py] (l. 51-63) and
    [test.py] (l. 72-84). *)

(** [[\s_-]] *)
Definition SEP : cset := CUnion CSpace (CUnion (COne 95) (COne 45)).
(** [[0-9]] and [[1-9]] *)
Definition D09 : cset := CRange 48 57.
Definition D19 : cset := CRange 49 57.

(** [(\d{2,4})\s?GB\b], IGNORECASE *)
Definition STORAGE_RE : pattern :=
  Pattern (Group 1 (Rep CDigit 2 (Some 4%nat)) ~> Rep CSpace 0 (Some 1%nat)
           ~> lits (py "GB") ~> WordB) true.

(** [\s+] *)
Definition SPACES_RE : pattern := Pattern (Rep CSpace 1 None) false.
(** [^\s*Sold\s+] *)
Definition SOLD_RE : pattern :=
  Pattern (Bol ~> Rep CSpace 0 None ~> lits (py "Sold") ~> Rep CSpace 1 None) false.
(** [\s{2,}] *)
Definition SPACES2_RE : pattern := Pattern (Rep CSpace 2 None) false.

(** [.*\.csv$], the tail of every file-name pattern *)
Definition CSV_TAIL : regex := Rep CDot 0 None ~> Lit 46 ~> lits (py "csv") ~> Eol.

Section Helpers.
Context `{Runtime}.

Definition extract_storage (title : str) : str :=
  match re_search STORAGE_RE title with
  | Some m => default (py "None") (group m 1) ++ py " GB"
  | None => py "Unknown"
  end.

Definition extract_condition (title : str) : str :=
  if contains (py "Excellent") title then py "Excellent"
  else if contains (py "Very") title then py "Very Good"
  else if contains (py "Good") title then py "Good"
  else py "Unknown".

(** [series.str.contains('Parts Only', case=False, regex=False)] *)
Definition parts_only (c : cell) : cell :=
  match c with
  | CStr s => CBool (contains (upper (py "Parts Only")) (upper s))
  | _ => CNaN
  end.

(** The tail common to the two extractors: keep the tokens that
    normalise to a non-empty string, drop repetitions, and answer only
    when one model is left. *)
Definition models_of (normalize : str → option str) (tokens : list str) : list str :=
  omap (λ tok, match normalize tok with
               | Some (c :: s) => Some (c :: s)
               | _ => None
               end) tokens.

Definition single (models : list str) : option str :=
  match fromkeys models with
  | [m] => Some m
  | _ => None
  end.

(** [m.group(1) for m in P.finditer(title)]; group 1 takes part in
    every match of the two scanning patterns. *)
Definition tokens_of (P : pattern) (title : str) : list str :=
  omap (λ m, group m 1) (finditer P title).

Definition model_cell (o : option str) : cell :=
  match o with Some s => CStr s | None => CNone end.
End Helpers.

(** ** [pixel_all_only.py] *)
Module PixelAll.

Definition MODELS : list str :=
  [py "Pixel 6"; py "Pixel 6 Pro";
   py "Pixel 7"; py "Pixel 7 Pro";
   py "Pixel 8"; py "Pixel 8 Pro";
   py "Pixel 9"; py "Pixel 9 Pro"; py "Pixel 9 Pro XL";
   py "Pixel 10"; py "Pixel 10 Pro"; py "Pixel 10 Pro XL"].

Definition DATA_DIR : str :=
  py "/home/mengsrun/Desktop/scraper/ebay-scrapping/Google Pixel/Pixel_Data".

(** [^Pixel\s+([0-9]{1,2})(?:\s+(Pro|XL)(?:\s+XL)?)?$], IGNORECASE *)
Definition NAME_RE : pattern :=
  Pattern (Bol ~> lits (py "Pixel") ~> Rep CSpace 1 None
           ~> Group 1 (Rep D09 1 (Some 2%nat))
           ~> Opt (Rep CSpace 1 None ~> Group 2 (Alt (lits (py "Pro")) (lits (py "XL")))
                   ~> Opt (Rep CSpace 1 None ~> lits (py "XL")))
           ~> Eol) true.

(** [\bpixel] then [[\s_-]*tok] for each token, then [\b.*\.csv$],
    IGNORECASE.  [re.escape] leaves the characters of a name that
    [NAME_RE] accepts as they are, so a token stands for itself. *)
Definition file_pattern (model_tokens : list str) : pattern :=
  Pattern (WordB ~> lits (py "pixel")
           ~> foldr (λ tok r, Rep SEP 0 None ~> lits tok ~> r)
                    (WordB ~> CSV_TAIL) model_tokens) true.

(** [(?:Google\s+)?Pixel\s+((?:[1-9][0-9]?)(?:\s?(?:Pro|XL|Pro XL|a))?)\b(?:\s*5G)?],
    IGNORECASE *)
Definition MODEL_RE : pattern :=
  Pattern (Opt (lits (py "Google") ~> Rep CSpace 1 None)
           ~> lits (py "Pixel") ~> Rep CSpace 1 None
           ~> Group 1 (OneOf D19 ~> Rep D09 0 (Some 1%nat)
                       ~> Opt (Rep CSpace 0 (Some 1%nat)
                               ~> alts [lits (py "Pro"); lits (py "XL");
                                        lits (py "Pro XL"); lits (py "a")]))
           ~> WordB
           ~> Opt (Rep CSpace 0 None ~> lits (py "5G"))) true.

(** [^([1-9][0-9]?)(?:\s?(Pro|XL|Pro XL|a))?$], IGNORECASE *)
Definition TOKEN_RE : pattern :=
  Pattern (Bol ~> Group 1 (OneOf D19 ~> Rep D09 0 (Some 1%nat))
           ~> Opt (Rep CSpace 0 (Some 1%nat)
                   ~> Group 2 (alts [lits (py "Pro"); lits (py "XL");
                                     lits (py "Pro XL"); lits (py "a")]))
           ~> Eol) true.

Section Script.
Context `{Runtime}.

Definition find_csv_for_model (directory : list str) (model_name : str)
    : result (option str) :=
  match re_match NAME_RE model_name with
  | None => Raise (ValueError (py "Model name not recognized: " ++ model_name))
  | Some m =>
      let model_tokens := split (strip (replace (py "Pixel") [] model_name)) in
      let pattern := file_pattern model_tokens in
      let candidates :=
        sorted (filter (λ name, is_Some (re_search pattern name)) (glob_csv directory)) in
      Ok (head candidates)
  end.

Definition normalize_model_token (token : str) : option str :=
  let t := re_sub SPACES_RE (py " ") (strip token) in
  match re_match TOKEN_RE t with
  | None => None
  | Some m =>
      let num := default (py "None") (group m 1) in
      let suf := lower (default [] (group m 2)) in
      if bool_decide (suf = []) then Some (py "Pixel " ++ num)
      else if bool_decide (suf = py "pro") then Some (py "Pixel " ++ num ++ py " Pro")
      else if bool_decide (suf = py "xl") then Some (py "Pixel " ++ num ++ py " XL")
      else if bool_decide (suf = py "pro xl") then Some (py "Pixel " ++ num ++ py " Pro XL")
      else if bool_decide (suf = py "a") then Some (py "Pixel " ++ num ++ py "a")
      else None
  end.

(** The list [models] of [extract_single_model_or_none] before
    [dict.fromkeys]. *)
Definition recognized (title : str) : list str :=
  models_of normalize_model_token (tokens_of MODEL_RE title).

Definition extract_single_model_or_none (title : str) : option str :=
  single (recognized title).

(** The text handed to [pd.to_datetime]. *)
Definition sold_text (c : cell) : str :=
  strip (re_sub SPACES2_RE (py " ") (re_sub SOLD_RE [] (astype_str c))).

Definition clean_and_filter_for_model (df : DataFrame) (target_model : str)
    : result DataFrame :=
  let tmp := df in
  title ← get_column tmp (py "Title");
  storage ← apply_str extract_storage title;
  let tmp := set_column tmp (py "Storage") (CStr <$> storage) in
  title ← get_column tmp (py "Title");
  condition ← apply_str extract_condition title;
  let tmp := set_column tmp (py "Condition") (CStr <$> condition) in
  title ← get_column tmp (py "Title");
  let tmp := set_column tmp (py "PartsOnly") (parts_only <$> title) in
  tmp ← (if bool_decide (py "Sold Date" ∈ columns tmp) then
           sold ← get_column tmp (py "Sold Date");
           Ok (set_column tmp (py "Sold Date")
                   (CDate <$> to_datetime (sold_text <$> sold)))
         else Ok tmp);
  title ← get_column tmp (py "Title");
  model ← apply_str extract_single_model_or_none title;
  let tmp := set_column tmp (py "Model") (model_cell <$> model) in
  model ← get_column tmp (py "Model");
  let tmp := mask_rows tmp (notna <$> model) in
  let flag_col := replace (py " ") (py "_") target_model in
  model ← get_column tmp (py "Model");
  let tmp := set_column tmp flag_col
               ((λ c, CBool (eq_str target_model c)) <$> model) in
  flag ← get_column tmp flag_col;
  let tmp := mask_rows tmp (is_true <$> flag) in
  Ok tmp.

Definition export_model_subset (directory : str) (model_name : str) (w : World)
    : result (option str) * World :=
  match find_csv_for_model (listing w) model_name with
  | Raise e => (Raise e, w)
  | Ok None =>
      let w := print ([0x274C] ++ py " No CSV found for " ++ model_name
                      ++ py " in " ++ directory) w in
      (Ok None, w)
  | Ok (Some src) =>
      let w := print ([0x1F4C4] ++ py " Using file: " ++ src) w in
      match df ← read_csv src w; clean_and_filter_for_model df model_name with
      | Raise e => (Raise e, w)
      | Ok subset =>
          let out_name := replace (py " ") (py "_") (lower model_name) ++ py "_only.csv" in
          let w := to_csv out_name subset w in
          let w := print ([0x2705] ++ py " " ++ model_name ++ py ": Exported "
                          ++ str_of_nat (length (rows subset)) ++ py " rows -> "
                          ++ out_name) w in
          (Ok (Some (directory ++ py "/" ++ out_name)), w)
      end
  end.

(** The loop at the end of the script, over any list of models. *)
Definition run (models : list str) (w : World) : result () * World :=
  for_each (export_model_subset DATA_DIR) models w.
End Script.
End PixelAll.

(** ** [iphone_all_only.py] *)
Module IPhoneAll.

Definition IPHONE_MODELS : list str :=
  [py "iPhone 12"; py "iPhone 12 Pro"; py "iPhone 12 Pro Max";
   py "iPhone 13"; py "iPhone 13 Pro"; py "iPhone 13 Pro Max";
   py "iPhone 14"; py "iPhone 14 Pro"; py "iPhone 14 Pro Max";
   py "iPhone 15"; py "iPhone 15 Pro"; py "iPhone 15 Pro Max";
   py "iPhone 16"; py "iPhone 16 Pro"; py "iPhone 16 Pro Max";
   py "iPhone 17"; py "iPhone 17 Pro"; py "iPhone 17 Pro Max"].

Definition IPHONE_DIR : str :=
  py "/home/mengsrun/Desktop/scraper/ebay-scrapping/Iphone Data".

(** [^iPhone\s+([0-9]{2})(?:\s+(Pro)(?:\s+Max)?)?$], IGNORECASE *)
Definition NAME_RE : pattern :=
  Pattern (Bol ~> lits (py "iPhone") ~> Rep CSpace 1 None
           ~> Group 1 (Rep D09 2 (Some 2%nat))
           ~> Opt (Rep CSpace 1 None ~> Group 2 (lits (py "Pro"))
                   ~> Opt (Rep CSpace 1 None ~> lits (py "Max")))
           ~> Eol) true.

(** [\biphone[\s_-]*{num}[\s_-]*pro[\s_-]*max\b.*\.csv$] *)
Definition pro_max_pattern (num : str) : pattern :=
  Pattern (WordB ~> lits (py "iphone") ~> Rep SEP 0 None ~> lits num
           ~> Rep SEP 0 None ~> lits (py "pro") ~> Rep SEP 0 None ~> lits (py "max")
           ~> WordB ~> CSV_TAIL) true.

(** [\biphone[\s_-]*{num}[\s_-]*pro\b(?![\s_-]*max).*\.csv$] *)
Definition pro_pattern (num : str) : pattern :=
  Pattern (WordB ~> lits (py "iphone") ~> Rep SEP 0 None ~> lits num
           ~> Rep SEP 0 None ~> lits (py "pro") ~> WordB
           ~> NotAhead (Rep SEP 0 None ~> lits (py "max"))
           ~> CSV_TAIL) true.

(** [\biphone[\s_-]*{num}\b(?![\s_-]*(?:pro|max)).*\.csv$] *)
Definition base_pattern (num : str) : pattern :=
  Pattern (WordB ~> lits (py "iphone") ~> Rep SEP 0 None ~> lits num ~> WordB
           ~> NotAhead (Rep SEP 0 None ~> Alt (lits (py "pro")) (lits (py "max")))
           ~> CSV_TAIL) true.

(** [(?:Apple\s+)?iPhone\s+((?:[1-9][0-9]?)(?:\s?(?:Pro\s+Max|Pro|Plus|Mini|Max))?)\b],
    IGNORECASE *)
Definition IPHONE_MODEL_RE : pattern :=
  Pattern (Opt (lits (py "Apple") ~> Rep CSpace 1 None)
           ~> lits (py "iPhone") ~> Rep CSpace 1 None
           ~> Group 1 (OneOf D19 ~> Rep D09 0 (Some 1%nat)
                       ~> Opt (Rep CSpace 0 (Some 1%nat)
                               ~> alts [lits (py "Pro") ~> Rep CSpace 1 None ~> lits (py "Max");
                                        lits (py "Pro"); lits (py "Plus");
                                        lits (py "Mini"); lits (py "Max")]))
           ~> WordB) true.

(** [^([1-9][0-9]?)(?:\s?(Pro\s+Max|Pro|Plus|Mini|Max))?$], IGNORECASE *)
Definition TOKEN_RE : pattern :=
  Pattern (Bol ~> Group 1 (OneOf D19 ~> Rep D09 0 (Some 1%nat))
           ~> Opt (Rep CSpace 0 (Some 1%nat)
                   ~> Group 2 (alts [lits (py "Pro") ~> Rep CSpace 1 None ~> lits (py "Max");
                                     lits (py "Pro"); lits (py "Plus");
                                     lits (py "Mini"); lits (py "Max")]))
           ~> Eol) true.

Section Script.
Context `{Runtime}.

Definition find_csv_for_iphone (directory : list str) (model_name : str)
    : result (option str) :=
  match re_match NAME_RE model_name with
  | None => Raise (ValueError (py "Model name not recognized: " ++ model_name))
  | Some m =>
      let num := default (py "None") (group m 1) in
      let is_pro := match group m 2 with Some (_ :: _) => true | _ => false end in
      let is_pro_max := endswith (py "pro max") (lower (strip model_name)) in
      let pattern :=
        if is_pro_max then pro_max_pattern num
        else if is_pro then pro_pattern num
        else base_pattern num in
      let candidates :=
        sorted (filter (λ name, is_Some (re_search pattern name)) (glob_csv directory)) in
      Ok (head candidates)
  end.

Definition normalize_iphone_token (token : str) : option str :=
  let t := re_sub SPACES_RE (py " ") (strip token) in
  match re_match TOKEN_RE t with
  | None => None
  | Some m =>
      let num := default (py "None") (group m 1) in
      let suf := lower (strip (default [] (group m 2))) in
      if bool_decide (suf = []) then Some (py "iPhone " ++ num)
      else if bool_decide (suf = py "pro max") then Some (py "iPhone " ++ num ++ py " Pro Max")
      else if bool_decide (suf = py "pro") then Some (py "iPhone " ++ num ++ py " Pro")
      else if bool_decide (suf = py "plus") then Some (py "iPhone " ++ num ++ py " Plus")
      else if bool_decide (suf = py "mini") then Some (py "iPhone " ++ num ++ py " Mini")
      else if bool_decide (suf = py "max") then Some (py "iPhone " ++ num ++ py " Max")
      else None
  end.

(** The list [models] of [extract_single_iphone_model_or_none] before
    [dict.fromkeys]. *)
Definition recognized (title : str) : list str :=
  models_of normalize_iphone_token (tokens_of IPHONE_MODEL_RE title).

Definition extract_single_iphone_model_or_none (title : str) : option str :=
  single (recognized title).

(** The text handed to [pd.to_datetime]. *)
Definition sold_text (c : cell) : str :=
  strip (re_sub SOLD_RE [] (astype_str c)).

(** [series.str.casefold() == s.casefold()], one cell at a time *)
Definition eq_casefold (s : str) (c : cell) : bool :=
  match c with
  | CStr x => bool_decide (casefold x = casefold s)
  | _ => false
  end.

Definition clean_and_filter_for_iphone (df : DataFrame) (target_model : str)
    : result DataFrame :=
  let tmp := df in
  title ← get_column tmp (py "Title");
  storage ← apply_str extract_storage title;
  let tmp := set_column tmp (py "Storage") (CStr <$> storage) in
  title ← get_column tmp (py "Title");
  condition ← apply_str extract_condition title;
  let tmp := set_column tmp (py "Condition") (CStr <$> condition) in
  title ← get_column tmp (py "Title");
  let tmp := set_column tmp (py "PartsOnly") (parts_only <$> title) in
  title ← get_column tmp (py "Title");
  model ← apply_str extract_single_iphone_model_or_none title;
  let tmp := set_column tmp (py "Model") (model_cell <$> model) in
  model ← get_column tmp (py "Model");
  let tmp := mask_rows tmp (notna <$> model) in
  tmp ← (if bool_decide (py "Sold Date" ∈ columns tmp) then
           sold ← get_column tmp (py "Sold Date");
           Ok (set_column tmp (py "Sold Date")
                 (CDate <$> to_datetime (sold_text <$> sold)))
         else Ok tmp);
  let flag_col := replace (py " ") (py "_") target_model in
  model ← get_column tmp (py "Model");
  let tmp := set_column tmp flag_col
               ((λ c, CBool (eq_casefold target_model c)) <$> model) in
  flag ← get_column tmp flag_col;
  let tmp := mask_rows tmp (is_true <$> flag) in
  Ok tmp.

Definition export_iphone_subset (directory : str) (model_name : str) (w : World)
    : result (option str) * World :=
  match find_csv_for_iphone (listing w) model_name with
  | Raise e => (Raise e, w)
  | Ok None =>
      let w := print ([0x274C] ++ py " No CSV found for " ++ model_name
                      ++ py " in " ++ directory) w in
      (Ok None, w)
  | Ok (Some src) =>
      let w := print ([0x1F4C4] ++ py " Using file: " ++ src) w in
      match df ← read_csv src w; clean_and_filter_for_iphone df model_name with
      | Raise e => (Raise e, w)
      | Ok subset =>
          let out_name := replace (py " ") (py "_") (lower model_name) ++ py "_only.csv" in
          let w := to_csv out_name subset w in
          let w := print ([0x2705] ++ py " " ++ model_name ++ py ": Exported "
                          ++ str_of_nat (length (rows subset)) ++ py " rows -> "
                          ++ out_name) w in
          (Ok (Some (directory ++ py "/" ++ out_name)), w)
      end
  end.

(** The loop at the end of the script, over any list of models. *)
Definition run (models : list str) (w : World) : result () * World :=
  for_each (export_iphone_subset IPHONE_DIR) models w.
End Script.
End IPhoneAll.

(** ** [test.py]: the later Pixel script *)
Module TestPy.

(** [(?:Google\s+)?Pixel\s+((?:[1-9][0-9]?)(?:\s?(?:Pro\s+XL|Pro|XL|a))?)\b(?:\s*5G)?],
    IGNORECASE *)
Definition MODEL_RE : pattern :=
  Pattern (Opt (lits (py "Google") ~> Rep CSpace 1 None)
           ~> lits (py "Pixel") ~> Rep CSpace 1 None
           ~> Group 1 (OneOf D19 ~> Rep D09 0 (Some 1%nat)
                       ~> Opt (Rep CSpace 0 (Some 1%nat)
                               ~> alts [lits (py "Pro") ~> Rep CSpace 1 None ~> lits (py "XL");
                                        lits (py "Pro"); lits (py "XL"); lits (py "a")]))
           ~> WordB
           ~> Opt (Rep CSpace 0 None ~> lits (py "5G"))) true.

(** [^([1-9][0-9]?)(?:\s?(Pro\s+XL|Pro|XL|a))?$], IGNORECASE *)
Definition TOKEN_RE : pattern :=
  Pattern (Bol ~> Group 1 (OneOf D19 ~> Rep D09 0 (Some 1%nat))
           ~> Opt (Rep CSpace 0 (Some 1%nat)
                   ~> Group 2 (alts [lits (py "Pro") ~> Rep CSpace 1 None ~> lits (py "XL");
                                     lits (py "Pro"); lits (py "XL"); lits (py "a")]))
           ~> Eol) true.

Definition MODELS : list str := [py "Pixel 4"; py "Pixel 9 Pro XL"].

(** [Path("/home/mengsrun/Desktop/scraper/ebay-scrapping/")], as [str]
    shows it: without the final slash. *)
Definition DATA_DIR : str := py "/home/mengsrun/Desktop/scraper/ebay-scrapping".

(** [^Pixel\s+([0-9]{1,2})(?:\s+(Pro(?:\s+XL)?|XL|a))?$], IGNORECASE *)
Definition NAME_RE : pattern :=
  Pattern (Bol ~> lits (py "Pixel") ~> Rep CSpace 1 None
           ~> Group 1 (Rep D09 1 (Some 2%nat))
           ~> Opt (Rep CSpace 1 None
                   ~> Group 2 (alts [lits (py "Pro") ~> Opt (Rep CSpace 1 None ~> lits (py "XL"));
                                     lits (py "XL"); lits (py "a")]))
           ~> Eol) true.

(** [\bpixel[\s_-]*{num}\b(?![\s_-]*(?:pro|xl|a)).*\.csv$] *)
Definition base_pattern (num : str) : pattern :=
  Pattern (WordB ~> lits (py "pixel") ~> Rep SEP 0 None ~> lits num ~> WordB
           ~> NotAhead (Rep SEP 0 None ~> alts [lits (py "pro"); lits (py "xl"); lits (py "a")])
           ~> CSV_TAIL) true.

(** [\bpixel[\s_-]*{num}[\s_-]*xl\b(?!.*pro).*\.csv$] *)
Definition xl_pattern (num : str) : pattern :=
  Pattern (WordB ~> lits (py "pixel") ~> Rep SEP 0 None ~> lits num
           ~> Rep SEP 0 None ~> lits (py "xl") ~> WordB
           ~> NotAhead (Rep CDot 0 None ~> lits (py "pro"))
           ~> CSV_TAIL) true.

(** [\bpixel[\s_-]*{num}[\s_-]*pro\b(?![\s_-]*xl).*\.csv$] *)
Definition pro_pattern (num : str) : pattern :=
  Pattern (WordB ~> lits (py "pixel") ~> Rep SEP 0 None ~> lits num
           ~> Rep SEP 0 None ~> lits (py "pro") ~> WordB
           ~> NotAhead (Rep SEP 0 None ~> lits (py "xl"))
           ~> CSV_TAIL) true.

(** [\bpixel[\s_-]*{num}[\s_-]*pro[\s_-]*xl\b.*\.csv$] *)
Definition pro_xl_pattern (num : str) : pattern :=
  Pattern (WordB ~> lits (py "pixel") ~> Rep SEP 0 None ~> lits num
           ~> Rep SEP 0 None ~> lits (py "pro") ~> Rep SEP 0 None ~> lits (py "xl")
           ~> WordB ~> CSV_TAIL) true.

(** [\bpixel[\s_-]*{num}[\s_-]*a\b.*\.csv$] *)
Definition a_pattern (num : str) : pattern :=
  Pattern (WordB ~> lits (py "pixel") ~> Rep SEP 0 None ~> lits num
           ~> Rep SEP 0 None ~> lits (py "a") ~> WordB ~> CSV_TAIL) true.

Section Script.
Context `{Runtime}.

Definition normalize_model_token (token : str) : option str :=
  let t := re_sub SPACES_RE (py " ") (strip token) in
  match re_match TOKEN_RE t with
  | None => None
  | Some m =>
      let num := default (py "None") (group m 1) in
      let suf := lower (strip (default [] (group m 2))) in
      if bool_decide (suf = []) then Some (py "Pixel " ++ num)
      else if bool_decide (suf = py "pro") then Some (py "Pixel " ++ num ++ py " Pro")
      else if bool_decide (suf = py "xl") then Some (py "Pixel " ++ num ++ py " XL")
      else if bool_decide (suf = py "pro xl") then Some (py "Pixel " ++ num ++ py " Pro XL")
      else if bool_decide (suf = py "a") then Some (py "Pixel " ++ num ++ py "a")
      else None
  end.

Definition recognized (title : str) : list str :=
  models_of normalize_model_token (tokens_of MODEL_RE title).

Definition extract_single_model_or_none (title : str) : option str :=
  single (recognized title).

Definition find_csv_for_model (directory : list str) (model_name : str)
    : result (option str) :=
  match re_match NAME_RE model_name with
  | None => Raise (ValueError (py "Model name not recognized: " ++ model_name))
  | Some m =>
      let num := default (py "None") (group m 1) in
      let variant := lower (strip (default [] (group m 2))) in
      pattern ← (if bool_decide (variant = []) then Ok (base_pattern num)
                 else if bool_decide (variant = py "xl") then Ok (xl_pattern num)
                 else if bool_decide (variant = py "pro") then Ok (pro_pattern num)
                 else if bool_decide (variant = py "pro xl") then Ok (pro_xl_pattern num)
                 else if bool_decide (variant = py "a") then Ok (a_pattern num)
                 else Raise (ValueError (py "Variant not supported: " ++ variant)));
      let candidates :=
        sorted (filter (λ name, is_Some (re_search pattern name)) (glob_csv directory)) in
      Ok (head candidates)
  end.

(** The text handed to [pd.to_datetime]. *)
Definition sold_text (c : cell) : str :=
  strip (re_sub SPACES2_RE (py " ") (re_sub SOLD_RE [] (astype_str c))).

Definition clean_and_filter_for_model (df : DataFrame) (target_model : str)
    : result DataFrame :=
  let tmp := df in
  title ← get_column tmp (py "Title");
  storage ← apply_str extract_storage title;
  let tmp := set_column tmp (py "Storage") (CStr <$> storage) in
  title ← get_column tmp (py "Title");
  condition ← apply_str extract_condition title;
  let tmp := set_column tmp (py "Condition") (CStr <$> condition) in
  title ← get_column tmp (py "Title");
  let tmp := set_column tmp (py "PartsOnly") (parts_only <$> title) in
  tmp ← (if bool_decide (py "Sold Date" ∈ columns tmp) then
           sold ← get_column tmp (py "Sold Date");
           Ok (set_column tmp (py "Sold Date")
                   (CDate <$> to_datetime (sold_text <$> sold)))
         else Ok tmp);
  title ← get_column tmp (py "Title");
  model ← apply_str extract_single_model_or_none title;
  let tmp := set_column tmp (py "Model") (model_cell <$> model) in
  model ← get_column tmp (py "Model");
  let tmp := mask_rows tmp (notna <$> model) in
  let flag_col := replace (py " ") (py "_") target_model in
  model ← get_column tmp (py "Model");
  let tmp := set_column tmp flag_col
               ((λ c, CBool (eq_str target_model c)) <$> model) in
  flag ← get_column tmp flag_col;
  let tmp := mask_rows tmp (is_true <$> flag) in
  Ok tmp.

Definition export_model_subset (directory : str) (model_name : str) (w : World)
    : result (option str) * World :=
  match find_csv_for_model (listing w) model_name with
  | Raise e => (Raise e, w)
  | Ok None =>
      let w := print ([0x274C] ++ py " No CSV found for " ++ model_name
                      ++ py " in " ++ directory) w in
      (Ok None, w)
  | Ok (Some src) =>
      let w := print ([0x1F4C4] ++ py " Using file: " ++ src) w in
      match df ← read_csv src w; clean_and_filter_for_model df model_name with
      | Raise e => (Raise e, w)
      | Ok subset =>
          let out_name := replace (py " ") (py "_") (lower model_name) ++ py "_only.csv" in
          let w := to_csv out_name subset w in
          let w := print ([0x2705] ++ py " " ++ model_name ++ py ": Exported "
                          ++ str_of_nat (length (rows subset)) ++ py " rows -> "
                          ++ out_name) w in
          (Ok (Some (directory ++ py "/" ++ out_name)), w)
      end
  end.

(** The loop at the end of the script, over any list of models. *)
Definition run (models : list str) (w : World) : result () * World :=
  for_each (export_model_subset DATA_DIR) models w.
End Script.
End TestPy.

(** ** [pixel_only.py]: the first Pixel script, for one model *)
Module PixelOnly.

Definition MODELS : list str := [py "Pixel 7"].

Definition DATA_DIR : str := py "/home/mengsrun/Desktop/scraper/ebay-scrapping".

(** [^Pixel\s+([0-9]{1,2})\s+Pro$], IGNORECASE *)
Definition NAME_RE : pattern :=
  Pattern (Bol ~> lits (py "Pixel") ~> Rep CSpace 1 None
           ~> Group 1 (Rep D09 1 (Some 2%nat))
           ~> Rep CSpace 1 None ~> lits (py "Pro") ~> Eol) true.

(** [\bpixel[\s_-]*{num}[\s_-]*pro\b.*\.csv$] *)
Definition file_pattern (num : str) : pattern :=
  Pattern (WordB ~> lits (py "pixel") ~> Rep SEP 0 None ~> lits num
           ~> Rep SEP 0 None ~> lits (py "pro") ~> WordB ~> CSV_TAIL) true.

(** [(?:Google\s+)?Pixel\s+((?:[1-9][0-9]?)(?:\s?(?:Pro|XL|a))?)\b(?:\s*5G)?],
    IGNORECASE *)
Definition MODEL_RE : pattern :=
  Pattern (Opt (lits (py "Google") ~> Rep CSpace 1 None)
           ~> lits (py "Pixel") ~> Rep CSpace 1 None
           ~> Group 1 (OneOf D19 ~> Rep D09 0 (Some 1%nat)
                       ~> Opt (Rep CSpace 0 (Some 1%nat)
                               ~> alts [lits (py "Pro"); lits (py "XL"); lits (py "a")]))
           ~> WordB
           ~> Opt (Rep CSpace 0 None ~> lits (py "5G"))) true.

(** [^([1-9][0-9]?)(?:\s?(Pro|XL|a))?$], IGNORECASE *)
Definition TOKEN_RE : pattern :=
  Pattern (Bol ~> Group 1 (OneOf D19 ~> Rep D09 0 (Some 1%nat))
           ~> Opt (Rep CSpace 0 (Some 1%nat)
                   ~> Group 2 (alts [lits (py "Pro"); lits (py "XL"); lits (py "a")]))
           ~> Eol) true.

Section Script.
Context `{Runtime}.

Definition find_csv_for_model (directory : list str) (model_name : str)
    : result (option str) :=
  match re_match NAME_RE model_name with
  | None => Raise (ValueError (py "Model name not recognized: " ++ model_name))
  | Some m =>
      let num := default (py "None") (group m 1) in
      let pattern := file_pattern num in
      let candidates :=
        sorted (filter (λ name, is_Some (re_search pattern name)) (glob_csv directory)) in
      Ok (head candidates)
  end.

Definition normalize_model_token (token : str) : option str :=
  let t := re_sub SPACES_RE (py " ") (strip token) in
  match re_match TOKEN_RE t with
  | None => None
  | Some m =>
      let num := default (py "None") (group m 1) in
      let suf := default [] (group m 2) in
      if bool_decide (suf = []) then Some (py "Pixel " ++ num)
      else
        let suf_l := lower suf in
        if bool_decide (suf_l = py "pro") then Some (py "Pixel " ++ num ++ py " Pro")
        else if bool_decide (suf_l = py "xl") then Some (py "Pixel " ++ num ++ py " XL")
        else if bool_decide (suf_l = py "a") then Some (py "Pixel " ++ num ++ py "a")
        else None
  end.

Definition recognized (title : str) : list str :=
  models_of normalize_model_token (tokens_of MODEL_RE title).

Definition extract_single_model_or_none (title : str) : option str :=
  single (recognized title).

Definition clean_and_filter_for_model (df : DataFrame) (target_model : str)
    : result DataFrame :=
  let tmp := df in
  title ← get_column tmp (py "Title");
  storage ← apply_str extract_storage title;
  let tmp := set_column tmp (py "Storage") (CStr <$> storage) in
  title ← get_column tmp (py "Title");
  condition ← apply_str extract_condition title;
  let tmp := set_column tmp (py "Condition") (CStr <$> condition) in
  title ← get_column tmp (py "Title");
  let tmp := set_column tmp (py "PartsOnly") (parts_only <$> title) in
  title ← get_column tmp (py "Title");
  model ← apply_str extract_single_model_or_none title;
  let tmp := set_column tmp (py "Model") (model_cell <$> model) in
  model ← get_column tmp (py "Model");
  let tmp := mask_rows tmp (notna <$> model) in
  let flag_col := replace (py " ") (py "_") target_model in
  model ← get_column tmp (py "Model");
  let tmp := set_column tmp flag_col
               ((λ c, CBool (eq_str target_model c)) <$> model) in
  flag ← get_column tmp flag_col;
  let tmp := mask_rows tmp (is_true <$> flag) in
  Ok tmp.

Definition export_model_subset (directory : str) (model_name : str) (w : World)
    : result (option str) * World :=
  match find_csv_for_model (listing w) model_name with
  | Raise e => (Raise e, w)
  | Ok None =>
      let w := print ([0x274C] ++ py " No CSV found for " ++ model_name
                      ++ py " in " ++ directory) w in
      (Ok None, w)
  | Ok (Some src) =>
      let w := print ([0x1F4C4] ++ py " Using file: " ++ src) w in
      match df ← read_csv src w; clean_and_filter_for_model df model_name with
      | Raise e => (Raise e, w)
      | Ok subset =>
          let out_name := replace (py " ") (py "_") (lower model_name) ++ py "_only.csv" in
          let w := to_csv out_name subset w in
          let w := print ([0x2705] ++ py " " ++ model_name ++ py ": Exported "
                          ++ str_of_nat (length (rows subset)) ++ py " rows -> "
                          ++ out_name) w in
          (Ok (Some (directory ++ py "/" ++ out_name)), w)
      end
  end.

(** The loop at the end of the script, over any list of models. *)
Definition run (models : list str) (w : World) : result () * World :=
  for_each (export_model_subset DATA_DIR) models w.
End Script.
End PixelOnly.

(** ** Vocabulary of the statements *)

(** The characters an ASCII literal accepts under IGNORECASE. *)
Definition ci_variants (p : N) : list N :=
  if ascii_isalpha p then
    let lo := ascii_tolower p in
    [lo; lo - 32] ++ (if lo =? 105 then [0x130; 0x131] else [])
    ++ (if lo =? 115 then [0x17F] else []) ++ (if lo =? 107 then [0x212A] else [])
  else [p].

(** [s] contains the substring [p]. *)
Definition occurs (p s : str) : Prop := ∃ a b, s = a ++ p ++ b.

(** At index [i] of [title] stands a storage size with digits [ds]: two
    to four decimal digits, at most one white-space character, then "GB"
    in either case, and after it no word character. *)
Definition storage_at `{Runtime} (title : str) (i : nat) (ds : str) : Prop :=
  ∃ ws g b post, drop i title = ds ++ ws ++ g :: b :: post
    ∧ (2 ≤ length ds ≤ 4)%nat ∧ Forall (λ c, isdecimal c = true) ds
    ∧ (length ws ≤ 1)%nat ∧ Forall (λ c, isspace c = true) ws
    ∧ (g = 71 ∨ g = 103) ∧ (b = 66 ∨ b = 98)
    ∧ match post with c :: _ => is_word c = false | [] => True end.

Ltac den_step :=
  match goal with
  | H : ∃ _, _ |- _ => destruct H
  | H : _ ∧ _ |- _ => destruct H
  | H : ?x = MState _ _ _ |- _ => is_var x; subst x
  | H : MState _ _ _ = ?x |- _ => is_var x; subst x
  | H : ?x = set_group _ _ _ |- _ => is_var x; subst x
  end.
Ltac den_inv := repeat (den_step; cbn [rest seen groups set_group] in * ).

(** ** A runtime and a directory for examples *)

(** A stand-in for [pd.to_datetime(column, errors='coerce')] of
    pandas 2 on the two date forms of the examples.  The format of the
    column is taken from its first text that is not a null word: the
    form [%b %d, %Y] when it is a date written as [strftime] writes it
    ([%B %d, %Y] in May), the form [%Y-%m-%d] likewise, and otherwise
    no format, in which case every text is read on its own.  pandas
    reads many more forms; the examples use none of them. *)
Definition NULL_WORDS : list str :=
  [[]; py "NaT"; py "nat"; py "NAT"; py "nan"; py "NaN"; py "NAN"].

Inductive date_format := ByAbbr | ByName | ByIso | ByElement.

Definition guess_format (col : list str) : date_format :=
  match filter (λ s, s ∉ NULL_WORDS) col with
  | first :: _ =>
      match month_day_year first with
      | Some d =>
          if bool_decide (strftime_mdy d = first)
          then if month d =? 5 then ByName else ByAbbr
          else ByElement
      | None =>
          match year_month_day first with
          | Some d => if bool_decide (strftime_ymd d = first) then ByIso else ByElement
          | None => ByElement
          end
      end
  | [] => ByElement
  end.

Definition read_date (fmt : date_format) (s : str) : option Date :=
  if bool_decide (s ∈ NULL_WORDS) then None
  else match fmt with
       | ByAbbr => month_day_year s
       | ByName =>
           match month_day_year s with
           | Some d => if month d =? 5 then Some d else None
           | None => None
           end
       | ByIso => year_month_day s
       | ByElement =>
           match month_day_year s with
           | Some d => Some d
           | None => year_month_day s
           end
       end.

Definition sample_to_datetime (col : list str) : list (option Date) :=
  read_date (guess_format col) <$> col.

Lemma until_None c s : c ∉ s → until c s = None.
Proof.
  induction s as [|x s IH]; [done|]. intros Hc. apply not_elem_of_cons in Hc as [Hx Hs].
  cbn [until]. destruct (N.eqb_spec x c); [congruence|]. by rewrite IH.
Qed.

Lemma month_day_year_comma s d : month_day_year s = Some d → 44 ∈ s.
Proof.
  intros Hd. destruct (decide (44 ∈ s)) as [|Hno]; [done|].
  unfold month_day_year in Hd. by rewrite until_None in Hd.
Qed.

Lemma year_month_day_letter s :
  starts_with_letter s = true → year_month_day s = None.
Proof.
  destruct s as [|c s]; [done|]. cbn [starts_with_letter]. intros Hc.
  assert (ascii_isdigit c = false) as Hd.
  { unfold ascii_isalpha, ascii_isupper, ascii_islower, ascii_isdigit, in_range in *.
    repeat match goal with
    | |- context [?a <=? ?b] => destruct (N.leb_spec a b)
    | H : context [?a <=? ?b] |- _ => destruct (N.leb_spec a b)
    end; cbn in *; try done; lia. }
  unfold year_month_day. cbn [until].
  destruct (N.eqb_spec c 45) as [->|_]; [by destruct (until 45 s) as [[]|]|].
  destruct (until 45 s) as [[yyyy rest]|]; [|done].
  destruct (until 45 rest) as [[mm dd]|]; [|done].
  destruct ((length (c :: yyyy) =? 4)%nat && (length mm =? 2)%nat && (length dd =? 2)%nat);
    [|done].
  unfold decimal. cbn [decimal_go]. by rewrite Hd.
Qed.

Lemma null_word_no_date s :
  s ∈ NULL_WORDS → month_day_year s = None ∧ year_month_day s = None.
Proof.
  unfold NULL_WORDS. rewrite !elem_of_cons, elem_of_nil.
  intros [->|[->|[->|[->|[->|[->|[->|[]]]]]]]]; by vm_compute.
Qed.

Lemma sample_to_datetime_length col : length (sample_to_datetime col) = length col.
Proof. unfold sample_to_datetime. by rewrite length_fmap. Qed.

Lemma sample_to_datetime_mdy first d0 col :
  month_day_year first = Some d0 → strftime_mdy d0 = first → month d0 ≠ 5 →
  ∀ (i : nat) s, (first :: col) !! i = Some s →
    (∀ d, month_day_year s = Some d →
          sample_to_datetime (first :: col) !! i = Some (Some d))
    ∧ (44 ∉ s → (5 < length s)%nat → sample_to_datetime (first :: col) !! i = Some None).
Proof.
  intros Hfirst Hwrite Hmay i s Hs.
  assert (guess_format (first :: col) = ByAbbr) as Hg.
  { unfold guess_format. rewrite filter_cons.
    rewrite decide_True.
    2:{ intros Hnull%null_word_no_date. destruct Hnull as [Hn _]. congruence. }
    rewrite Hfirst, bool_decide_eq_true_2 by done.
    by destruct (N.eqb_spec (month d0) 5). }
  unfold sample_to_datetime. rewrite Hg, list_lookup_fmap, Hs. cbn [fmap option_fmap option_map].
  unfold read_date. split.
  - intros d Hd. rewrite bool_decide_eq_false_2; [by rewrite Hd|].
    intros Hnull%null_word_no_date. destruct Hnull as [Hn _]. congruence.
  - intros Hno _. case_bool_decide; [done|].
    destruct (month_day_year s) as [d|] eqn:Hd; [|done].
    by apply month_day_year_comma in Hd.
Qed.

Lemma sample_to_datetime_ymd first d0 col :
  year_month_day first = Some d0 → strftime_ymd d0 = first →
  ∀ (i : nat) s, (first :: col) !! i = Some s →
    (∀ d, year_month_day s = Some d →
          sample_to_datetime (first :: col) !! i = Some (Some d))
    ∧ (starts_with_letter s = true → (5 < length s)%nat →
       sample_to_datetime (first :: col) !! i = Some None).
Proof.
  intros Hfirst Hwrite i s Hs.
  assert (guess_format (first :: col) = ByIso) as Hg.
  { unfold guess_format. rewrite filter_cons.
    rewrite decide_True.
    2:{ intros Hnull%null_word_no_date. destruct Hnull as [_ Hn]. congruence. }
    destruct (month_day_year first) as [d|] eqn:Hd.
    - apply month_day_year_comma in Hd. exfalso. revert Hd. rewrite <- Hwrite.
      unfold strftime_ymd. cbn [digits_of app].
      rewrite ?elem_of_app, ?elem_of_cons, ?elem_of_nil.
      intros Hin.
      repeat (destruct Hin as [Hin|Hin];
              [first [done | match type of Hin with _ = 48 + ?x => set x in Hin; lia end]|]).
      done.
    - by rewrite Hfirst, bool_decide_eq_true_2. }
  unfold sample_to_datetime. rewrite Hg, list_lookup_fmap, Hs. cbn [fmap option_fmap option_map].
  unfold read_date. split.
  - intros d Hd. rewrite bool_decide_eq_false_2; [by rewrite Hd|].
    intros Hnull%null_word_no_date. destruct Hnull as [_ Hn]. congruence.
  - intros Hno _. case_bool_decide; [done|].
    by rewrite year_month_day_letter.
Qed.

(** Beyond ASCII its tables know the four letters that IGNORECASE pairs
    with ASCII letters, which is all the examples use. *)
Definition sample_runtime : Runtime := {|
  ext_isalnum := λ c, bool_decide (c ∈ [0x130; 0x131; 0x17F; 0x212A]);
  ext_isdecimal := λ _, false;
  ext_lower := λ c, if c =? 0x130 then [0x69; 0x307] else if c =? 0x212A then [0x6B] else [c];
  ext_upper := λ c, if c =? 0x131 then [0x49] else if c =? 0x17F then [0x53] else [c];
  ext_casefold := λ c, if c =? 0x130 then [0x69; 0x307] else if c =? 0x17F then [0x73]
                       else if c =? 0x212A then [0x6B] else [c];
  ext_ignorecase := λ p c, c =? p;
  to_datetime := sample_to_datetime;
  to_datetime_length := sample_to_datetime_length;
  to_datetime_mdy := sample_to_datetime_mdy;
  to_datetime_ymd := sample_to_datetime_ymd;
|}.

Definition sample_row (title sold : str) : gmap str cell :=
  {[ py "Title" := CStr title; py "Sold Date" := CStr sold ]}.

Definition sample_frame : DataFrame :=
  mkDF [py "Title"; py "Sold Date"]
       [sample_row (py "Google Pixel 9 128GB Excellent") (py "Sold Oct 21, 2025");
        sample_row (py "Pixel 9 Pro case") (py "Sold Oct 2, 2025");
        sample_row (py "Pixel 9 256 GB Good") (py "Sold SomeGarbage")].

(** A file of iPhone listings; its second row mentions two models. *)
Definition iphone_frame : DataFrame :=
  mkDF [py "Title"; py "Sold Date"]
       [sample_row (py "Apple iPhone 14 Pro 128GB") (py "Sold Oct 21, 2025");
        sample_row (py "Case for iPhone 14 Pro and iPhone 15") (py "Sold 2025-10-21");
        sample_row (py "iPhone 14 Pro 256GB Good") (py "Sold SomeGarbage")].

(** A file in which the dates come in two forms. *)
Definition mixed_frame : DataFrame :=
  mkDF [py "Title"; py "Sold Date"]
       [sample_row (py "Google Pixel 9 128GB") (py "Sold 2025-10-21");
        sample_row (py "Google Pixel 9 256GB") (py "Sold Oct 21, 2025")].

Definition sample_world : World :=
  mkWorld {[ py "pixel 9.csv" := sample_frame ]} [].

(** ** Rows, as [clean_and_filter] leaves them *)

Definition title_text (row : gmap str cell) : str :=
  match row !! py "Title" with Some (CStr s) => s | _ => [] end.

(** The frame has a "Title" column and every title is text. *)
Definition titled (df : DataFrame) : Prop :=
  py "Title" ∈ columns df
  ∧ ∀ row, row ∈ rows df → ∃ s, row !! py "Title" = Some (CStr s).

(** The texts of the "Sold Date" column, as [pd.to_datetime] gets them. *)
Definition pixel_sold_texts `{Runtime} (l : list (gmap str cell)) : list str :=
  PixelAll.sold_text <$> (at_col (py "Sold Date") <$> l).
Definition iphone_sold_texts `{Runtime} (l : list (gmap str cell)) : list str :=
  IPhoneAll.sold_text <$> (at_col (py "Sold Date") <$> l).

(** A row of the result; [date] is the date of the row when the frame
    has a "Sold Date" column. *)
Definition pixel_row `{Runtime} (has_sold : bool) (target : str)
    (row : gmap str cell) (date : option Date) : gmap str cell :=
  let title := title_text row in
  let r := <[py "Storage" := CStr (extract_storage title)]> row in
  let r := <[py "Condition" := CStr (extract_condition title)]> r in
  let r := <[py "PartsOnly" := parts_only (CStr title)]> r in
  let r := if has_sold then <[py "Sold Date" := CDate date]> r else r in
  let r := <[py "Model" := model_cell (PixelAll.extract_single_model_or_none title)]> r in
  <[replace (py " ") (py "_") target := CBool true]> r.

Definition iphone_row `{Runtime} (has_sold : bool) (target : str)
    (row : gmap str cell) (date : option Date) : gmap str cell :=
  let title := title_text row in
  let r := <[py "Storage" := CStr (extract_storage title)]> row in
  let r := <[py "Condition" := CStr (extract_condition title)]> r in
  let r := <[py "PartsOnly" := parts_only (CStr title)]> r in
  let r := <[py "Model" := model_cell (IPhoneAll.extract_single_iphone_model_or_none title)]> r in
  let r := if has_sold then <[py "Sold Date" := CDate date]> r else r in
  <[replace (py " ") (py "_") target := CBool true]> r.

(** The rows that have a model, which is what iphone_all_only.py keeps
    before it reads the dates. *)
Definition with_model `{Runtime} (l : list (gmap str cell)) : list (gmap str cell) :=
  filter (λ row, is_Some (IPhoneAll.extract_single_iphone_model_or_none (title_text row))) l.

(** The dates of the rows: what pandas reads in the column of the whole
    frame in pixel_all_only.py, and in the column of the rows with a
    model in iphone_all_only.py. *)
Definition pixel_dates `{Runtime} (df : DataFrame) : list (option Date) :=
  if bool_decide (py "Sold Date" ∈ columns df)
  then to_datetime (pixel_sold_texts (rows df))
  else (λ _, None) <$> rows df.
Definition iphone_dates `{Runtime} (df : DataFrame) : list (option Date) :=
  if bool_decide (py "Sold Date" ∈ columns df)
  then to_datetime (iphone_sold_texts (with_model (rows df)))
  else (λ _, None) <$> with_model (rows df).

(** The date of row [i] of the column. *)
Definition pixel_date `{Runtime} (df : DataFrame) (i : nat) : option Date :=
  mjoin (pixel_dates df !! i).
Definition iphone_date `{Runtime} (df : DataFrame) (i : nat) : option Date :=
  mjoin (iphone_dates df !! i).

(** The first text of the column is a date as [%b %d, %Y] writes it,
    in a month other than May. *)
Definition starts_mdy (texts : list str) : bool :=
  match texts with
  | first :: _ =>
      match month_day_year first with
      | Some d => bool_decide (strftime_mdy d = first) && negb (month d =? 5)
      | None => false
      end
  | [] => false
  end.

(** The first text of the column is a date as [%Y-%m-%d] writes it. *)
Definition starts_ymd (texts : list str) : bool :=
  match texts with
  | first :: _ =>
      match year_month_day first with
      | Some d => bool_decide (strftime_ymd d = first)
      | None => false
      end
  | [] => false
  end.

(** The labels of a frame after [df[c] = ...]. *)
Definition add_col (c : str) (cols : list str) : list str :=
  if bool_decide (c ∈ cols) then cols else cols ++ [c].

(** ** Occurrences of a keyword, in any casing *)

Fixpoint ci_startswith `{Runtime} (kw s : str) : bool :=
  match kw, s with
  | [], _ => true
  | p :: kw', c :: s' => ignorecase_eq p c && ci_startswith kw' s'
  | _ :: _, [] => false
  end.

(** The number of positions of [s] at which [kw] stands. *)
Fixpoint ci_count `{Runtime} (kw s : str) : nat :=
  match s with
  | [] => if ci_startswith kw [] then 1 else 0
  | _ :: s' => (if ci_startswith kw s then 1 else 0) + ci_count kw s'
  end.

(** ** White space, squeezed *)

(** Every run of white space becomes one space: what
    [re.sub(r'\s+', ' ', s)] computes. [in_run] says that the previous
    character was white space. *)
Fixpoint squeeze_go (in_run : bool) (s : str) : str :=
  match s with
  | [] => []
  | c :: s' =>
      if isspace c
      then if in_run then squeeze_go true s' else 32 :: squeeze_go true s'
      else c :: squeeze_go false s'
  end.
Definition squeeze (s : str) : str := squeeze_go false s.

(** ** The tokens a scan can hand to the normaliser *)

(** The number and variant part of [MODEL_RE], the content of its
    group 1. *)
Definition PIXEL_TOKEN : regex :=
  OneOf D19 ~> Rep D09 0 (Some 1%nat)
  ~> Opt (Rep CSpace 0 (Some 1%nat)
          ~> alts [lits (py "Pro"); lits (py "XL"); lits (py "Pro XL"); lits (py "a")]).

(** The same for [IPHONE_MODEL_RE]. *)
Definition IPHONE_TOKEN : regex :=
  OneOf D19 ~> Rep D09 0 (Some 1%nat)
  ~> Opt (Rep CSpace 0 (Some 1%nat)
          ~> alts [lits (py "Pro") ~> Rep CSpace 1 None ~> lits (py "Max");
                   lits (py "Pro"); lits (py "Plus"); lits (py "Mini"); lits (py "Max")]).

(** What [normalize_model_token] does with the squeezed token [t]. *)
Definition pixel_render `{Runtime} (t : str) : option str :=
  match re_match PixelAll.TOKEN_RE t with
  | None => None
  | Some m =>
      let num := default (py "None") (group m 1) in
      let suf := lower (default [] (group m 2)) in
      if bool_decide (suf = []) then Some (py "Pixel " ++ num)
      else if bool_decide (suf = py "pro") then Some (py "Pixel " ++ num ++ py " Pro")
      else if bool_decide (suf = py "xl") then Some (py "Pixel " ++ num ++ py " XL")
      else if bool_decide (suf = py "pro xl") then Some (py "Pixel " ++ num ++ py " Pro XL")
      else if bool_decide (suf = py "a") then Some (py "Pixel " ++ num ++ py "a")
      else None
  end.

(** What [normalize_iphone_token] does with the squeezed token [t]. *)
Definition iphone_render `{Runtime} (t : str) : option str :=
  match re_match IPhoneAll.TOKEN_RE t with
  | None => None
  | Some m =>
      let num := default (py "None") (group m 1) in
      let suf := lower (strip (default [] (group m 2))) in
      if bool_decide (suf = []) then Some (py "iPhone " ++ num)
      else if bool_decide (suf = py "pro max") then Some (py "iPhone " ++ num ++ py " Pro Max")
      else if bool_decide (suf = py "pro") then Some (py "iPhone " ++ num ++ py " Pro")
      else if bool_decide (suf = py "plus") then Some (py "iPhone " ++ num ++ py " Plus")
      else if bool_decide (suf = py "mini") then Some (py "iPhone " ++ num ++ py " Mini")
      else if bool_decide (suf = py "max") then Some (py "iPhone " ++ num ++ py " Max")
      else None
  end.

Definition digits (lo hi : N) : list N :=
  (λ i, lo + N.of_nat i) <$> seq 0 (N.to_nat (hi + 1 - lo)).

(** All strings with one character from each list, in order. *)
Fixpoint choices (alts : list (list N)) : list str :=
  match alts with
  | [] => [[]]
  | a :: more => c ← a; cons c <$> choices more
  end.

(** The variants of a literal apart from the three letters beyond ASCII
    that IGNORECASE gives to [i] and [s]. *)
Definition plain_variants (p : N) : list N :=
  filter (λ c, c ∉ [0x130; 0x131; 0x17F]) (ci_variants p).

(** Neither the first nor the last character is white space. *)
Definition head_ok (s : str) : Prop :=
  match s with c :: _ => isspace c = false | [] => True end.
Definition last_ok (s : str) : Prop :=
  match last s with Some z => isspace z = false | None => True end.

(** One space for a run of white space, nothing for none. *)
Definition gap (ws : str) : str := match ws with [] => [] | _ => [32] end.

(** The squeezed tokens: a number of one or two digits, then nothing or
    an optional space and a variant in some casing. *)
Definition token_forms (variants : N → list N) (suffixes : list str) : list str :=
  d1 ← digits 49 57;
  d2 ← [] :: ((λ d, [d]) <$> digits 48 57);
  tail ← [] :: (sp ← [[]; [32]]; kw ← suffixes;
                suf ← choices (variants <$> kw); [sp ++ suf]);
  [d1 :: d2 ++ tail].

Definition pixel_forms : list str :=
  token_forms ci_variants [py "Pro"; py "XL"; py "Pro XL"; py "a"].

Definition iphone_forms : list str :=
  token_forms plain_variants [py "Pro Max"; py "Pro"; py "Plus"; py "Mini"; py "Max"].

(** ** The choice among the files of a directory *)

(** What every resolver does once it has its file pattern: the first,
    in sorted order, of the [*.csv] names the pattern is found in. *)
Definition pick `{Runtime} (pat : pattern) (directory : list str) : option str :=
  head (sorted (filter (λ name, is_Some (re_search pat name)) (glob_csv directory))).

(** ** Canonical model names *)

(** The numbers [[1-9][0-9]?]: one or two ASCII digits, the first not 0. *)
Definition numbers : list str :=
  d1 ← digits 49 57; d2 ← [] :: ((λ d, [d]) <$> digits 48 57); [d1 :: d2].

(** The names a normaliser builds: the family, a number and one of its
    endings. *)
Definition canonical (family : str) (endings : list str) : list str :=
  num ← numbers; ending ← endings; [family ++ num ++ ending].

Definition PIXEL_ENDINGS : list str := [[]; py " Pro"; py " XL"; py " Pro XL"; py "a"].
Definition IPHONE_ENDINGS : list str :=
  [[]; py " Pro Max"; py " Pro"; py " Plus"; py " Mini"; py " Max"].
Definition ONLY_ENDINGS : list str := [[]; py " Pro"; py " XL"; py "a"].

(** The pattern sets no group. *)
Fixpoint group_free (r : regex) : bool :=
  match r with
  | Group _ _ => false
  | Seq a b | Alt a b => group_free a && group_free b
  | Opt a => group_free a
  | _ => true
  end.

(** A resolver answers, in a directory and for a model name, the least
    of the names it accepts alone. *)
Definition answers_least (find : list str → str → result (option str))
    (dir : list str) (model_name : str) : Prop :=
  (∀ f, find dir model_name = Ok (Some f) →
        f ∈ dir ∧ endswith (py ".csv") f = true ∧ find [f] model_name = Ok (Some f)
        ∧ ∀ g, g ∈ dir → find [g] model_name = Ok (Some g) → str_le f g = true)
  ∧ (find dir model_name = Ok None → ∀ g, g ∈ dir → find [g] model_name = Ok None).

(** ** The export, whatever the family *)

(** The name of the file an export writes. *)
Definition out_name `{Runtime} (model_name : str) : str :=
  replace (py " ") (py "_") (lower model_name) ++ py "_only.csv".

(** [export_model_subset] and [export_iphone_subset] are one text, up
    to the resolver and the cleaner they call. *)
Definition export_with `{Runtime} (find : list str → str → result (option str))
    (clean : DataFrame → str → result DataFrame)
    (directory : str) (model_name : str) (w : World) : result (option str) * World :=
  match find (listing w) model_name with
  | Raise e => (Raise e, w)
  | Ok None =>
      let w := print ([0x274C] ++ py " No CSV found for " ++ model_name
                      ++ py " in " ++ directory) w in
      (Ok None, w)
  | Ok (Some src) =>
      let w := print ([0x1F4C4] ++ py " Using file: " ++ src) w in
      match df ← read_csv src w; clean df model_name with
      | Raise e => (Raise e, w)
      | Ok subset =>
          let w := to_csv (out_name model_name) subset w in
          let w := print ([0x2705] ++ py " " ++ model_name ++ py ": Exported "
                          ++ str_of_nat (length (rows subset)) ++ py " rows -> "
                          ++ out_name model_name) w in
          (Ok (Some (directory ++ py "/" ++ out_name model_name)), w)
      end
  end.

(** Two directories hold the same files apart from the names in [outs]. *)
Definition agree (outs : list str) (fs fs' : gmap str DataFrame) : Prop :=
  ∀ name, name ∉ outs → fs !! name = fs' !! name.

(** ** The models a title mentions

    What section 4.2 of the specification describes, without a regular
    expression: a mention is an optional brand and white space, the
    family keyword, white space, a number of one or two digits and,
    after at most one white-space character, the first variant of the
    family's vocabulary that stands there as a whole word; the title is
    read from the left, a mention is passed over once it is read, and
    each mention is rendered by the family's table. *)

Record Family := mkFamily {
  brand : str;
  keyword : str;
  (** the variants in the order in which they are tried; a variant of
      several words has white space between its words *)
  vocabulary : list (list str);
  (** a "5G" after the mention belongs to it *)
  with_5g : bool;
  (** the ending of the canonical name for each variant in lower case *)
  prefix : str;
  endings : list (str * str);
}.

(** The vocabulary of [PIXEL] has the order of [MODEL_RE] of
    pixel_all_only.py, where "Pro" comes before "Pro XL"; that of
    [IPHONE] the order of [IPHONE_MODEL_RE], where "Pro Max" comes
    first. *)
Definition PIXEL : Family :=
  mkFamily (py "Google") (py "Pixel")
    [[py "Pro"]; [py "XL"]; [py "Pro XL"]; [py "a"]] true
    (py "Pixel ")
    [([], []); (py "pro", py " Pro"); (py "xl", py " XL");
     (py "pro xl", py " Pro XL"); (py "a", py "a")].

Definition IPHONE : Family :=
  mkFamily (py "Apple") (py "iPhone")
    [[py "Pro"; py "Max"]; [py "Pro"]; [py "Plus"]; [py "Mini"]; [py "Max"]] false
    (py "iPhone ")
    [([], []); (py "pro max", py " Pro Max"); (py "pro", py " Pro");
     (py "plus", py " Plus"); (py "mini", py " Mini"); (py "max", py " Max")].

(** A mention: its number, the white space after the number and the
    text of its variant. *)
Record Mention := mkMention { m_number : str; m_gap : str; m_variant : str }.

Definition m_token (m : Mention) : str := m_number m ++ m_gap m ++ m_variant m.

(** The white space at the head of [s], and the text after it. *)
Fixpoint spaces (s : str) : str * str :=
  match s with
  | c :: s' =>
      if isspace c then let '(ws, r) := spaces s' in (c :: ws, r) else ([], s)
  | [] => ([], [])
  end.

Definition spaces1 (s : str) : option (str * str) :=
  match spaces s with
  | ([], _) => None
  | (ws, r) => Some (ws, r)
  end.

Fixpoint lookup_str (key : str) (table : list (str * str)) : option str :=
  match table with
  | [] => None
  | (k, v) :: table' => if bool_decide (key = k) then Some v else lookup_str key table'
  end.

Definition read_number (s : str) : option (str * str) :=
  match s with
  | d1 :: s1 =>
      if in_range 49 57 d1 then
        match s1 with
        | d2 :: s2 => if in_range 48 57 d2 then Some ([d1; d2], s2) else Some ([d1], s1)
        | [] => Some ([d1], [])
        end
      else None
  | [] => None
  end.

Section Mentions.
Context `{Runtime}.

(** The head of [s] that spells [word] in some casing, as IGNORECASE
    compares letters, and the text after it. *)
Fixpoint spelled (word s : str) : option (str * str) :=
  match word, s with
  | [], _ => Some ([], s)
  | p :: word', c :: s' =>
      if ignorecase_eq p c then
        match spelled word' s' with
        | Some (m, r) => Some (c :: m, r)
        | None => None
        end
      else None
  | _ :: _, [] => None
  end.

(** The words of a variant in some casing, with white space between
    them. *)
Fixpoint read_variant (words : list str) (s : str) : option (str * str) :=
  match words with
  | [] => Some ([], s)
  | w :: more =>
      match more with
      | [] => spelled w s
      | _ =>
          match spelled w s with
          | Some (m, s1) =>
              match spaces1 s1 with
              | Some (ws, s2) =>
                  match read_variant more s2 with
                  | Some (m', r) => Some (m ++ ws ++ m', r)
                  | None => None
                  end
              | None => None
              end
          | None => None
          end
      end
  end.

(** [text] ends where a word ends: of its last character and the first
    of [after], one is a word character and the other is not. *)
Definition word_ends (text after : str) : bool :=
  xorb (match last text with Some c => is_word c | None => false end)
       (match after with c :: _ => is_word c | [] => false end).

(** The first variant of the vocabulary that stands at the head of [s]
    and ends a word. *)
Fixpoint first_variant (vocab : list (list str)) (s : str) : option (str * str) :=
  match vocab with
  | [] => None
  | v :: more =>
      match read_variant v s with
      | Some (text, r) => if word_ends text r then Some (text, r) else first_variant more s
      | None => first_variant more s
      end
  end.

(** The number and the variant of a mention: the variant may follow
    the number at once or after one white-space character; without a
    variant the number itself must end a word. *)
Definition read_token (vocab : list (list str)) (s : str) : option (Mention * str) :=
  match read_number s with
  | None => None
  | Some (num, s1) =>
      let '(gap, s2) := match s1 with
                        | c :: r => if isspace c then ([c], r) else ([], s1)
                        | [] => ([], s1)
                        end in
      match first_variant vocab s2 with
      | Some (text, r) => Some (mkMention num gap text, r)
      | None => if word_ends num s1 then Some (mkMention num [] [], s1) else None
      end
  end.

(** The text after white space and "5G", when they stand at the head
    of [s]. *)
Definition skip_5g (s : str) : str :=
  match spelled (py "5G") (spaces s).2 with
  | Some (_, r) => r
  | None => s
  end.

(** A mention from the keyword on. *)
Definition after_keyword (fam : Family) (s : str) : option (Mention * str) :=
  match spelled (keyword fam) s with
  | Some (_, s1) =>
      match spaces1 s1 with
      | Some (_, s2) =>
          match read_token (vocabulary fam) s2 with
          | Some (m, r) => Some (m, if with_5g fam then skip_5g r else r)
          | None => None
          end
      | None => None
      end
  | None => None
  end.

(** The mention that starts at the head of [s], and the text after
    it: with the brand before the keyword when it reads so, without it
    otherwise. *)
Definition read_mention (fam : Family) (s : str) : option (Mention * str) :=
  let branded := match spelled (brand fam) s with
                 | Some (_, s1) =>
                     match spaces1 s1 with
                     | Some (_, s2) => after_keyword fam s2
                     | None => None
                     end
                 | None => None
                 end in
  match branded with
  | Some r => Some r
  | None => after_keyword fam s
  end.

(** The mentions of a title, from the left; [skip] counts the
    characters of a mention still to be passed over. *)
Fixpoint mentions_go (fam : Family) (s : str) (skip : nat) : list Mention :=
  match s with
  | [] => []
  | _ :: s' =>
      match skip with
      | S n => mentions_go fam s' n
      | O =>
          match read_mention fam s with
          | Some (m, r) => m :: mentions_go fam s' (length s' - length r)
          | None => mentions_go fam s' 0
          end
      end
  end.
Definition mentions (fam : Family) (title : str) : list Mention := mentions_go fam title 0.

(** The canonical name of a mention: the family, the number and the
    ending that the table has for the variant in lower case, with one
    space for each run of white space; no name when the table does not
    have the variant. *)
Definition model_of (fam : Family) (m : Mention) : option str :=
  (λ ending, prefix fam ++ m_number m ++ ending)
  <$> lookup_str (lower (squeeze (m_variant m))) (endings fam).

(** The models a title mentions, one for each mention. *)
Definition mentioned_models (fam : Family) (title : str) : list str :=
  omap (model_of fam) (mentions fam title).
End Mentions.

(** ** The scanning patterns, from a family *)

Fixpoint variant_re (words : list str) : regex :=
  match words with
  | [] => Eps
  | w :: more =>
      match more with
      | [] => lits w
      | _ => lits w ~> Rep CSpace 1 None ~> variant_re more
      end
  end.

Definition token_re (vocab : list (list str)) : regex :=
  OneOf D19 ~> Rep D09 0 (Some 1%nat)
  ~> Opt (Rep CSpace 0 (Some 1%nat) ~> alts (variant_re <$> vocab)).

Definition tail_re (fam : Family) : regex :=
  if with_5g fam then WordB ~> Opt (Rep CSpace 0 None ~> lits (py "5G")) else WordB.

Definition mention_re (fam : Family) : regex :=
  Opt (lits (brand fam) ~> Rep CSpace 1 None)
  ~> lits (keyword fam) ~> Rep CSpace 1 None
  ~> Group 1 (token_re (vocabulary fam)) ~> tail_re fam.

(** The normalising patterns, likewise. *)
Definition form_re (vocab : list (list str)) : regex :=
  Bol ~> Group 1 (OneOf D19 ~> Rep D09 0 (Some 1%nat))
  ~> Opt (Rep CSpace 0 (Some 1%nat) ~> Group 2 (alts (variant_re <$> vocab))) ~> Eol.

(** ** The tokens a reading can hand to the normaliser *)

(** The words of a variant with one space between them. *)
Fixpoint join (words : list str) : str :=
  match words with
  | [] => []
  | w :: more =>
      match more with
      | [] => w
      | _ => w ++ [32] ++ join more
      end
  end.

(** A variant whose readings are squeezed word by word: its words are
    ASCII, not empty and, when there are several, without white
    space. *)
Fixpoint tidy (words : list str) : Prop :=
  match words with
  | [] => False
  | w :: more =>
      match more with
      | [] => Forall (λ p, p < 128) w ∧ w ≠ [] ∧ head_ok w ∧ last_ok w
              ∧ squeeze_go false w = w
      | _ => Forall (λ p, p < 128 ∧ isspace p = false) w ∧ w ≠ [] ∧ tidy more
      end
  end.

(** The squeezed tokens, in parts: a number of one or two digits, then
    nothing, or at most one space and a variant in some casing. *)
Definition token_table (vocab : list (list str)) : list (str * str * str) :=
  d1 ← digits 49 57;
  d2 ← [] :: ((λ d, [d]) <$> digits 48 57);
  tail ← ([], []) :: (sp ← [[]; [32]]; v ← vocab;
                      suf ← choices (ci_variants <$> join v); [(sp, suf)]);
  [(d1 :: d2, tail.1, tail.2)].

(** The normalising pattern finds the number and the variant of a
    squeezed token, and the variant has no white space around it. *)
Definition form_ok `{Runtime} (vocab : list (list str)) (e : str * str * str) : bool :=
  match re_match (Pattern (form_re vocab) true) (e.1.1 ++ e.1.2 ++ e.2) with
  | Some mm =>
      bool_decide (group mm 1 = Some e.1.1)
      && bool_decide (default [] (group mm 2) = e.2)
      && bool_decide (strip e.2 = e.2)
  | None => false
  end.

(** ** A reading and a match, side by side *)

Section Sides.
Context `{Runtime}.

(** The variants of a vocabulary are not empty and their words start
    with a letter. *)
Definition good_vocabulary (vocab : list (list str)) : Prop :=
  Forall (λ v, v ≠ [] ∧ Forall (λ w, starts_with_letter w = true) v) vocab.

(** The state in which a match ends, from the state [st'] after the
    number and the variant of a mention that began at [st1]. *)
Definition finish (fam : Family) (st1 st' : mstate) : mstate :=
  let st2 := set_group 1 (span st1 st') st' in
  if with_5g fam then
    match spelled (py "5G") (spaces (rest st2)).2 with
    | Some (m5, r) =>
        MState (reverse m5 ++ reverse (spaces (rest st2)).1 ++ seen st2) r (groups st2)
    | None => st2
    end
  else st2.

(** A family the lemmas apply to. *)
Definition good_family (fam : Family) : Prop :=
  starts_with_letter (keyword fam) = true ∧ good_vocabulary (vocabulary fam).

(** An attempt of the matcher and a reading of the title give the same
    token and stop at the same place. *)
Definition same_reading (x : option mstate) (y : option (Mention * str)) : Prop :=
  match x, y with
  | Some st, Some (m, r) => rest st = r ∧ assoc 1 (groups st) = Some (m_token m)
  | None, None => True
  | _, _ => False
  end.
End Sides.

(** ** The matcher against the relation it decides *)

Section EngineFacts.
Context `{Runtime}.

Lemma rep_greedy_sound ok gs k : ∀ rs lo hi sn x,
  rep_greedy ok lo hi k gs sn rs = Some x →
  ∃ xs rs', rs = xs ++ rs' ∧ (lo ≤ length xs)%nat
    ∧ match hi with Some h => (length xs ≤ h)%nat | None => True end
    ∧ Forall (λ c, ok c = true) xs
    ∧ k (MState (reverse xs ++ sn) rs' gs) = Some x.
Proof.
  assert (Hstop : ∀ rs lo (hi : option nat) sn x,
    match lo with O => k (MState sn rs gs) | S _ => None end = Some x →
    ∃ xs rs', rs = xs ++ rs' ∧ (lo ≤ length xs)%nat
      ∧ match hi with Some h => (length xs ≤ h)%nat | None => True end
      ∧ Forall (λ c, ok c = true) xs
      ∧ k (MState (reverse xs ++ sn) rs' gs) = Some x).
  { intros rs [|lo] hi sn x Hk; [|done].
    exists [], rs. repeat split; simpl; auto; destruct hi; auto with lia. }
  induction rs as [|c rs IH]; intros lo hi sn x; simpl.
  - destruct hi as [[|h]|]; intros Hx;
      [exact (Hstop _ _ (Some 0%nat) _ _ Hx)|exact (Hstop _ _ (Some (S h)) _ _ Hx)
      |exact (Hstop _ _ None _ _ Hx)].
  - destruct hi as [[|h]|]; [intros Hx; exact (Hstop _ _ (Some 0%nat) _ _ Hx)| |].
    + destruct (ok c) eqn:Hc; [|intros Hx; exact (Hstop _ _ (Some (S h)) _ _ Hx)].
      destruct (rep_greedy ok (pred lo) (pred <$> Some (S h)) k gs (c :: sn) rs) eqn:Hr;
        [|intros Hx; exact (Hstop _ _ (Some (S h)) _ _ Hx)].
      intros [= ->]. apply IH in Hr as (xs & rs' & -> & Hlo & Hhi & Hall & Hk).
      exists (c :: xs), rs'. simpl in *. rewrite reverse_cons, <- app_assoc.
      repeat split; auto with lia.
    + destruct (ok c) eqn:Hc; [|intros Hx; exact (Hstop _ _ None _ _ Hx)].
      destruct (rep_greedy ok (pred lo) (pred <$> None) k gs (c :: sn) rs) eqn:Hr;
        [|intros Hx; exact (Hstop _ _ None _ _ Hx)].
      intros [= ->]. apply IH in Hr as (xs & rs' & -> & Hlo & Hhi & Hall & Hk).
      exists (c :: xs), rs'. simpl in *. rewrite reverse_cons, <- app_assoc.
      repeat split; auto with lia.
Qed.

Lemma rep_greedy_complete ok gs k rs' x : ∀ xs lo hi sn,
  (lo ≤ length xs)%nat →
  match hi with Some h => (length xs ≤ h)%nat | None => True end →
  Forall (λ c, ok c = true) xs →
  k (MState (reverse xs ++ sn) rs' gs) = Some x →
  is_Some (rep_greedy ok lo hi k gs sn (xs ++ rs')).
Proof.
  induction xs as [|c xs IH]; intros lo hi sn Hlo Hhi Hall Hk.
  - simpl in *. assert (lo = 0%nat) as -> by lia.
    destruct rs' as [|c rs']; simpl; rewrite Hk.
    + destruct hi as [[|h]|]; done.
    + destruct hi as [[|h]|]; [done| |];
        (destruct (ok c); [|done]; destruct (rep_greedy _ _ _ _ _ _ _); done).
  - apply Forall_cons in Hall as [Hc Hall]. simpl.
    assert (is_Some (rep_greedy ok (pred lo) (pred <$> hi) k gs (c :: sn) (xs ++ rs'))) as [y Hy].
    { apply IH; auto.
      - simpl in Hlo. lia.
      - destruct hi as [h|]; simpl in *; auto with lia.
      - rewrite reverse_cons, <- app_assoc in Hk. exact Hk. }
    rewrite Hc, Hy. destruct hi as [[|h]|]; simpl in *; [lia|done|done].
Qed.

Lemma run_sound_complete ic r :
  (∀ k st x, run ic r k st = Some x → ∃ st', den ic r st st' ∧ k st' = Some x)
  ∧ (∀ k st st' x, den ic r st st' → k st' = Some x → is_Some (run ic r k st)).
Proof.
  induction r as [|p|cs|a [IHa1 IHa2] b [IHb1 IHb2]|a [IHa1 IHa2] b [IHb1 IHb2]
                 |a [IHa1 IHa2]|cs lo hi|n a [IHa1 IHa2]|a [IHa1 IHa2]| | |]; simpl; split.
  - eauto.
  - intros k st st' x -> Hk. eauto.
  - intros k [sn [|c rs] gs] x; simpl; [done|].
    destruct (lit_eq ic p c) eqn:Hc; [|done]. eauto 10.
  - intros k st st' x (c & rs & Hr & Hc & ->) Hk. rewrite Hr, Hc. eauto.
  - intros k [sn [|c rs] gs] x; simpl; [done|].
    destruct (in_cset cs c) eqn:Hc; [|done]. eauto 10.
  - intros k st st' x (c & rs & Hr & Hc & ->) Hk. rewrite Hr, Hc. eauto.
  - intros k st x Hr. apply IHa1 in Hr as (mid & Ha & Hr).
    apply IHb1 in Hr as (st' & Hb & Hk). eauto.
  - intros k st st' x (mid & Ha & Hb) Hk.
    destruct (IHb2 _ _ _ _ Hb Hk) as [y Hy]. eauto.
  - intros k st x. destruct (run ic a k st) eqn:Ha.
    + intros [= ->]. apply IHa1 in Ha as (st' & ? & ?). eauto.
    + intros Hb. apply IHb1 in Hb as (st' & ? & ?). eauto.
  - intros k st st' x [Ha|Hb] Hk.
    + destruct (IHa2 _ _ _ _ Ha Hk) as [y ->]. eauto.
    + destruct (run ic a k st); eauto.
  - intros k st x. destruct (run ic a k st) eqn:Ha.
    + intros [= ->]. apply IHa1 in Ha as (st' & ? & ?). eauto.
    + eauto.
  - intros k st st' x [Ha| ->] Hk.
    + destruct (IHa2 _ _ _ _ Ha Hk) as [y ->]. eauto.
    + destruct (run ic a k st); eauto.
  - intros k [sn rs gs] x Hr; simpl in *.
    apply rep_greedy_sound in Hr as (xs & rs' & -> & ? & ? & ? & Hk).
    eexists; split; [|exact Hk]. exists xs, rs'. auto 10.
  - intros k [sn rs gs] st' x (xs & rs' & Hr & ? & ? & ? & ->) Hk; simpl in *.
    subst. by eapply rep_greedy_complete.
  - intros k st x Hr. apply IHa1 in Hr as (mid & ? & ?). eauto.
  - intros k st st' x (mid & Ha & ->) Hk.
    eapply (IHa2 (λ st', k (set_group n (span st st') st'))); eauto.
  - intros k st x. destruct (run ic a Some st) eqn:Ha; [done|].
    intros Hk. exists st. split; [|done]. split; [done|].
    intros (mid & Hmid). destruct (IHa2 Some _ _ mid Hmid eq_refl) as [y Hy]. congruence.
  - intros k st st' x (-> & Hno) Hk. destruct (run ic a Some st) eqn:Ha; eauto.
    apply IHa1 in Ha as (mid & ? & ?). destruct Hno. eauto.
  - intros k [[|c sn] rs gs] x; simpl; [eauto|done].
  - intros k st st' x (-> & Hs) Hk. rewrite Hs. eauto.
  - intros k [sn [|c [|c' rs]] gs] x; simpl; [eauto| |done].
    destruct (N.eqb_spec c 10) as [->|]; [eauto|done].
  - intros k st st' x (-> & [Hr|Hr]) Hk; rewrite Hr; simpl; eauto.
  - intros k st x. destruct (at_boundary st) eqn:Hb; [eauto|done].
  - intros k st st' x (-> & Hb) Hk. rewrite Hb. eauto.
Qed.

Lemma run_sound ic r k st x :
  run ic r k st = Some x → ∃ st', den ic r st st' ∧ k st' = Some x.
Proof. apply run_sound_complete. Qed.

Lemma run_complete ic r k st st' x :
  den ic r st st' → k st' = Some x → is_Some (run ic r k st).
Proof. apply run_sound_complete. Qed.

(** A match only moves forward in the subject. *)
Lemma den_text ic r : ∀ st st',
  den ic r st st' →
  ∃ mid, rest st = mid ++ rest st' ∧ seen st' = reverse mid ++ seen st.
Proof.
  induction r as [|p|cs|a IHa b IHb|a IHa b IHb|a IHa|cs lo hi|n a IHa|a IHa| | |];
    simpl; intros st st'.
  - intros ->. by exists [].
  - intros (c & rs & Hr & _ & ->). exists [c]. by rewrite Hr.
  - intros (c & rs & Hr & _ & ->). exists [c]. by rewrite Hr.
  - intros (mid & Ha & Hb). apply IHa in Ha as (m1 & Hr1 & Hs1).
    apply IHb in Hb as (m2 & Hr2 & Hs2). exists (m1 ++ m2).
    rewrite Hr1, Hr2, Hs2, Hs1, reverse_app, !app_assoc. done.
  - intros [Ha|Hb]; eauto.
  - intros [Ha| ->]; eauto. by exists [].
  - intros (xs & rs & Hr & _ & _ & _ & ->). exists xs. by rewrite Hr.
  - intros (mid & Ha & ->). apply IHa in Ha as (m1 & Hr1 & Hs1). by exists m1.
  - intros [-> _]. by exists [].
  - intros [-> _]. by exists [].
  - intros [-> _]. by exists [].
  - intros [-> _]. by exists [].
Qed.

Lemma span_app sn gs gs' mid rs rs' :
  span (MState sn rs gs) (MState (reverse mid ++ sn) rs' gs') = mid.
Proof.
  unfold span; simpl. rewrite length_app, length_reverse.
  replace (length mid + length sn - length sn)%nat with (length (reverse mid))
    by (rewrite length_reverse; lia).
  by rewrite take_app_length, reverse_involutive.
Qed.

Lemma accept_Some adv n st st' : accept adv n st = Some st' → st' = st.
Proof. unfold accept. case_match; congruence. Qed.

Lemma attempt_den p adv sn rs st' :
  attempt p adv sn rs = Some st' →
  den (ignorecase p) (rx p) (MState sn rs []) st'.
Proof.
  intros Hr. apply run_sound in Hr as (st'' & Hd & Ha).
  by apply accept_Some in Ha as ->.
Qed.

Lemma den_attempt p sn rs st' :
  den (ignorecase p) (rx p) (MState sn rs []) st' →
  is_Some (attempt p false sn rs).
Proof. intros Hd. eapply run_complete; [exact Hd|done]. Qed.

Lemma search_from_Some p : ∀ rs sn m,
  search_from p sn rs = Some m →
  ∃ a b, rs = a ++ b ∧ m_before m = reverse a ++ sn
    ∧ attempt p false (reverse a ++ sn) b = Some (m_end m)
    ∧ ∀ a1 a2, a = a1 ++ a2 → a2 ≠ [] →
        attempt p false (reverse a1 ++ sn) (a2 ++ b) = None.
Proof.
  induction rs as [|c rs IH]; intros sn m; simpl.
  - destruct (attempt p false sn []) eqn:Ha; [|done]. intros [= <-].
    exists [], []. repeat split; auto. intros [|??] [|??] ? ?; done.
  - destruct (attempt p false sn (c :: rs)) eqn:Ha.
    + intros [= <-]. exists [], (c :: rs). repeat split; auto.
      intros [|??] [|??] ? ?; done.
    + intros Hs. apply IH in Hs as (a & b & -> & Hb & Hat & Hearlier).
      exists (c :: a), b. rewrite reverse_cons, <- !app_assoc. repeat split; auto.
      intros [|c' a1] a2 Ha12 Hne; simpl in *.
      * subst a2. exact Ha.
      * injection Ha12 as <- ->. rewrite reverse_cons, <- !app_assoc.
        by apply Hearlier.
Qed.

Lemma search_from_None p : ∀ rs sn,
  search_from p sn rs = None →
  ∀ a b, rs = a ++ b → attempt p false (reverse a ++ sn) b = None.
Proof.
  induction rs as [|c rs IH]; intros sn; simpl.
  - destruct (attempt p false sn []) eqn:Ha; [done|].
    intros _ [|??] [|??] ?; done.
  - destruct (attempt p false sn (c :: rs)) eqn:Ha; [done|].
    intros Hs [|c' a] b Hab; simpl in *.
    + by subst b.
    + injection Hab as <- ->. rewrite reverse_cons, <- app_assoc. by apply IH.
Qed.
End EngineFacts.

(** ** Characters and literals *)

Section CharFacts.
Context `{Runtime}.

Lemma ignorecase_variants p c :
  p < 128 → ignorecase_eq p c = true ↔ c ∈ ci_variants p.
Proof.
  intros Hp. unfold ignorecase_eq, ci_variants.
  apply N.ltb_lt in Hp as ->.
  destruct (ascii_isalpha p).
  - cbv zeta. generalize (ascii_tolower p); intros lo.
    destruct (N.eqb_spec lo 105), (N.eqb_spec lo 115), (N.eqb_spec lo 107);
      cbn [andb app];
      rewrite ?orb_false_r, ?orb_true_iff, ?N.eqb_eq, ?elem_of_cons, ?elem_of_nil;
      intuition.
  - rewrite N.eqb_eq, elem_of_cons, elem_of_nil. intuition.
Qed.

Lemma ignorecase_G c : ignorecase_eq 71 c = true ↔ c = 71 ∨ c = 103.
Proof.
  rewrite ignorecase_variants by done.
  change (ci_variants 71) with [103; 71]. rewrite !elem_of_cons, elem_of_nil. intuition.
Qed.

Lemma ignorecase_B c : ignorecase_eq 66 c = true ↔ c = 66 ∨ c = 98.
Proof.
  rewrite ignorecase_variants by done.
  change (ci_variants 66) with [98; 66]. rewrite !elem_of_cons, elem_of_nil. intuition.
Qed.

Lemma in_range_spec lo hi c : in_range lo hi c = true ↔ lo ≤ c ≤ hi.
Proof. unfold in_range. rewrite andb_true_iff, !N.leb_le. done. Qed.

Lemma isspace_false_range c : 33 ≤ c ≤ 132 → isspace c = false.
Proof.
  intros Hc. unfold isspace, in_range.
  repeat match goal with
  | |- context [?a <=? ?b] => destruct (N.leb_spec a b); try lia
  | |- context [?a =? ?b] => destruct (N.eqb_spec a b); try lia
  end; done.
Qed.

Lemma ascii_digit_not_space c : ascii_isdigit c = true → isspace c = false.
Proof. intros Hc%in_range_spec. apply isspace_false_range. lia. Qed.

Lemma ascii_digit_decimal c : ascii_isdigit c = true → isdecimal c = true.
Proof.
  intros Hc. unfold isdecimal. rewrite Hc.
  apply in_range_spec in Hc. by destruct (N.ltb_spec c 128); [|lia].
Qed.
End CharFacts.

(** ** [extract_storage] *)

Section Storage.
Context `{Runtime}.

Lemma storage_den sn rs st' :
  den true (rx STORAGE_RE) (MState sn rs []) st' ↔
  ∃ ds ws g b post, rs = ds ++ ws ++ g :: b :: post
    ∧ (2 ≤ length ds ≤ 4)%nat ∧ Forall (λ c, isdecimal c = true) ds
    ∧ (length ws ≤ 1)%nat ∧ Forall (λ c, isspace c = true) ws
    ∧ (g = 71 ∨ g = 103) ∧ (b = 66 ∨ b = 98)
    ∧ match post with c :: _ => is_word c = false | [] => True end
    ∧ st' = MState (b :: g :: reverse ws ++ reverse ds ++ sn) post [(1%nat, ds)].
Proof.
  let r := eval vm_compute in (rx STORAGE_RE) in change (rx STORAGE_RE) with r.
  cbn [den]. split.
  - intros Hd. den_inv. subst.
    match goal with Hb : at_boundary _ = true |- _ => rename Hb into Hbd end.
    match goal with Hg : lit_eq true 71 ?g = true, Hb : lit_eq true 66 ?b = true |- _ =>
      apply ignorecase_G in Hg; apply ignorecase_B in Hb end.
    rewrite span_app.
    do 5 eexists. split; [reflexivity|].
    repeat split; try done; try lia.
    unfold at_boundary in Hbd; cbn [seen rest] in Hbd.
    match goal with |- match ?post with _ => _ end => destruct post as [|c post]; [done|] end.
    match goal with Hb : _ = 66 ∨ _ = 98 |- _ => destruct Hb as [->| ->] end;
      cbn in Hbd; by destruct (is_word c).
  - intros (ds & ws & g & b & post & -> & Hlen & Hds & Hlw & Hws & Hg & Hb & Hpost & ->).
    eexists. split.
    { exists (MState (reverse ds ++ sn) (ws ++ g :: b :: post) []). split.
      - exists ds, (ws ++ g :: b :: post). cbn. repeat split; auto; lia.
      - by rewrite span_app. }
    eexists. split.
    { exists ws, (g :: b :: post). cbn. repeat split; auto; lia. }
    eexists. split.
    { eexists. split.
      - exists g, (b :: post). cbn. split; [done|]. split; [by apply ignorecase_G|done].
      - exists b, post. cbn. split; [done|]. split; [by apply ignorecase_B|done]. }
    split; [done|].
    unfold at_boundary; cbn [seen rest].
    destruct Hb as [->| ->]; cbn; destruct post as [|c post]; cbn; try done;
      by rewrite Hpost.
Qed.

Lemma storage_at_attempt title j ds :
  storage_at title j ds →
  is_Some (attempt STORAGE_RE false (reverse (take j title) ++ []) (drop j title)).
Proof.
  intros (ws & g & b & post & Hdrop & Hrest).
  eapply den_attempt. apply storage_den.
  exists ds, ws, g, b, post. split; [exact Hdrop|].
  destruct Hrest as (? & ? & ? & ? & ? & ? & ?). eauto 10.
Qed.

(** What [extract_storage] answers, in terms of [storage_at] alone. *)
Lemma extract_storage_spec title :
  (∃ i ds, storage_at title i ds
     ∧ (∀ j ds', (j < i)%nat → ¬ storage_at title j ds')
     ∧ extract_storage title = ds ++ py " GB")
  ∨ ((∀ i ds, ¬ storage_at title i ds) ∧ extract_storage title = py "Unknown").
Proof.
  unfold extract_storage, re_search.
  destruct (search_from STORAGE_RE [] title) as [m|] eqn:Hs.
  - left. apply search_from_Some in Hs as (a & b & -> & Hbefore & Hat & Hearlier).
    apply attempt_den, storage_den in Hat
      as (ds & ws & g & c & post & -> & Hlen & Hds & Hlw & Hws & Hg & Hc & Hpost & Hend).
    exists (length a), ds. split; [|split].
    + exists ws, g, c, post. rewrite drop_app_length. auto 10.
    + intros j ds' Hj Hat.
      apply storage_at_attempt in Hat as [st Hst].
      rewrite take_app_le, drop_app_le in Hst by lia.
      rewrite (Hearlier (take j a) (drop j a)) in Hst; [done|by rewrite take_drop|].
      intros Hnil. apply (f_equal length) in Hnil. rewrite length_drop in Hnil.
      simpl in Hnil. lia.
    + unfold group. rewrite Hend. done.
  - right. split; [|done]. intros i ds Hat.
    apply storage_at_attempt in Hat as [st Hst].
    rewrite (search_from_None _ _ _ Hs (take i title) (drop i title)) in Hst; [done|].
    by rewrite take_drop.
Qed.

(** C7: [extract_storage] answers the digits of the leftmost storage
    size of the title followed by " GB", and "Unknown" when the title
    has none; "Apple iPhone 13 128GB Unlocked" gives "128 GB". *)
Theorem C7_extract_storage_first_match :
  (∀ title,
    (∃ i ds, storage_at title i ds
       ∧ (∀ j ds', (j < i)%nat → ¬ storage_at title j ds')
       ∧ extract_storage title = ds ++ py " GB")
    ∨ ((∀ i ds, ¬ storage_at title i ds) ∧ extract_storage title = py "Unknown"))
  ∧ extract_storage (py "Apple iPhone 13 128GB Unlocked") = py "128 GB".
Proof. split; [apply extract_storage_spec|by vm_compute]. Qed.

(** A run of ASCII digits, at least four long, that meets a storage
    size: the size takes the whole run, which then has four digits. *)
Lemma digits_before_GB (run ds ws : str) (g g' b b' : N) (post post' : str) :
  run ++ g :: b :: post = ds ++ ws ++ g' :: b' :: post' →
  Forall (λ c, ascii_isdigit c = true) run → (4 ≤ length run)%nat →
  (length ds ≤ 4)%nat →
  Forall (λ c, isspace c = true) ws → (g' = 71 ∨ g' = 103) →
  ds = run.
Proof.
  intros Heq Hrun Hlen Hds Hws Hg'.
  assert (Hds' : ds = take (length ds) run).
  { apply (f_equal (take (length ds))) in Heq.
    rewrite take_app_le, take_app_length in Heq by lia. done. }
  apply (f_equal (drop (length ds))) in Heq.
  rewrite drop_app_le, drop_app_length in Heq by lia.
  destruct (drop (length ds) run) as [|d tl] eqn:Hdrop.
  - rewrite <- (take_drop (length ds) run), Hdrop, app_nil_r. done.
  - exfalso.
    assert (Hd : ascii_isdigit d = true).
    { rewrite Forall_forall in Hrun. apply Hrun.
      rewrite <- (take_drop (length ds) run), Hdrop. apply elem_of_app. right. by left. }
    destruct ws as [|w ws]; simpl in Heq.
    + injection Heq as -> _. by destruct Hg' as [->| ->].
    + injection Heq as -> _. apply Forall_cons in Hws as [Hw _].
      apply ascii_digit_not_space in Hd. congruence.
Qed.

(** C10, as amended: a run of five or more ASCII digits followed by
    "GB" at a word boundary, with no storage size starting before the
    run, gives the last four digits of the run. *)
Theorem C10_long_digit_run (pre run : str) (g b : N) (post : str) :
  (5 ≤ length run)%nat →
  Forall (λ c, ascii_isdigit c = true) run →
  (g = 71 ∨ g = 103) → (b = 66 ∨ b = 98) →
  match post with c :: _ => is_word c = false | [] => True end →
  (∀ j ds, (j < length pre)%nat → ¬ storage_at (pre ++ run ++ g :: b :: post) j ds) →
  extract_storage (pre ++ run ++ g :: b :: post)
  = drop (length run - 4) run ++ py " GB".
Proof.
  intros Hlen Hrun Hg Hb Hpost Hpre.
  set (title := pre ++ run ++ g :: b :: post) in *.
  set (i0 := (length pre + (length run - 4))%nat).
  assert (Hdrop : ∀ k, (k ≤ length run)%nat →
            drop (length pre + k) title = drop k run ++ g :: b :: post).
  { intros k Hk. unfold title.
    rewrite drop_app_ge, drop_app_le by lia. f_equal. f_equal. lia. }
  assert (H0 : storage_at title i0 (drop (length run - 4) run)).
  { exists [], g, b, post. unfold i0. rewrite Hdrop by lia.
    split; [done|]. rewrite length_drop.
    repeat split; auto; try lia; try (by constructor).
    apply Forall_drop. eapply Forall_impl; [exact Hrun|].
    intros c. apply ascii_digit_decimal. }
  destruct (extract_storage_spec title)
    as [(i & ds & Hat & Hleft & ->)|[Hnone _]]; [|by destruct (Hnone _ _ H0)].
  f_equal.
  assert (Hi : (length pre ≤ i ≤ i0)%nat).
  { split.
    - destruct (decide (i < length pre)%nat) as [Hlt|]; [|lia].
      by destruct (Hpre _ _ Hlt Hat).
    - destruct (decide (i0 < i)%nat) as [Hlt|]; [|lia].
      by destruct (Hleft _ _ Hlt H0). }
  destruct Hat as (ws & g' & b' & post' & Hd & Hl & _ & _ & Hws & Hg' & _).
  replace i with (length pre + (i - length pre))%nat in Hd by lia.
  unfold i0 in Hi. rewrite Hdrop in Hd by lia.
  assert (Heq : ds = drop (i - length pre) run).
  { eapply digits_before_GB; [exact Hd| | | |exact Hws|exact Hg'].
    - by apply Forall_drop.
    - rewrite length_drop. lia.
    - lia. }
  assert (Hk : (i - length pre = length run - 4)%nat).
  { apply (f_equal length) in Heq. rewrite length_drop in Heq. lia. }
  by rewrite Heq, Hk.
Qed.
End Storage.

(** ** [extract_condition] and the choice of a single model *)

Lemma startswith_spec p : ∀ s, startswith p s = true ↔ ∃ b, s = p ++ b.
Proof.
  induction p as [|a p IH]; intros [|c s]; simpl.
  - split; [by exists []|done].
  - split; [by exists (c :: s)|done].
  - split; [done|]. by intros [b ?].
  - rewrite andb_true_iff, N.eqb_eq, IH. split.
    + intros [-> [b ->]]. by exists b.
    + intros [b [= -> ->]]. eauto.
Qed.

Lemma contains_spec p : ∀ s, contains p s = true ↔ occurs p s.
Proof.
  induction s as [|c s IH].
  - cbn [contains]. rewrite orb_false_r, startswith_spec. split.
    + intros [b ->]. by exists [], b.
    + intros ([|??] & b & Hs); [by exists b|discriminate].
  - cbn [contains]. rewrite orb_true_iff, startswith_spec, IH. split.
    + intros [[b ->]|(a & b & ->)]; [by exists [], b|by exists (c :: a), b].
    + intros ([|c' a] & b & Hs); [left; by exists b|right].
      injection Hs as -> ->. by exists a, b.
Qed.

Lemma contains_false p s : contains p s = false ↔ ¬ occurs p s.
Proof. rewrite <- contains_spec. by destruct (contains p s). Qed.

(** C6: [extract_condition] follows the chain Excellent, Very, Good,
    Unknown on exact (case-sensitive) substrings; a title with both
    "Excellent" and "Good" gives "Excellent". *)
Theorem C6_extract_condition_priority title :
  (occurs (py "Excellent") title → extract_condition title = py "Excellent")
  ∧ (¬ occurs (py "Excellent") title → occurs (py "Very") title →
       extract_condition title = py "Very Good")
  ∧ (¬ occurs (py "Excellent") title → ¬ occurs (py "Very") title →
       occurs (py "Good") title → extract_condition title = py "Good")
  ∧ (¬ occurs (py "Excellent") title → ¬ occurs (py "Very") title →
       ¬ occurs (py "Good") title → extract_condition title = py "Unknown")
  ∧ (occurs (py "Excellent") title → occurs (py "Good") title →
       extract_condition title = py "Excellent").
Proof.
  unfold extract_condition.
  repeat split; intros;
    repeat match goal with
    | Hx : occurs _ _ |- _ => apply contains_spec in Hx; rewrite Hx
    | Hx : ¬ occurs _ _ |- _ => apply contains_false in Hx; rewrite Hx
    end; done.
Qed.

(** [list(dict.fromkeys(l))] *)
Lemma fromkeys_go_spec l : ∀ seen,
  NoDup (fromkeys_go seen l)
  ∧ ∀ x, x ∈ fromkeys_go seen l ↔ x ∈ l ∧ x ∉ seen.
Proof.
  induction l as [|y l IH]; intros seen; simpl.
  - split; [constructor|]. intros x. rewrite elem_of_nil. tauto.
  - case_bool_decide as Hy.
    + destruct (IH seen) as [Hnd Hin]. split; [done|].
      intros x. rewrite Hin, elem_of_cons. split; [tauto|].
      intros [[->|?] ?]; tauto.
    + destruct (IH (y :: seen)) as [Hnd Hin]. split.
      * constructor; [|done]. rewrite Hin, elem_of_cons. tauto.
      * intros x. rewrite !elem_of_cons, Hin, elem_of_cons.
        destruct (decide (x = y)) as [->|]; tauto.
Qed.

Lemma fromkeys_NoDup l : NoDup (fromkeys l).
Proof. apply fromkeys_go_spec. Qed.
Lemma elem_of_fromkeys l x : x ∈ fromkeys l ↔ x ∈ l.
Proof.
  unfold fromkeys. rewrite (proj2 (fromkeys_go_spec l [])), elem_of_nil. tauto.
Qed.

Lemma single_one models m :
  m ∈ models → (∀ x, x ∈ models → x = m) → single models = Some m.
Proof.
  intros Hm Hall. unfold single.
  pose proof (fromkeys_NoDup models) as Hnd.
  assert (Hin : ∀ x, x ∈ fromkeys models ↔ x = m).
  { intros x. rewrite elem_of_fromkeys. split; [auto|by intros ->]. }
  destruct (fromkeys models) as [|a [|b l]].
  - exfalso. eapply elem_of_nil, Hin; done.
  - f_equal. apply Hin. by left.
  - exfalso. assert (a = m) as -> by (apply Hin; by left).
    assert (b = m) as -> by (apply Hin; right; by left).
    apply NoDup_cons in Hnd as [Hnot _]. apply Hnot. by left.
Qed.

Lemma single_none models : (∀ x, x ∉ models) → single models = None.
Proof.
  intros Hno. unfold single.
  destruct (fromkeys models) as [|a l] eqn:Hf; [done|].
  exfalso. apply (Hno a), elem_of_fromkeys. rewrite Hf. by left.
Qed.

Lemma single_many models a b :
  a ∈ models → b ∈ models → a ≠ b → single models = None.
Proof.
  intros Ha Hb Hab. unfold single.
  apply elem_of_fromkeys in Ha, Hb.
  destruct (fromkeys models) as [|x [|y l]]; [done| |done].
  apply list_elem_of_singleton in Ha, Hb. congruence.
Qed.

(** ** The export loop *)

Lemma for_each_app body l1 l2 w :
  for_each body (l1 ++ l2) w =
  match for_each body l1 w with
  | (Ok _, w') => for_each body l2 w'
  | (Raise e, w') => (Raise e, w')
  end.
Proof.
  revert w. induction l1 as [|m l1 IH]; intros w; simpl; [done|].
  destruct (body m w) as [[o|e] w']; [apply IH|done].
Qed.

Section Loop.
Context `{Runtime}.

(** C5: when the resolver finds no source file, the export prints its
    message, answers [None], leaves the files as they are, and the loop
    goes on with the models that remain; in both scripts. *)
Theorem C5_missing_source_is_skipped (w : World) (model_name : str) (rest : list str) :
  (PixelAll.find_csv_for_model (listing w) model_name = Ok None →
     let w' := print ([0x274C] ++ py " No CSV found for " ++ model_name
                      ++ py " in " ++ PixelAll.DATA_DIR) w in
     PixelAll.export_model_subset PixelAll.DATA_DIR model_name w = (Ok None, w')
     ∧ files w' = files w
     ∧ PixelAll.run (model_name :: rest) w = PixelAll.run rest w')
  ∧ (IPhoneAll.find_csv_for_iphone (listing w) model_name = Ok None →
     let w' := print ([0x274C] ++ py " No CSV found for " ++ model_name
                      ++ py " in " ++ IPhoneAll.IPHONE_DIR) w in
     IPhoneAll.export_iphone_subset IPhoneAll.IPHONE_DIR model_name w = (Ok None, w')
     ∧ files w' = files w
     ∧ IPhoneAll.run (model_name :: rest) w = IPhoneAll.run rest w').
Proof.
  split; intros Hfind; cbv zeta.
  - assert (He : PixelAll.export_model_subset PixelAll.DATA_DIR model_name w
                 = (Ok None, print ([0x274C] ++ py " No CSV found for " ++ model_name
                                    ++ py " in " ++ PixelAll.DATA_DIR) w)).
    { unfold PixelAll.export_model_subset. by rewrite Hfind. }
    repeat split; [exact He|].
    unfold PixelAll.run. cbn [for_each]. by rewrite He.
  - assert (He : IPhoneAll.export_iphone_subset IPhoneAll.IPHONE_DIR model_name w
                 = (Ok None, print ([0x274C] ++ py " No CSV found for " ++ model_name
                                    ++ py " in " ++ IPhoneAll.IPHONE_DIR) w)).
    { unfold IPhoneAll.export_iphone_subset. by rewrite Hfind. }
    repeat split; [exact He|].
    unfold IPhoneAll.run. cbn [for_each]. by rewrite He.
Qed.

(** C4, as amended: a name the resolver's grammar does not accept makes
    it raise [ValueError "Model name not recognized: <name>"]; nothing
    catches the exception, so the loop ends there: the models before
    it have been processed, those after it are not. *)
Theorem C4_unrecognized_name_ends_the_run
    (w : World) (before : list str) (bad : str) (rest : list str) :
  (re_match PixelAll.NAME_RE bad = None →
     let e := ValueError (py "Model name not recognized: " ++ bad) in
     PixelAll.find_csv_for_model (listing w) bad = Raise e
     ∧ PixelAll.run (bad :: rest) w = (Raise e, w)
     ∧ ∀ w', PixelAll.run before w = (Ok (), w') →
             PixelAll.run (before ++ bad :: rest) w = (Raise e, w'))
  ∧ (re_match IPhoneAll.NAME_RE bad = None →
     let e := ValueError (py "Model name not recognized: " ++ bad) in
     IPhoneAll.find_csv_for_iphone (listing w) bad = Raise e
     ∧ IPhoneAll.run (bad :: rest) w = (Raise e, w)
     ∧ ∀ w', IPhoneAll.run before w = (Ok (), w') →
             IPhoneAll.run (before ++ bad :: rest) w = (Raise e, w')).
Proof.
  split; intros Hbad; cbv zeta.
  - assert (Hf : ∀ dir, PixelAll.find_csv_for_model dir bad
                        = Raise (ValueError (py "Model name not recognized: " ++ bad))).
    { intros dir. unfold PixelAll.find_csv_for_model. by rewrite Hbad. }
    assert (Hr : ∀ w0, PixelAll.run (bad :: rest) w0
                       = (Raise (ValueError (py "Model name not recognized: " ++ bad)), w0)).
    { intros w0. unfold PixelAll.run. cbn [for_each].
      unfold PixelAll.export_model_subset. by rewrite Hf. }
    repeat split; [apply Hf|apply Hr|].
    intros w' Hbefore. unfold PixelAll.run in *. rewrite for_each_app, Hbefore. apply Hr.
  - assert (Hf : ∀ dir, IPhoneAll.find_csv_for_iphone dir bad
                        = Raise (ValueError (py "Model name not recognized: " ++ bad))).
    { intros dir. unfold IPhoneAll.find_csv_for_iphone. by rewrite Hbad. }
    assert (Hr : ∀ w0, IPhoneAll.run (bad :: rest) w0
                       = (Raise (ValueError (py "Model name not recognized: " ++ bad)), w0)).
    { intros w0. unfold IPhoneAll.run. cbn [for_each].
      unfold IPhoneAll.export_iphone_subset. by rewrite Hf. }
    repeat split; [apply Hf|apply Hr|].
    intros w' Hbefore. unfold IPhoneAll.run in *. rewrite for_each_app, Hbefore. apply Hr.
Qed.
End Loop.

(** ** [clean_and_filter], row by row *)

Section Frames.
Context {R : Type}.
Implicit Types (l : list R) (F : R → gmap str cell).

Lemma get_column_fmap cols F l c :
  c ∈ cols → get_column (mkDF cols (F <$> l)) c = Ok ((λ r, at_col c (F r)) <$> l).
Proof.
  intros Hc. unfold get_column; cbn [columns rows].
  rewrite bool_decide_eq_true_2 by done. by rewrite <- list_fmap_compose.
Qed.

Lemma apply_str_fmap {A} (f : str → A) (g : R → cell) (t : R → str) l :
  (∀ r, r ∈ l → g r = CStr (t r)) →
  apply_str f (g <$> l) = Ok ((λ r, f (t r)) <$> l).
Proof.
  unfold apply_str. induction l as [|r l IH]; intros Hg; [done|].
  cbn. rewrite (Hg r) by (by left). cbn.
  rewrite IH by (intros; apply Hg; by right). done.
Qed.

Lemma zip_with_fmap_same {A B C} (f : A → B → C) (g : R → A) (h : R → B) l :
  zip_with f (g <$> l) (h <$> l) = (λ r, f (g r) (h r)) <$> l.
Proof. induction l; cbn; by f_equal. Qed.

Lemma set_column_fmap cols F (G : R → cell) l c :
  set_column (mkDF cols (F <$> l)) c (G <$> l)
  = mkDF (add_col c cols) ((λ r, <[c := G r]> (F r)) <$> l).
Proof. unfold set_column; cbn [columns rows]. by rewrite zip_with_fmap_same. Qed.

Lemma select_fmap {A} (g : R → A) (P : R → bool) l :
  select (g <$> l) (P <$> l) = g <$> filter (λ r, Is_true (P r)) l.
Proof.
  induction l as [|r l IH]; [done|]. rewrite filter_cons, !fmap_cons. cbn [select].
  destruct (P r); cbn [Is_true]; case_decide; try tauto; rewrite ?fmap_cons, IH; done.
Qed.

Lemma mask_rows_fmap cols F (P : R → bool) l :
  mask_rows (mkDF cols (F <$> l)) (P <$> l)
  = mkDF cols (F <$> filter (λ r, Is_true (P r)) l).
Proof. unfold mask_rows; cbn [columns rows]. by rewrite select_fmap. Qed.

Lemma fmap_filter_twice (P1 P2 Q : R → Prop)
    `{∀ r, Decision (P1 r), ∀ r, Decision (P2 r), ∀ r, Decision (Q r)} F (G : R → gmap str cell) l :
  (∀ r, r ∈ l → P1 r ∧ P2 r ↔ Q r) →
  (∀ r, r ∈ l → Q r → F r = G r) →
  F <$> filter P2 (filter P1 l) = G <$> filter Q l.
Proof.
  induction l as [|r l IH]; intros HQ HF; [done|].
  assert (IH' : F <$> filter P2 (filter P1 l) = G <$> filter Q l).
  { apply IH; intros; [apply HQ|apply HF]; by try right. }
  specialize (HQ r ltac:(by left)). specialize (HF r ltac:(by left)).
  rewrite !filter_cons.
  destruct (decide (P1 r)), (decide (Q r)); rewrite ?filter_cons;
    try destruct (decide (P2 r)); rewrite ?fmap_cons, ?IH'; try tauto; try done.
  by rewrite HF.
Qed.

Lemma fmap_filter_one (P Q : R → Prop)
    `{∀ r, Decision (P r), ∀ r, Decision (Q r)} F (G : R → gmap str cell) l :
  (∀ r, r ∈ l → P r ↔ Q r) →
  (∀ r, r ∈ l → Q r → F r = G r) →
  F <$> filter P l = G <$> filter Q l.
Proof.
  induction l as [|r l IH]; intros HQ HF; [done|].
  assert (IH' : F <$> filter P l = G <$> filter Q l).
  { apply IH; intros; [apply HQ|apply HF]; by try right. }
  specialize (HQ r ltac:(by left)). specialize (HF r ltac:(by left)).
  rewrite !filter_cons.
  destruct (decide (P r)), (decide (Q r)); rewrite ?fmap_cons, ?IH'; try tauto; try done.
  by rewrite HF.
Qed.

Lemma filter_iff_in (P Q : R → Prop) `{∀ r, Decision (P r), ∀ r, Decision (Q r)} l :
  (∀ r, r ∈ l → P r ↔ Q r) → filter P l = filter Q l.
Proof.
  intros HPQ. rewrite <- (list_fmap_id (filter P l)), <- (list_fmap_id (filter Q l)).
  induction l as [|r l IH]; [done|].
  rewrite !filter_cons.
  pose proof (HPQ r ltac:(by left)).
  assert (id <$> filter P l = id <$> filter Q l) as IH' by (apply IH; intros; apply HPQ; by right).
  destruct (decide (P r)), (decide (Q r)); rewrite ?fmap_cons, ?IH'; tauto || done.
Qed.
End Frames.

Lemma elem_of_add_col_same c cols : c ∈ add_col c cols.
Proof.
  unfold add_col. case_bool_decide; [done|]. apply elem_of_app. right. by left.
Qed.

Lemma elem_of_add_col_mono x c cols : x ∈ cols → x ∈ add_col c cols.
Proof. unfold add_col. case_bool_decide; [done|]. intros. apply elem_of_app. by left. Qed.

Lemma elem_of_add_col_ne x c cols : x ≠ c → x ∈ add_col c cols ↔ x ∈ cols.
Proof.
  intros Hne. unfold add_col. case_bool_decide; [done|].
  rewrite elem_of_app, list_elem_of_singleton. tauto.
Qed.

Lemma at_col_insert_ne (c k : str) (v : cell) (m : gmap str cell) :
  k ≠ c → at_col c (<[k := v]> m) = at_col c m.
Proof. intros. unfold at_col. by rewrite lookup_insert_ne. Qed.

Lemma at_col_insert (c : str) (v : cell) (m : gmap str cell) :
  at_col c (<[c := v]> m) = v.
Proof. unfold at_col. by rewrite lookup_insert_eq. Qed.

Lemma at_col_title (row : gmap str cell) :
  (∃ s, row !! py "Title" = Some (CStr s)) →
  at_col (py "Title") row = CStr (title_text row).
Proof. intros [s Hs]. unfold at_col, title_text. by rewrite Hs. Qed.

(** [s.replace(' ', '_')] leaves no space. *)
Lemma replace_go_no_space : ∀ s skip, 32 ∉ replace_go [32] [95] s skip.
Proof.
  induction s as [|c s IH]; intros skip; cbn [replace_go]; [apply not_elem_of_nil|].
  destruct skip as [|n]; [|apply IH].
  cbn [startswith]. destruct (N.eqb_spec 32 c) as [<-|Hc]; cbn [andb].
  - cbn. rewrite not_elem_of_cons. split; [done|apply IH].
  - rewrite not_elem_of_cons. split; [done|apply IH].
Qed.

Lemma flag_col_ne_sold target : replace (py " ") (py "_") target ≠ py "Sold Date".
Proof.
  intros Heq. apply (replace_go_no_space target 0).
  change (32 ∈ replace (py " ") (py "_") target). rewrite Heq.
  apply (bool_decide_unpack _). by vm_compute.
Qed.
(** ** [clean_and_filter_for_model] and [clean_and_filter_for_iphone] *)

Ltac py_ne := let E := fresh in intros E; vm_compute in E; discriminate E.

Ltac in_cols :=
  repeat first [apply elem_of_add_col_same | apply elem_of_add_col_mono]; assumption.

Lemma sold_in_add_col c cs :
  c ≠ py "Sold Date" →
  bool_decide (py "Sold Date" ∈ add_col c cs) = bool_decide (py "Sold Date" ∈ cs).
Proof. intros Hc. apply bool_decide_ext, elem_of_add_col_ne. congruence. Qed.

Lemma apply_str_title {R A} (f : str → A) (t F : R → gmap str cell) (l : list R) :
  (∀ r, r ∈ l → ∃ s, t r !! py "Title" = Some (CStr s)) →
  (∀ r, at_col (py "Title") (F r) = at_col (py "Title") (t r)) →
  apply_str f ((λ r, at_col (py "Title") (F r)) <$> l)
  = Ok ((λ r, f (title_text (t r))) <$> l).
Proof.
  intros Hrows HF. apply apply_str_fmap. intros r Hr. rewrite HF. by apply at_col_title, Hrows.
Qed.

Ltac frames Hrows :=
  cbn [mbind result_bind columns rows];
  repeat (first
    [ rewrite get_column_fmap by in_cols
    | rewrite (apply_str_title _ _ _ _ Hrows)
        by (intros; rewrite ?at_col_insert_ne by py_ne; done)
    | rewrite <- list_fmap_compose
    | rewrite set_column_fmap
    | rewrite mask_rows_fmap
    | rewrite sold_in_add_col by py_ne ]; cbn [mbind result_bind columns rows]).

Section Clean.
Context `{Runtime}.

Lemma pixel_dates_length df : length (pixel_dates df) = length (rows df).
Proof.
  unfold pixel_dates, pixel_sold_texts. case_bool_decide.
  - by rewrite to_datetime_length, !length_fmap.
  - by rewrite length_fmap.
Qed.

Lemma iphone_dates_length df : length (iphone_dates df) = length (with_model (rows df)).
Proof.
  unfold iphone_dates, iphone_sold_texts. case_bool_decide.
  - by rewrite to_datetime_length, !length_fmap.
  - by rewrite length_fmap.
Qed.

Lemma pixel_clean_spec df target :
  titled df →
  ∃ cols, PixelAll.clean_and_filter_for_model df target
    = Ok (mkDF cols
            ((λ p, pixel_row (bool_decide (py "Sold Date" ∈ columns df)) target p.1 p.2)
             <$> filter (λ p, PixelAll.extract_single_model_or_none (title_text p.1)
                              = Some target)
                        (zip (rows df) (pixel_dates df)))).
Proof.
  destruct df as [cols l]. intros [Hcol Hrows]; cbn [columns rows] in *.
  pose proof (pixel_dates_length (mkDF cols l)) as Hlen; cbn [rows] in Hlen.
  remember (pixel_dates (mkDF cols l)) as dates eqn:Hdates.
  assert (Hfst : fst <$> zip l dates = l) by (apply fst_zip; lia).
  assert (Hrows' : ∀ p, p ∈ zip l dates → ∃ s, p.1 !! py "Title" = Some (CStr s)).
  { intros [r d] Hp. apply Hrows. by eapply elem_of_zip_l. }
  unfold PixelAll.clean_and_filter_for_model. cbv zeta.
  replace (mkDF cols l) with (mkDF cols (fst <$> zip l dates)) by (by rewrite Hfst).
  frames Hrows'.
  case_bool_decide as Hsold.
  - frames Hrows'.
    match goal with |- context [to_datetime ?x] =>
      replace (to_datetime x) with (snd <$> zip l dates) end.
    2:{ rewrite snd_zip by lia. etrans; [exact Hdates|]. unfold pixel_dates; cbn [columns rows].
        rewrite bool_decide_eq_true_2 by done. f_equal. unfold pixel_sold_texts.
        rewrite <- Hfst at 1. rewrite <- !list_fmap_compose. apply list_fmap_ext.
        intros i p _. unfold compose. by rewrite !at_col_insert_ne by py_ne. }
    frames Hrows'.
    eexists; f_equal; f_equal.
    apply (fmap_filter_twice _ _
             (λ p, PixelAll.extract_single_model_or_none (title_text p.1) = Some target)).
    + intros r Hr; unfold compose; rewrite !at_col_insert.
      destruct (PixelAll.extract_single_model_or_none (title_text r.1)) as [m|];
        cbn [model_cell notna eq_str is_true Is_true]; [|naive_solver].
      case_bool_decide; cbn [Is_true]; naive_solver.
    + intros r Hr HQ; unfold compose, pixel_row; cbv zeta.
      rewrite !at_col_insert, ?at_col_insert_ne by py_ne.
      rewrite (at_col_title r.1) by (by apply Hrows').
      rewrite HQ; cbn [model_cell eq_str].
      rewrite bool_decide_eq_true_2 by done; done.
  - frames Hrows'.
    eexists; f_equal; f_equal.
    apply (fmap_filter_twice _ _
             (λ p, PixelAll.extract_single_model_or_none (title_text p.1) = Some target)).
    + intros r Hr; unfold compose; rewrite !at_col_insert.
      destruct (PixelAll.extract_single_model_or_none (title_text r.1)) as [m|];
        cbn [model_cell notna eq_str is_true Is_true]; [|naive_solver].
      case_bool_decide; cbn [Is_true]; naive_solver.
    + intros r Hr HQ; unfold compose, pixel_row; cbv zeta.
      rewrite !at_col_insert, ?at_col_insert_ne by py_ne.
      rewrite (at_col_title r.1) by (by apply Hrows').
      rewrite HQ; cbn [model_cell eq_str].
      rewrite bool_decide_eq_true_2 by done; done.
Qed.

Lemma iphone_clean_spec df target :
  titled df →
  ∃ cols, IPhoneAll.clean_and_filter_for_iphone df target
    = Ok (mkDF cols
            ((λ p, iphone_row (bool_decide (py "Sold Date" ∈ columns df)) target p.1 p.2)
             <$> filter (λ p, Is_true (IPhoneAll.eq_casefold target
                           (model_cell (IPhoneAll.extract_single_iphone_model_or_none
                                          (title_text p.1)))))
                        (zip (with_model (rows df)) (iphone_dates df)))).
Proof.
  destruct df as [cols l]. intros [Hcol Hrows]; cbn [columns rows] in *.
  pose proof (iphone_dates_length (mkDF cols l)) as Hlen; cbn [rows] in Hlen.
  remember (iphone_dates (mkDF cols l)) as dates eqn:Hdates.
  assert (Hfst : fst <$> zip (with_model l) dates = with_model l) by (apply fst_zip; lia).
  assert (Hrows' : ∀ p, p ∈ zip (with_model l) dates
                        → ∃ s, p.1 !! py "Title" = Some (CStr s)).
  { intros [r d] Hp. apply Hrows.
    apply elem_of_zip_l in Hp. by apply list_elem_of_filter in Hp as [_ ?]. }
  unfold IPhoneAll.clean_and_filter_for_iphone. cbv zeta.
  replace (mkDF cols l) with (mkDF cols (id <$> l)) by (by rewrite list_fmap_id).
  frames Hrows.
  match goal with |- context [filter ?P l] =>
    replace (filter P l) with (fst <$> zip (with_model l) dates) end.
  2:{ rewrite Hfst. apply filter_iff_in. intros r Hr. unfold compose.
      rewrite at_col_insert.
      destruct (IPhoneAll.extract_single_iphone_model_or_none (title_text r)) as [m|];
        cbn [model_cell notna Is_true]; [|split; [by intros []|done]].
      split; [done|by eauto]. }
  rewrite <- ?list_fmap_compose.
  case_bool_decide as Hsold.
  - frames Hrows'.
    match goal with |- context [to_datetime ?x] =>
      replace (to_datetime x) with (snd <$> zip (with_model l) dates) end.
    2:{ rewrite snd_zip by lia. etrans; [exact Hdates|].
        unfold iphone_dates; cbn [columns rows].
        rewrite bool_decide_eq_true_2 by done. f_equal. unfold iphone_sold_texts.
        rewrite <- Hfst at 1. rewrite <- !list_fmap_compose. apply list_fmap_ext.
        intros i p _. unfold compose, id. by rewrite !at_col_insert_ne by py_ne. }
    frames Hrows'.
    eexists; f_equal; f_equal.
    apply fmap_filter_one.
    + intros r Hr; unfold compose, id.
      repeat first [rewrite at_col_insert | rewrite at_col_insert_ne by py_ne].
      destruct (IPhoneAll.eq_casefold _ _); cbn [is_true Is_true]; done.
    + intros r Hr HQ; unfold compose, iphone_row, id; cbv zeta.
      repeat first [rewrite at_col_insert | rewrite at_col_insert_ne by py_ne].
      rewrite (at_col_title r.1) by (by apply Hrows').
      apply Is_true_true in HQ; rewrite HQ; done.
  - frames Hrows'.
    eexists; f_equal; f_equal.
    apply fmap_filter_one.
    + intros r Hr; unfold compose, id.
      repeat first [rewrite at_col_insert | rewrite at_col_insert_ne by py_ne].
      destruct (IPhoneAll.eq_casefold _ _); cbn [is_true Is_true]; done.
    + intros r Hr HQ; unfold compose, iphone_row, id; cbv zeta.
      repeat first [rewrite at_col_insert | rewrite at_col_insert_ne by py_ne].
      rewrite (at_col_title r.1) by (by apply Hrows').
      apply Is_true_true in HQ; rewrite HQ; done.
Qed.

Lemma pixel_row_sold (target : str) (row : gmap str cell) (date : option Date) :
  pixel_row true target row date !! py "Sold Date" = Some (CDate date).
Proof.
  unfold pixel_row; cbv zeta.
  rewrite lookup_insert_ne by apply flag_col_ne_sold.
  rewrite lookup_insert_ne by py_ne. by rewrite lookup_insert_eq.
Qed.

Lemma iphone_row_sold (target : str) (row : gmap str cell) (date : option Date) :
  iphone_row true target row date !! py "Sold Date" = Some (CDate date).
Proof.
  unfold iphone_row; cbv zeta.
  rewrite lookup_insert_ne by apply flag_col_ne_sold. by rewrite lookup_insert_eq.
Qed.

(** The laws of [to_datetime], with the first text tested by
    [starts_mdy] and [starts_ymd]. *)
Lemma read_mdy (texts : list str) (i : nat) (s : str) :
  starts_mdy texts = true → texts !! i = Some s →
  (∀ d, month_day_year s = Some d → to_datetime texts !! i = Some (Some d))
  ∧ (44 ∉ s → (5 < length s)%nat → to_datetime texts !! i = Some None).
Proof.
  destruct texts as [|first col]; [done|]. cbn [starts_mdy].
  destruct (month_day_year first) as [d0|] eqn:Hfirst; [|done].
  intros [Hwrite Hmay]%andb_prop Hs.
  apply bool_decide_eq_true_1 in Hwrite.
  apply to_datetime_mdy with d0; try done.
  intros Hm. by rewrite Hm in Hmay.
Qed.

Lemma read_ymd (texts : list str) (i : nat) (s : str) :
  starts_ymd texts = true → texts !! i = Some s →
  (∀ d, year_month_day s = Some d → to_datetime texts !! i = Some (Some d))
  ∧ (starts_with_letter s = true → (5 < length s)%nat →
     to_datetime texts !! i = Some None).
Proof.
  destruct texts as [|first col]; [done|]. cbn [starts_ymd].
  destruct (year_month_day first) as [d0|] eqn:Hfirst; [|done].
  intros Hwrite%bool_decide_eq_true_1 Hs.
  by apply to_datetime_ymd with d0.
Qed.

(** What the two date texts of the examples give in a column of texts. *)
Lemma read_examples (texts : list str) (i : nat) (s : str) :
  texts !! i = Some s →
  (starts_mdy texts = true →
     (∀ d, month_day_year s = Some d → mjoin (to_datetime texts !! i) = Some d)
     ∧ (44 ∉ s → (5 < length s)%nat → mjoin (to_datetime texts !! i) = None)
     ∧ (s = py "Oct 21, 2025" → mjoin (to_datetime texts !! i) = Some (mkDate 2025 10 21))
     ∧ (s = py "SomeGarbage" → mjoin (to_datetime texts !! i) = None))
  ∧ (starts_ymd texts = true →
     s = py "Oct 21, 2025" → mjoin (to_datetime texts !! i) = None).
Proof.
  intros Hs. split.
  - intros Hfirst. destruct (read_mdy texts i s Hfirst Hs) as [Hdate Hnat].
    split; [|split; [|split]].
    + intros d Hd. by rewrite (Hdate d Hd).
    + intros Hno Hlen. by rewrite (Hnat Hno Hlen).
    + intros ->. by rewrite (Hdate (mkDate 2025 10 21) eq_refl).
    + intros ->. rewrite Hnat; [done| |cbn; lia].
      apply (bool_decide_unpack _). by vm_compute.
  - intros Hfirst ->. destruct (read_ymd texts i _ Hfirst Hs) as [_ Hnat].
    rewrite Hnat; [done|done|cbn; lia].
Qed.

End Clean.

(** ** The resolvers *)

Ltac py_eval :=
  repeat match goal with
  | |- context [py ?s] => let v := eval vm_compute in (py s) in change (py s) with v
  | H : context [py ?s] |- _ => let v := eval vm_compute in (py s) in change (py s) with v in H
  end.

Ltac split_Forall :=
  repeat match goal with
  | Hf : Forall _ (_ :: _) |- _ => apply Forall_cons in Hf as [? Hf]
  end.

(** Close a goal from a test on concrete characters that fails. *)
Ltac refute :=
  split_Forall;
  solve [ match goal with
          | Hx : _ = true |- _ => vm_compute in Hx; discriminate Hx
          | Hb : at_boundary _ = true, Heq : _ :: _ = _ ++ _ |- _ =>
              rewrite <- Heq in Hb; vm_compute in Hb; discriminate Hb
          end ].

(** Split on a run of separators [[\s_-]*] that is still a variable:
    empty, one character, or more. *)
Ltac sep_cases :=
  match goal with
  | Heq : _ :: _ = ?xs ++ _, Hsep : Forall ?P ?xs |- _ =>
      is_var xs;
      let t := eval vm_compute in (P 48) in
      lazymatch t with
      | (false = true) => destruct xs as [|? [|? ?]]; simplify_eq/=; try refute
      end
  end.

Section Resolver.
Context `{Runtime}.

Lemma ci_count_pos kw a b : ci_startswith kw b = true → (1 ≤ ci_count kw (a ++ b))%nat.
Proof.
  intros Hb. induction a as [|c a IH]; cbn [app].
  - destruct b; cbn [ci_count]; rewrite Hb; lia.
  - cbn [ci_count]. lia.
Qed.

Lemma ci_count_two kw : ∀ a a' b b',
  a ++ b = a' ++ b' → (length a < length a')%nat →
  ci_startswith kw b = true → ci_startswith kw b' = true →
  (2 ≤ ci_count kw (a ++ b))%nat.
Proof.
  induction a as [|c a IH]; intros a' b b' Heq Hlen Hb Hb'.
  - destruct a' as [|c' a']; [simpl in Hlen; lia|].
    cbn [app] in *. subst b. cbn [ci_count]. rewrite Hb.
    pose proof (ci_count_pos kw a' b' Hb'). lia.
  - destruct a' as [|c' a']; [simpl in Hlen; lia|].
    cbn [app] in Heq. injection Heq as -> Heq. cbn [app ci_count].
    pose proof (IH a' b b' Heq ltac:(simpl in Hlen; lia) Hb Hb'). lia.
Qed.

(** A keyword that occurs once occurs at one place. *)
Lemma ci_count_unique kw a a' b b' :
  ci_count kw (a ++ b) = 1%nat → a ++ b = a' ++ b' →
  ci_startswith kw b = true → ci_startswith kw b' = true →
  a = a' ∧ b = b'.
Proof.
  intros Hone Heq Hb Hb'.
  destruct (lt_eq_lt_dec (length a) (length a')) as [[Hlt|Hlen]|Hlt].
  - pose proof (ci_count_two kw a a' b b' Heq Hlt Hb Hb'). lia.
  - by apply app_inj_1.
  - pose proof (ci_count_two kw a' a b' b (eq_sym Heq) Hlt Hb' Hb).
    rewrite <- Heq in *. lia.
Qed.

(** The first file, in the order of [sorted], is one of the files. *)
Lemma head_sorted_elem (l : list str) f : head (sorted l) = Some f → f ∈ l.
Proof.
  intros Hh. apply head_Some_elem_of in Hh. unfold sorted in Hh.
  by rewrite merge_sort_Permutation in Hh.
Qed.

Lemma pixel9_pattern_keyword sn rs st' :
  den true (rx (PixelAll.file_pattern [py "9"])) (MState sn rs []) st' →
  ci_startswith (py "pixel") rs = true.
Proof.
  let r := eval vm_compute in (rx (PixelAll.file_pattern [py "9"])) in
    change (rx (PixelAll.file_pattern [py "9"])) with r.
  cbn [den]. intros Hd. den_inv. subst. py_eval. cbn [ci_startswith lit_eq] in *.
  repeat match goal with Hc : ignorecase_eq _ _ = true |- _ => rewrite Hc; clear Hc end.
  done.
Qed.

Lemma pixel9_pattern_rejects sn post st' :
  ¬ den true (rx (PixelAll.file_pattern [py "9"]))
        (MState sn (py "pixel_9_pro" ++ post) []) st'.
Proof.
  let r := eval vm_compute in (rx (PixelAll.file_pattern [py "9"])) in
    change (rx (PixelAll.file_pattern [py "9"])) with r.
  py_eval. cbn [den app]. intros Hd. den_inv. simplify_eq/=.
  match goal with
  | Heq : _ :: _ = ?xs ++ _ |- _ => destruct xs as [|a [|b xs]]; simplify_eq/=
  end; refute.
Qed.

Lemma pixel9_resolver dir :
  PixelAll.find_csv_for_model dir (py "Pixel 9")
  = Ok (head (sorted (filter (λ name, is_Some (re_search (PixelAll.file_pattern [py "9"]) name))
                             (glob_csv dir)))).
Proof.
  unfold PixelAll.find_csv_for_model.
  destruct (re_match PixelAll.NAME_RE (py "Pixel 9")) eqn:Hm; [|by vm_compute in Hm].
  done.
Qed.

Lemma iphone14pro_resolver dir :
  IPhoneAll.find_csv_for_iphone dir (py "iPhone 14 Pro")
  = Ok (head (sorted (filter (λ name, is_Some (re_search (IPhoneAll.pro_pattern (py "14")) name))
                             (glob_csv dir)))).
Proof.
  unfold IPhoneAll.find_csv_for_iphone.
  destruct (re_match IPhoneAll.NAME_RE (py "iPhone 14 Pro")) eqn:Hm; [|by vm_compute in Hm].
  vm_compute in Hm. injection Hm as <-. done.
Qed.

Lemma pixel9_search_rejects f :
  occurs (py "pixel_9_pro") f → ci_count (py "pixel") f = 1%nat →
  re_search (PixelAll.file_pattern [py "9"]) f = None.
Proof.
  intros (pre & post & ->) Hone.
  destruct (re_search _ _) as [m|] eqn:Hs; [exfalso|done].
  apply search_from_Some in Hs as (a & b & Heq & _ & Hat & _).
  apply attempt_den in Hat.
  pose proof (pixel9_pattern_keyword _ _ _ Hat) as Hkw.
  destruct (ci_count_unique (py "pixel") pre a (py "pixel_9_pro" ++ post) b Hone Heq)
    as [<- <-]; [by vm_compute|done|].
  by apply pixel9_pattern_rejects in Hat.
Qed.

Lemma iphone14pro_pattern_keyword sn rs st' :
  den true (rx (IPhoneAll.pro_pattern (py "14"))) (MState sn rs []) st' →
  ci_startswith (py "iphone") rs = true.
Proof.
  let r := eval vm_compute in (rx (IPhoneAll.pro_pattern (py "14"))) in
    change (rx (IPhoneAll.pro_pattern (py "14"))) with r.
  cbn [den]. intros Hd. den_inv. subst. py_eval. cbn [ci_startswith lit_eq] in *.
  repeat match goal with Hc : ignorecase_eq _ _ = true |- _ => rewrite Hc; clear Hc end.
  done.
Qed.

Lemma iphone14pro_pattern_rejects sn post st' :
  ¬ den true (rx (IPhoneAll.pro_pattern (py "14")))
        (MState sn (py "iphone-14-pro-max" ++ post) []) st'.
Proof.
  let r := eval vm_compute in (rx (IPhoneAll.pro_pattern (py "14"))) in
    change (rx (IPhoneAll.pro_pattern (py "14"))) with r.
  py_eval. cbn [den app]. intros Hd. den_inv. simplify_eq/=.
  sep_cases. sep_cases.
  match goal with
  | Hno : ¬ _, Heq : _ :: _ = _ ++ _ |- _ => rewrite <- Heq in Hno; apply Hno
  end.
  do 2 eexists. split.
  { exists [45], (109 :: 97 :: 120 :: post).
    split; [done|]. split; [simpl; lia|]. split; [done|].
    split; [by repeat constructor|done]. }
  cbn [rest seen groups].
  eexists. split; [do 2 eexists; split; [done|split; [by vm_compute|done]]|].
  cbn [rest seen groups].
  eexists. split; [do 2 eexists; split; [done|split; [by vm_compute|done]]|].
  cbn [rest seen groups].
  do 2 eexists. split; [done|split; [by vm_compute|done]].
Qed.

Lemma iphone14pro_search_rejects f :
  occurs (py "iphone-14-pro-max") f → ci_count (py "iphone") f = 1%nat →
  re_search (IPhoneAll.pro_pattern (py "14")) f = None.
Proof.
  intros (pre & post & ->) Hone.
  destruct (re_search _ _) as [m|] eqn:Hs; [exfalso|done].
  apply search_from_Some in Hs as (a & b & Heq & _ & Hat & _).
  apply attempt_den in Hat.
  pose proof (iphone14pro_pattern_keyword _ _ _ Hat) as Hkw.
  destruct (ci_count_unique (py "iphone") pre a (py "iphone-14-pro-max" ++ post) b Hone Heq)
    as [<- <-]; [by vm_compute|done|].
  by apply iphone14pro_pattern_rejects in Hat.
Qed.

Lemma resolver_result (P : pattern) (dir : list str) f :
  head (sorted (filter (λ name, is_Some (re_search P name)) (glob_csv dir))) = Some f →
  is_Some (re_search P f).
Proof. intros Hh. by apply head_sorted_elem, list_elem_of_filter in Hh as [? _]. Qed.

(** C3, as amended: a file whose name contains "pixel_9_pro" and
    mentions "pixel" (in any casing) only once is never the answer to
    "Pixel 9"; a file whose name contains "iphone-14-pro-max" and
    mentions "iphone" only once is never the answer to "iPhone 14 Pro". *)
Theorem C3_resolver_exclusivity (dir : list str) (f : str) :
  (occurs (py "pixel_9_pro") f → ci_count (py "pixel") f = 1%nat →
     PixelAll.find_csv_for_model dir (py "Pixel 9") ≠ Ok (Some f))
  ∧ (occurs (py "iphone-14-pro-max") f → ci_count (py "iphone") f = 1%nat →
     IPhoneAll.find_csv_for_iphone dir (py "iPhone 14 Pro") ≠ Ok (Some f)).
Proof.
  split; intros Hocc Hone Hfind.
  - rewrite pixel9_resolver in Hfind. injection Hfind as Hfind.
    apply resolver_result in Hfind as [m Hm].
    by rewrite pixel9_search_rejects in Hm.
  - rewrite iphone14pro_resolver in Hfind. injection Hfind as Hfind.
    apply resolver_result in Hfind as [m Hm].
    by rewrite iphone14pro_search_rejects in Hm.
Qed.
End Resolver.

(** ** [re.sub(r'\s+', ' ', s)] and [strip] *)

Section Spaces.
Context `{Runtime}.

Lemma rep_greedy_all ok gs (k : mstate → option mstate) rs :
  (∀ st, k st = Some st) →
  match rs with c :: _ => ok c = false | [] => True end →
  ∀ xs lo sn, Forall (λ c, ok c = true) xs → (lo ≤ length xs)%nat →
    rep_greedy ok lo None k gs sn (xs ++ rs) = Some (MState (reverse xs ++ sn) rs gs).
Proof.
  intros Hk Hrs. induction xs as [|x xs IH]; intros lo sn Hxs Hlo.
  - simpl in Hlo. assert (lo = 0%nat) as -> by lia. cbn [app reverse].
    destruct rs as [|c rs]; cbn [rep_greedy]; [by rewrite Hk|].
    by rewrite Hrs, Hk.
  - apply Forall_cons in Hxs as [Hx Hxs]. cbn [app rep_greedy]. rewrite Hx.
    cbn [fmap option_fmap option_map]. rewrite IH by (simpl in Hlo; auto with lia).
    by rewrite reverse_cons, <- app_assoc.
Qed.

Lemma scan_skip p : ∀ a sn b, scan p sn (a ++ b) (length a) = scan p (reverse a ++ sn) b 0.
Proof.
  induction a as [|c a IH]; intros sn b; [done|].
  cbn [app length scan]. rewrite IH. by rewrite reverse_cons, <- app_assoc.
Qed.

Lemma attempt_spaces_none sn rs :
  match rs with c :: _ => isspace c = false | [] => True end →
  attempt SPACES_RE false sn rs = None.
Proof.
  unfold attempt. cbn. destruct rs as [|c rs]; cbn; [done|]. by intros ->.
Qed.

Lemma attempt_spaces_run sn ws rs :
  ws ≠ [] → Forall (λ c, isspace c = true) ws →
  match rs with c :: _ => isspace c = false | [] => True end →
  attempt SPACES_RE false sn (ws ++ rs) = Some (MState (reverse ws ++ sn) rs []).
Proof.
  intros Hne Hws Hrs. unfold attempt. cbn [ignorecase rx SPACES_RE run rest seen groups].
  apply (rep_greedy_all (in_cset CSpace)); [done|done|done|].
  destruct ws; [done|simpl; lia].
Qed.

Lemma spaces_split : ∀ s : str,
  ∃ run rs, s = run ++ rs ∧ Forall (λ c, isspace c = true) run
            ∧ match rs with c :: _ => isspace c = false | [] => True end.
Proof.
  induction s as [|c s (ws & rs & -> & Hws & Hrs)]; [by exists [], []|].
  destruct (isspace c) eqn:Hc.
  - exists (c :: ws), rs. auto.
  - exists [], (c :: ws ++ rs). auto.
Qed.

Lemma squeeze_go_run ws rs :
  Forall (λ c, isspace c = true) ws → squeeze_go true (ws ++ rs) = squeeze_go true rs.
Proof.
  induction 1 as [|c ws Hc _ IH]; [done|]. cbn [app squeeze_go]. by rewrite Hc.
Qed.

Lemma squeeze_go_true rs :
  match rs with c :: _ => isspace c = false | [] => True end →
  squeeze_go true rs = squeeze_go false rs.
Proof. destruct rs as [|c rs]; [done|]. cbn [squeeze_go]. by intros ->. Qed.

Lemma sub_spaces_from : ∀ n (s : str), (length s ≤ n)%nat → ∀ sn,
  (scan SPACES_RE sn s 0 ≫= λ x, match x with Hit _ => py " " | Gap c => [c] end)
  = squeeze s.
Proof.
  induction n as [|n IH]; intros s Hlen sn.
  { destruct s; [|simpl in Hlen; lia]. cbn [scan]. by rewrite (attempt_spaces_none sn []). }
  destruct s as [|c s].
  { cbn [scan]. by rewrite (attempt_spaces_none sn []). }
  destruct (isspace c) eqn:Hc.
  - destruct (spaces_split s) as (ws & rs & -> & Hws & Hrs).
    pose proof (attempt_spaces_run sn (c :: ws) rs) as Hat.
    cbn [app] in Hat. cbn [scan]. rewrite Hat by (done || by constructor).
    cbn [seen]. rewrite length_app, length_reverse.
    replace (length (c :: ws) + length sn - length sn)%nat with (S (length ws))
      by (simpl; lia).
    cbn [app mbind list_bind].
    rewrite scan_skip, IH by (simpl in Hlen; rewrite length_app in Hlen; lia).
    unfold squeeze. cbn [squeeze_go]. rewrite Hc, squeeze_go_run, squeeze_go_true by done.
    done.
  - cbn [scan]. rewrite (attempt_spaces_none sn (c :: s)) by done.
    cbn [app mbind list_bind]. rewrite IH by (simpl in Hlen; lia).
    unfold squeeze. cbn [squeeze_go]. by rewrite Hc.
Qed.

Lemma re_sub_spaces s : re_sub SPACES_RE (py " ") s = squeeze s.
Proof. unfold re_sub. by apply (sub_spaces_from (length s)). Qed.

Lemma strip_id (s : str) :
  (∀ c body, s = c :: body → isspace c = false) →
  (∀ body z, s = body ++ [z] → isspace z = false) →
  strip s = s.
Proof.
  intros Hhead Hlast. unfold strip, rstrip.
  assert (lstrip s = s) as ->.
  { destruct s as [|c body]; [done|]. cbn [lstrip]. by rewrite (Hhead c body). }
  destruct (reverse s) as [|z r] eqn:Hr.
  - apply (f_equal reverse) in Hr. by rewrite reverse_involutive in Hr.
  - assert (Hs : s = reverse r ++ [z]).
    { apply (f_equal reverse) in Hr. by rewrite reverse_involutive, reverse_cons in Hr. }
    cbn [lstrip]. rewrite (Hlast _ _ Hs). by rewrite reverse_cons.
Qed.
End Spaces.

(** ** What [finditer] yields *)

Section Finditer.
Context `{Runtime}.

Lemma scan_hit p : ∀ rs sn skip m,
  Hit m ∈ scan p sn rs skip →
  ∃ adv sn' rs', attempt p adv sn' rs' = Some (m_end m).
Proof.
  induction rs as [|c rs IH]; intros sn skip m.
  - destruct skip as [|n]; cbn [scan app]; [|by intros ?%elem_of_nil].
    destruct (attempt p false sn []) as [st|] eqn:Ha; [|by intros ?%elem_of_nil].
    destruct (length (seen st) - length sn)%nat.
    + destruct (attempt p true sn []) as [st'|] eqn:Ha'.
      * rewrite !elem_of_cons, elem_of_nil.
        intros [[= ->]|[[= ->]|[]]]; eauto.
      * rewrite !elem_of_cons, elem_of_nil. intros [[= ->]|[]]; eauto.
    + rewrite !elem_of_cons, elem_of_nil. intros [[= ->]|[]]; eauto.
  - destruct skip as [|n]; cbn [scan app]; [|apply IH].
    destruct (attempt p false sn (c :: rs)) as [st|] eqn:Ha.
    + destruct (length (seen st) - length sn)%nat.
      * destruct (attempt p true sn (c :: rs)) as [st'|] eqn:Ha'.
        -- rewrite !elem_of_cons. intros [[= ->]|[[= ->]|Hin]]; eauto.
        -- rewrite !elem_of_cons. intros [[= ->]|[[=]|Hin]]; eauto.
      * rewrite !elem_of_cons. intros [[= ->]|Hin]; eauto.
    + rewrite !elem_of_cons. intros [[=]|Hin]; eauto.
Qed.

(** A token of the scan is the first group of some match of the
    pattern. *)
Lemma tokens_of_den P title tok :
  tok ∈ tokens_of P title →
  ∃ sn rs st', den (ignorecase P) (rx P) (MState sn rs []) st'
               ∧ assoc 1 (groups st') = Some tok.
Proof.
  unfold tokens_of, finditer. intros (m & Hm & Hg)%list_elem_of_omap.
  apply list_elem_of_omap in Hm as ([c|m'] & Hin & [=]). subst m'.
  apply scan_hit in Hin as (adv & sn & rs & Hat).
  apply attempt_den in Hat. eauto.
Qed.
End Finditer.
(** * What a scan hands to the normaliser *)

Section Tokens.
Context `{Runtime}.

(** ** Literals and the text they consume *)

Lemma den_lits ic : ∀ kw st st',
  den ic (lits kw) st st' →
  ∃ suf, Forall2 (λ p c, lit_eq ic p c = true) kw suf
         ∧ rest st = suf ++ rest st' ∧ seen st' = reverse suf ++ seen st
         ∧ groups st' = groups st.
Proof.
  induction kw as [|p kw IH]; intros st st' Hd.
  - cbn in Hd. subst. by exists [].
  - destruct kw as [|p' kw].
    + destruct Hd as (c & rs & Hrs & Hc & ->). exists [c]. cbn. by repeat constructor.
    + destruct Hd as (mid & (c & rs & Hrs & Hc & ->) & Hd).
      apply IH in Hd as (suf & Hsuf & Hr & Hs & Hg). cbn in Hr, Hs, Hg.
      exists (c :: suf). split; [by constructor|]. split; [by rewrite Hrs, Hr|].
      split; [|done]. by rewrite Hs, reverse_cons, <- app_assoc.
Qed.

Lemma den_lits_text ic kw sn suf rs gs gs' :
  den ic (lits kw) (MState sn (suf ++ rs) gs) (MState (reverse suf ++ sn) rs gs') →
  Forall2 (λ p c, lit_eq ic p c = true) kw suf.
Proof.
  intros (suf' & Hf & Hr & _)%den_lits. cbn in Hr. by apply app_inv_tail in Hr as ->.
Qed.

Lemma lits_variants kw suf :
  Forall (λ p, p < 128) kw →
  Forall2 (λ p c, lit_eq true p c = true) kw suf →
  Forall2 (λ p c, c ∈ ci_variants p) kw suf.
Proof.
  intros Hkw Hs. induction Hs as [|p c kw suf Hc _ IH]; [constructor|].
  apply Forall_cons in Hkw as [Hp Hkw]. constructor; [|by apply IH].
  by apply ignorecase_variants.
Qed.

Lemma variant_space p c :
  c ∈ ci_variants p → isspace c = isspace p ∧ (isspace p = true → c = p).
Proof.
  unfold ci_variants, ascii_isalpha, ascii_tolower, ascii_isupper, ascii_islower.
  destruct (in_range 65 90 p) eqn:Hu; [|destruct (in_range 97 122 p) eqn:Hl]; cbn [orb].
  - apply in_range_spec in Hu.
    assert (isspace p = false) as Hp by (apply isspace_false_range; lia).
    rewrite Hp. intros Hc. split; [|done].
    rewrite !elem_of_app, !elem_of_cons, elem_of_nil in Hc.
    destruct Hc as [[->|[->|[]]]|[Hc|[Hc|Hc]]].
    + apply isspace_false_range; lia.
    + apply isspace_false_range; lia.
    + case_match; [|by apply elem_of_nil in Hc].
      apply elem_of_cons in Hc as [->|Hc]; [done|].
      by apply list_elem_of_singleton in Hc as ->.
    + case_match; [|by apply elem_of_nil in Hc].
      by apply list_elem_of_singleton in Hc as ->.
    + case_match; [|by apply elem_of_nil in Hc].
      by apply list_elem_of_singleton in Hc as ->.
  - apply in_range_spec in Hl.
    assert (isspace p = false) as Hp by (apply isspace_false_range; lia).
    rewrite Hp. intros Hc. split; [|done].
    rewrite !elem_of_app, !elem_of_cons, elem_of_nil in Hc.
    destruct Hc as [[->|[->|[]]]|[Hc|[Hc|Hc]]].
    + apply isspace_false_range; lia.
    + apply isspace_false_range; lia.
    + case_match; [|by apply elem_of_nil in Hc].
      apply elem_of_cons in Hc as [->|Hc]; [done|].
      by apply list_elem_of_singleton in Hc as ->.
    + case_match; [|by apply elem_of_nil in Hc].
      by apply list_elem_of_singleton in Hc as ->.
    + case_match; [|by apply elem_of_nil in Hc].
      by apply list_elem_of_singleton in Hc as ->.
  - by intros ->%list_elem_of_singleton.
Qed.

(** ** Squeezing a token *)

Lemma squeeze_go_length : ∀ s b, (length (squeeze_go b s) ≤ length s)%nat.
Proof.
  induction s as [|c s IH]; intros b; cbn [squeeze_go length]; [done|].
  pose proof (IH true). pose proof (IH false).
  destruct (isspace c); [destruct b|]; cbn [length]; lia.
Qed.

(** A text that matches a squeezed keyword is squeezed as well. *)
Lemma squeeze_go_lits kw suf :
  Forall2 (λ p c, c ∈ ci_variants p) kw suf →
  ∀ b, squeeze_go b kw = kw → squeeze_go b suf = suf.
Proof.
  induction 1 as [|p c kw suf Hc _ IH]; intros b; [done|].
  apply variant_space in Hc as [Hsp Hsame]. cbn [squeeze_go]. rewrite Hsp.
  destruct (isspace p) eqn:Hp.
  - rewrite (Hsame eq_refl). destruct b.
    + intros Hk. pose proof (squeeze_go_length kw true) as Hlen.
      rewrite Hk in Hlen. cbn [length] in Hlen. lia.
    + intros [= <- Hk]. by rewrite (IH true Hk).
  - intros [= Hk]. by rewrite (IH false Hk).
Qed.

Lemma squeeze_go_nonspace xs s :
  Forall (λ c, isspace c = false) xs →
  squeeze_go false (xs ++ s) = xs ++ squeeze_go false s.
Proof.
  induction 1 as [|c xs Hc _ IH]; [done|].
  cbn [app squeeze_go]. by rewrite Hc, IH.
Qed.

Lemma squeeze_go_gap ws s :
  Forall (λ c, isspace c = true) ws → head_ok s →
  squeeze_go false (ws ++ s) = gap ws ++ squeeze_go false s.
Proof.
  intros Hws Hs. destruct Hws as [|c ws Hc Hws]; [done|].
  cbn [app squeeze_go gap]. rewrite Hc.
  by rewrite squeeze_go_run, squeeze_go_true.
Qed.

Lemma strip_ok (s : str) : head_ok s → last_ok s → strip s = s.
Proof.
  intros Hh Hl. apply strip_id.
  - by intros c body ->.
  - intros body z ->. unfold last_ok in Hl. by rewrite last_snoc in Hl.
Qed.

Lemma last_ok_app a b : b ≠ [] → last_ok b → last_ok (a ++ b).
Proof.
  intros Hb. unfold last_ok. rewrite last_app.
  destruct (last b) eqn:Hlast; [done|]. by apply last_None in Hlast.
Qed.

Lemma last_ok_nonspace s : Forall (λ c, isspace c = false) s → last_ok s.
Proof.
  intros Hs. unfold last_ok. destruct (last s) as [z|] eqn:Hz; [|done].
  apply last_Some_elem_of in Hz. by apply (proj1 (Forall_forall _ _) Hs).
Qed.

Lemma head_ok_lits kw suf :
  Forall2 (λ p c, c ∈ ci_variants p) kw suf → head_ok kw → head_ok suf.
Proof.
  destruct 1 as [|p c kw suf Hc _]; [done|]. cbn.
  apply variant_space in Hc as [-> _]. done.
Qed.

Lemma last_ok_lits kw suf :
  Forall2 (λ p c, c ∈ ci_variants p) kw suf → last_ok kw → last_ok suf.
Proof.
  unfold last_ok. induction 1 as [|p c kw suf Hc Hs IH]; [done|].
  destruct Hs as [|p' c' kw suf Hc' Hs].
  - cbn. by apply variant_space in Hc as [-> _].
  - exact IH.
Qed.

Lemma head_ok_app a b : a ≠ [] → head_ok a → head_ok (a ++ b).
Proof. by destruct a. Qed.

Lemma lits_nonspace kw suf :
  Forall2 (λ p c, c ∈ ci_variants p) kw suf →
  Forall (λ p, isspace p = false) kw → Forall (λ c, isspace c = false) suf.
Proof.
  induction 1 as [|p c kw suf Hc _ IH]; intros Hkw; [constructor|].
  apply Forall_cons in Hkw as [Hp Hkw]. constructor; [|by apply IH].
  apply variant_space in Hc as [-> _]. done.
Qed.

Lemma lits_nonempty {A B} (R : A → B → Prop) kw suf : Forall2 R kw suf → kw ≠ [] → suf ≠ [].
Proof. by destruct 1. Qed.

Lemma squeeze_nonspace s : Forall (λ c, isspace c = false) s → squeeze s = s.
Proof.
  intros Hs. unfold squeeze. rewrite <- (app_nil_r s) at 1.
  rewrite squeeze_go_nonspace by done. by rewrite app_nil_r.
Qed.

Lemma number_nonspace d1 xs2 :
  in_cset D19 d1 = true → Forall (λ c, in_cset D09 c = true) xs2 →
  Forall (λ c, isspace c = false) (d1 :: xs2).
Proof.
  intros Hd1 Hxs2. constructor.
  - apply in_range_spec in Hd1. apply isspace_false_range. lia.
  - eapply Forall_impl; [exact Hxs2|]. intros c Hc. by apply ascii_digit_not_space.
Qed.

(** A number alone is left as it is. *)
Lemma number_squeeze d1 xs2 :
  in_cset D19 d1 = true → Forall (λ c, in_cset D09 c = true) xs2 →
  squeeze (strip (d1 :: xs2)) = d1 :: xs2.
Proof.
  intros Hd1 Hxs2. pose proof (number_nonspace _ _ Hd1 Hxs2) as Hns.
  rewrite strip_ok.
  - by apply squeeze_nonspace.
  - by apply Forall_cons in Hns as [? _].
  - by apply last_ok_nonspace.
Qed.

(** A number, white space and a variant: the white space becomes one
    space and the variant is squeezed. *)
Lemma token_squeeze d1 xs2 ws suf suf' :
  in_cset D19 d1 = true → Forall (λ c, in_cset D09 c = true) xs2 →
  Forall (λ c, isspace c = true) ws →
  head_ok suf → last_ok suf → suf ≠ [] → squeeze_go false suf = suf' →
  squeeze (strip (d1 :: xs2 ++ ws ++ suf)) = d1 :: xs2 ++ gap ws ++ suf'.
Proof.
  intros Hd1 Hxs2 Hws Hh Hl Hne Hsq.
  pose proof (number_nonspace _ _ Hd1 Hxs2) as Hns.
  rewrite strip_ok.
  - unfold squeeze. change (d1 :: xs2 ++ ws ++ suf) with ((d1 :: xs2) ++ ws ++ suf).
    rewrite squeeze_go_nonspace by done.
    rewrite squeeze_go_gap by done. by rewrite Hsq.
  - by apply Forall_cons in Hns as [? _].
  - change (d1 :: xs2 ++ ws ++ suf) with ((d1 :: xs2) ++ ws ++ suf).
    rewrite !app_assoc. by apply last_ok_app.
Qed.

(** ** The enumeration of the squeezed tokens *)

Lemma elem_of_digits lo hi c : lo ≤ c ≤ hi → c ∈ digits lo hi.
Proof.
  intros Hc. unfold digits. apply list_elem_of_fmap. exists (N.to_nat (c - lo)).
  split; [lia|]. apply elem_of_seq. lia.
Qed.

Lemma elem_of_choices (variants : N → list N) kw suf :
  Forall2 (λ p c, c ∈ variants p) kw suf → suf ∈ choices (variants <$> kw).
Proof.
  induction 1 as [|p c kw suf Hc _ IH].
  - by apply list_elem_of_singleton.
  - rewrite fmap_cons. cbn [choices]. apply list_elem_of_bind. exists c.
    split; [|done]. by apply list_elem_of_fmap_2.
Qed.

Lemma elem_of_token_forms variants suffixes d1 xs2 tail :
  in_cset D19 d1 = true → Forall (λ c, in_cset D09 c = true) xs2 → (length xs2 ≤ 1)%nat →
  tail = [] ∨ (∃ sp kw suf, tail = sp ++ suf ∧ sp ∈ [[]; [32]] ∧ kw ∈ suffixes
                           ∧ Forall2 (λ p c, c ∈ variants p) kw suf) →
  d1 :: xs2 ++ tail ∈ token_forms variants suffixes.
Proof.
  intros Hd1 Hxs2 Hlen Htail. unfold token_forms.
  apply list_elem_of_bind. exists d1. split.
  2:{ apply in_range_spec in Hd1. by apply elem_of_digits. }
  apply list_elem_of_bind. exists xs2. split.
  2:{ destruct xs2 as [|d [|d' xs2]]; [by left| |cbn in Hlen; lia].
      right. apply (list_elem_of_fmap_2 (λ d, [d])).
      apply Forall_cons in Hxs2 as [Hd _]. apply in_range_spec in Hd.
      by apply elem_of_digits. }
  apply list_elem_of_bind. exists tail. split; [by apply list_elem_of_singleton|].
  destruct Htail as [->|(sp & kw & suf & -> & Hsp & Hkw & Hsuf)]; [by left|].
  right. apply list_elem_of_bind. exists sp. split; [|done].
  apply list_elem_of_bind. exists kw. split; [|done].
  apply list_elem_of_bind. exists suf. split; [by apply list_elem_of_singleton|].
  by apply elem_of_choices.
Qed.

Lemma gap_cases ws : gap ws ∈ [[]; [32]].
Proof. destruct ws; [left|right; left]. Qed.

Lemma pixel_forms_ok : Forall (λ t, is_Some (pixel_render t)) pixel_forms.
Proof. apply (bool_decide_unpack _). by vm_compute. Qed.

Lemma iphone_forms_ok : Forall (λ t, is_Some (iphone_render t)) iphone_forms.
Proof. apply (bool_decide_unpack _). by vm_compute. Qed.

(** ** The shape of a captured token *)

Lemma number_suffix_den ic S st mid :
  den ic (OneOf D19 ~> Rep D09 0 (Some 1%nat) ~> Opt (Rep CSpace 0 (Some 1%nat) ~> S)) st mid →
  ∃ d1 xs2 ws suf,
    span st mid = d1 :: xs2 ++ ws ++ suf
    ∧ in_cset D19 d1 = true ∧ Forall (λ c, in_cset D09 c = true) xs2 ∧ (length xs2 ≤ 1)%nat
    ∧ Forall (λ c, isspace c = true) ws
    ∧ ((ws = [] ∧ suf = [])
       ∨ ∃ sn rs gs gs',
           den ic S (MState sn (suf ++ rs) gs) (MState (reverse suf ++ sn) rs gs')).
Proof.
  destruct st as [sn rs gs]. cbn [den].
  intros (m1 & (d1 & rs1 & Hrs & Hd1 & ->) & m2
          & (xs2 & rs2 & Hrs1 & _ & Hlen & Hxs2 & ->) & Hopt).
  cbn [rest seen groups] in *. subst rs rs1.
  destruct Hopt as [(m3 & (ws & rs3 & Hrs2 & _ & _ & Hws & ->) & Hs) | ->].
  - cbn [rest seen groups] in *. subst rs2.
    pose proof (den_text _ _ _ _ Hs) as (suf & Hr & Hsn).
    destruct mid as [sn' rs' gs']. cbn [rest seen groups] in *. subst rs3 sn'.
    exists d1, xs2, ws, suf. split.
    { replace (reverse suf ++ reverse ws ++ reverse xs2 ++ d1 :: sn)
        with (reverse (d1 :: xs2 ++ ws ++ suf) ++ sn); [apply span_app|].
      rewrite reverse_cons, !reverse_app, <- !app_assoc. done. }
    repeat (split; [done|]). right. eexists _, _, _, _. exact Hs.
  - exists d1, xs2, [], []. split.
    { replace (reverse xs2 ++ d1 :: sn)
        with (reverse (d1 :: xs2 ++ [] ++ []) ++ sn); [apply span_app|].
      rewrite !app_nil_r, reverse_cons, <- !app_assoc. done. }
    repeat (split; [done|]). by left.
Qed.

(** Group 1 of a scanning pattern holds the text its inner pattern
    consumed. *)
Lemma group1_den ic A L R T E st st' tok :
  den ic (A ~> L ~> R ~> Group 1 T ~> E) st st' →
  (∀ a b, den ic E a b → groups b = groups a) →
  assoc 1 (groups st') = Some tok →
  ∃ a b, den ic T a b ∧ tok = span a b.
Proof.
  cbn [den]. intros (m1 & _ & m2 & _ & m3 & _ & m4 & (mid & HT & ->) & HE) HEg Hg.
  rewrite (HEg _ _ HE) in Hg. cbn in Hg. injection Hg as <-. eauto.
Qed.
End Tokens.
(** * Captured tokens and the normalisers *)

Section Normalizers.
Context `{Runtime}.

Lemma pixel_normalize_render tok :
  PixelAll.normalize_model_token tok = pixel_render (squeeze (strip tok)).
Proof. rewrite <- re_sub_spaces. reflexivity. Qed.

Lemma iphone_normalize_render tok :
  IPhoneAll.normalize_iphone_token tok = iphone_render (squeeze (strip tok)).
Proof. rewrite <- re_sub_spaces. reflexivity. Qed.

Lemma pixel_keyword kw :
  kw ∈ [py "Pro"; py "XL"; py "Pro XL"; py "a"] →
  Forall (λ p, p < 128) kw ∧ head_ok kw ∧ last_ok kw ∧ kw ≠ [] ∧ squeeze_go false kw = kw.
Proof.
  rewrite !elem_of_cons, elem_of_nil.
  intros [->|[->|[->|[->|[]]]]];
    (split; [by apply (bool_decide_unpack _)|]); repeat split; by vm_compute.
Qed.

Lemma iphone_keyword kw :
  kw ∈ [py "Pro"; py "Plus"; py "Mini"; py "Max"] →
  Forall (λ p, p < 128) kw ∧ head_ok kw ∧ last_ok kw ∧ kw ≠ [] ∧ squeeze_go false kw = kw.
Proof.
  rewrite !elem_of_cons, elem_of_nil.
  intros [->|[->|[->|[->|[]]]]];
    (split; [by apply (bool_decide_unpack _)|]); repeat split; by vm_compute.
Qed.

Lemma pixel_suffix sn suf rs gs gs' :
  den true (alts [lits (py "Pro"); lits (py "XL"); lits (py "Pro XL"); lits (py "a")])
      (MState sn (suf ++ rs) gs) (MState (reverse suf ++ sn) rs gs') →
  ∃ kw, kw ∈ [py "Pro"; py "XL"; py "Pro XL"; py "a"]
        ∧ Forall2 (λ p c, lit_eq true p c = true) kw suf.
Proof.
  cbn [alts den].
  intros [Hd|[Hd|[Hd|Hd]]]; apply den_lits_text in Hd;
    (eexists; split; [|exact Hd]); apply (bool_decide_unpack _); by vm_compute.
Qed.

Lemma pixel_token_normalizes st mid :
  den true PIXEL_TOKEN st mid → is_Some (PixelAll.normalize_model_token (span st mid)).
Proof.
  intros (d1 & xs2 & ws & suf & -> & Hd1 & Hxs2 & Hlen & Hws & Hsuf)%number_suffix_den.
  rewrite pixel_normalize_render.
  apply (proj1 (Forall_forall _ _) pixel_forms_ok).
  destruct Hsuf as [[-> ->]|(sn & rs & gs & gs' & Hs)].
  - rewrite !app_nil_r. rewrite number_squeeze by done.
    replace (d1 :: xs2) with (d1 :: xs2 ++ []) by (by rewrite app_nil_r).
    apply elem_of_token_forms; auto.
  - apply pixel_suffix in Hs as (kw & Hkw & Hs).
    destruct (pixel_keyword _ Hkw) as (Hascii & Hh & Hl & Hne & Hsq).
    apply lits_variants in Hs; [|done].
    rewrite (token_squeeze _ _ _ _ suf); try done.
    + apply elem_of_token_forms; try done. right.
      exists (gap ws), kw, suf. split; [done|]. split; [apply gap_cases|]. done.
    + by eapply head_ok_lits.
    + by eapply last_ok_lits.
    + by eapply lits_nonempty.
    + by eapply squeeze_go_lits.
Qed.

Lemma plain_of kw suf :
  Forall2 (λ p c, c ∈ ci_variants p) kw suf →
  Forall (λ c, c ∉ [0x130; 0x131; 0x17F]) suf →
  Forall2 (λ p c, c ∈ plain_variants p) kw suf.
Proof.
  induction 1 as [|p c kw suf Hc _ IH]; intros Hsuf; [constructor|].
  apply Forall_cons in Hsuf as [Hp Hsuf]. constructor; [|by apply IH].
  by apply list_elem_of_filter.
Qed.

(** The variants of an iPhone as the scan can consume them: a keyword
    in some casing, or "Pro", white space and "Max". *)
Lemma iphone_suffix sn suf rs gs gs' :
  den true (alts [lits (py "Pro") ~> Rep CSpace 1 None ~> lits (py "Max");
                  lits (py "Pro"); lits (py "Plus"); lits (py "Mini"); lits (py "Max")])
      (MState sn (suf ++ rs) gs) (MState (reverse suf ++ sn) rs gs') →
  (∃ s1 ws s2, suf = s1 ++ ws ++ s2 ∧ ws ≠ []
               ∧ Forall (λ c, isspace c = true) ws
               ∧ Forall2 (λ p c, lit_eq true p c = true) (py "Pro") s1
               ∧ Forall2 (λ p c, lit_eq true p c = true) (py "Max") s2)
  ∨ ∃ kw, kw ∈ [py "Pro"; py "Plus"; py "Mini"; py "Max"]
          ∧ Forall2 (λ p c, lit_eq true p c = true) kw suf.
Proof.
  cbn [alts den]. intros [Hd|Hd].
  - left. destruct Hd as (m1 & H1 & m2 & (ws & rs2 & Hr & Hlen & _ & Hws & ->) & H2).
    apply den_lits in H1 as (s1 & Hs1 & Hr1 & _).
    apply den_lits in H2 as (s2 & Hs2 & Hr2 & _).
    cbn [rest seen groups] in *. exists s1, ws, s2.
    split; [|split; [|done]].
    + apply (app_inv_tail rs). rewrite <- !app_assoc. by rewrite Hr1, Hr, Hr2.
    + intros ->. cbn in Hlen. lia.
  - right. destruct Hd as [Hd|[Hd|[Hd|Hd]]]; apply den_lits_text in Hd;
      (eexists; split; [|exact Hd]); apply (bool_decide_unpack _); by vm_compute.
Qed.

Lemma iphone_token_normalizes st mid :
  den true IPHONE_TOKEN st mid →
  Forall (λ c, c ∉ [0x130; 0x131; 0x17F]) (span st mid) →
  is_Some (IPhoneAll.normalize_iphone_token (span st mid)).
Proof.
  intros (d1 & xs2 & ws & suf & -> & Hd1 & Hxs2 & Hlen & Hws & Hsuf)%number_suffix_den Hplain.
  rewrite iphone_normalize_render.
  apply (proj1 (Forall_forall _ _) iphone_forms_ok).
  destruct Hsuf as [[-> ->]|(sn & rs & gs & gs' & Hs)].
  - rewrite !app_nil_r. rewrite number_squeeze by done.
    replace (d1 :: xs2) with (d1 :: xs2 ++ []) by (by rewrite app_nil_r).
    apply elem_of_token_forms; auto.
  - apply Forall_cons in Hplain as [_ Hplain].
    apply Forall_app in Hplain as [_ Hplain]. apply Forall_app in Hplain as [_ Hplain].
    apply iphone_suffix in Hs as [(s1 & run & s2 & -> & Hrun & Hsp & Hs1 & Hs2)|(kw & Hkw & Hs)].
    + apply Forall_app in Hplain as [Hp1 Hplain]. apply Forall_app in Hplain as [_ Hp2].
      apply lits_variants in Hs1; [|by apply (bool_decide_unpack _)].
      apply lits_variants in Hs2; [|by apply (bool_decide_unpack _)].
      assert (head_ok s2) as Hh2 by (eapply head_ok_lits; [exact Hs2|by vm_compute]).
      assert (s1 ≠ []) as Hne1 by (by eapply lits_nonempty).
      assert (s2 ≠ []) as Hne2 by (by eapply lits_nonempty).
      rewrite (token_squeeze _ _ _ _ (s1 ++ [32] ++ s2)); try done.
      * apply elem_of_token_forms; try done. right.
        exists (gap ws), (py "Pro Max"), (s1 ++ [32] ++ s2).
        split; [done|]. split; [apply gap_cases|].
        split; [apply (bool_decide_unpack _); by vm_compute|].
        change (py "Pro Max") with (py "Pro" ++ [32] ++ py "Max").
        apply Forall2_app; [by apply plain_of|].
        apply Forall2_app; [|by apply plain_of].
        constructor; [|constructor]. apply (bool_decide_unpack _). by vm_compute.
      * apply head_ok_app; [done|]. eapply head_ok_lits; [exact Hs1|by vm_compute].
      * rewrite app_assoc. apply last_ok_app; [done|].
        eapply last_ok_lits; [exact Hs2|by vm_compute].
      * by destruct s1.
      * rewrite squeeze_go_nonspace.
        2:{ eapply lits_nonspace; [exact Hs1|]. apply (bool_decide_unpack _). by vm_compute. }
        rewrite squeeze_go_gap by done.
        rewrite (squeeze_go_lits _ _ Hs2) by done. by destruct run.
    + destruct (iphone_keyword _ Hkw) as (Hascii & Hh & Hl & Hne & Hsq).
      apply lits_variants in Hs; [|done].
      rewrite (token_squeeze _ _ _ _ suf); try done.
      * apply elem_of_token_forms; try done. right.
        exists (gap ws), kw, suf. split; [done|]. split; [apply gap_cases|].
        split; [|by apply plain_of].
        revert Hkw. rewrite !elem_of_cons. tauto.
      * by eapply head_ok_lits.
      * by eapply last_ok_lits.
      * by eapply lits_nonempty.
      * by eapply squeeze_go_lits.
Qed.

Lemma wordb_groups ic a b : den ic WordB a b → groups b = groups a.
Proof. by intros [-> _]. Qed.

Lemma pixel_tail_groups a b :
  den true (WordB ~> Opt (Rep CSpace 0 None ~> lits (py "5G"))) a b → groups b = groups a.
Proof.
  cbn [den]. intros (m & [-> _] & [(m' & (xs & rs & _ & _ & _ & _ & ->) & Hl)| ->]); [|done].
  by apply den_lits in Hl as (_ & _ & _ & _ & ->).
Qed.

(** C9, as the code has it: every token that [MODEL_RE] captures
    normalises; every token that [IPHONE_MODEL_RE] captures normalises
    unless it holds one of the letters U+0130, U+0131 and U+017F, which
    IGNORECASE accepts for [i] and [s] and [str.lower] does not turn
    into them.  So, on such titles, no captured token is lost and the
    list of models is as long as the list of tokens. *)
Theorem C9_captured_tokens_normalize (title tok : str) :
  (tok ∈ tokens_of PixelAll.MODEL_RE title →
     is_Some (PixelAll.normalize_model_token tok))
  ∧ (tok ∈ tokens_of IPhoneAll.IPHONE_MODEL_RE title →
     Forall (λ c, c ∉ [0x130; 0x131; 0x17F]) tok →
     is_Some (IPhoneAll.normalize_iphone_token tok)).
Proof.
  split.
  - intros (sn & rs & st' & Hd & Hg)%tokens_of_den.
    destruct (group1_den true _ _ _ PIXEL_TOKEN _ _ _ _ Hd pixel_tail_groups Hg)
      as (a & b & Ht & ->).
    by apply pixel_token_normalizes.
  - intros (sn & rs & st' & Hd & Hg)%tokens_of_den Hplain.
    destruct (group1_den true _ _ _ IPHONE_TOKEN _ _ _ _ Hd (wordb_groups true) Hg)
      as (a & b & Ht & ->).
    by apply iphone_token_normalizes.
Qed.
End Normalizers.

(** * The scan of a title, read as mentions *)

Section Reading.
Context `{Runtime}.

(** ** The matcher on the parts of a scanning pattern *)

Lemma run_lits kw : ∀ k sn rs gs,
  run true (lits kw) k (MState sn rs gs)
  = match spelled kw rs with
    | Some (m, r) => k (MState (reverse m ++ sn) r gs)
    | None => None
    end.
Proof.
  induction kw as [|p kw IH]; intros k sn rs gs; [done|].
  assert (Hstep : run true (lits (p :: kw)) k (MState sn rs gs)
                  = match rs with
                    | c :: rs' =>
                        if ignorecase_eq p c
                        then run true (lits kw) k (MState (c :: sn) rs' gs)
                        else None
                    | [] => None
                    end).
  { destruct kw as [|p' kw]; cbn [lits run rest seen groups lit_eq];
      destruct rs as [|c rs']; try done; by destruct (ignorecase_eq p c). }
  rewrite Hstep. destruct rs as [|c rs']; [done|]. cbn [spelled].
  destruct (ignorecase_eq p c); [|done]. rewrite IH.
  destruct (spelled kw rs') as [[m r]|]; [|done].
  by rewrite reverse_cons, <- app_assoc.
Qed.

(** Greedy white space before something that cannot start with white
    space: all of it is taken. *)
Lemma rep_spaces (k : mstate → option mstate) gs :
  (∀ sn c r, isspace c = true → k (MState sn (c :: r) gs) = None) →
  ∀ rs lo sn,
    rep_greedy (in_cset CSpace) lo None k gs sn rs
    = if (lo <=? length (spaces rs).1)%nat
      then k (MState (reverse (spaces rs).1 ++ sn) (spaces rs).2 gs)
      else None.
Proof.
  intros Hk. induction rs as [|c rs IH]; intros lo sn.
  - cbn [rep_greedy spaces fst snd length]. by destruct lo.
  - cbn [rep_greedy spaces in_cset]. destruct (isspace c) eqn:Hc.
    + cbn [fmap option_fmap option_map]. rewrite IH.
      destruct (spaces rs) as [ws r]. cbn [fst snd length].
      rewrite reverse_cons, <- app_assoc. cbn [app].
      destruct lo as [|lo]; cbn [pred].
      * rewrite (Hk sn c rs Hc). change (0 <=? S (length ws))%nat with true.
        change (0 <=? length ws)%nat with true. cbv iota.
        by destruct (k (MState (reverse ws ++ c :: sn) r gs)).
      * change (S lo <=? S (length ws))%nat with (lo <=? length ws)%nat.
        destruct (lo <=? length ws)%nat; [|done].
        by destruct (k (MState (reverse ws ++ c :: sn) r gs)).
    + cbn [fst snd length reverse app]. by destruct lo.
Qed.

Lemma rep_greedy_zero ok k gs sn rs :
  rep_greedy ok 0 (Some 0%nat) k gs sn rs = k (MState sn rs gs).
Proof. by destruct rs. Qed.

Lemma run_alts (rs : list regex) k st :
  run true (alts rs) k st
  = foldr (λ r acc, match run true r k st with Some x => Some x | None => acc end) None rs.
Proof.
  induction rs as [|a rs IH]; [done|].
  cbn [foldr]. rewrite <- IH. destruct rs as [|b rs]; cbn [alts run]; [|done].
  by destruct (run true a k st).
Qed.

(** ** What a letter of a pattern accepts *)

Lemma letter_accepts p c :
  ascii_isalpha p = true → ignorecase_eq p c = true →
  isspace c = false ∧ in_range 48 57 c = false.
Proof.
  intros Hp Hc.
  assert (p < 128) as Hlt.
  { unfold ascii_isalpha, ascii_isupper, ascii_islower in Hp.
    apply orb_true_iff in Hp as [Hp|Hp]; apply in_range_spec in Hp; lia. }
  apply ignorecase_variants in Hc; [|done].
  split.
  - apply variant_space in Hc as [-> _].
    unfold ascii_isalpha, ascii_isupper, ascii_islower in Hp.
    apply orb_true_iff in Hp as [Hp|Hp]; apply in_range_spec in Hp;
      apply isspace_false_range; lia.
  - unfold ci_variants in Hc. rewrite Hp in Hc.
    assert (97 ≤ ascii_tolower p ≤ 122) as Hlo.
    { unfold ascii_isalpha, ascii_tolower, ascii_isupper, ascii_islower in *.
      destruct (in_range 65 90 p) eqn:Hu.
      - apply in_range_spec in Hu. lia.
      - cbn [orb] in Hp. apply in_range_spec in Hp. lia. }
    cbv zeta in Hc. revert Hc. generalize (ascii_tolower p) Hlo. intros lo Hlo' Hc.
    apply not_true_is_false. intros Hd%in_range_spec.
    rewrite !elem_of_app, !elem_of_cons, elem_of_nil in Hc.
    destruct Hc as [[->|[->|[]]]|[Hc|[Hc|Hc]]]; try lia;
      (case_match; [|by apply elem_of_nil in Hc]);
      rewrite ?elem_of_cons, elem_of_nil in Hc; lia.
Qed.

Lemma spelled_letter w c r :
  starts_with_letter w = true →
  isspace c = true ∨ in_range 48 57 c = true →
  spelled w (c :: r) = None.
Proof.
  destruct w as [|p w]; [done|]. cbn [starts_with_letter spelled]. intros Hp Hc.
  destruct (ignorecase_eq p c) eqn:Heq; [|done].
  destruct (letter_accepts p c Hp Heq) as [Hs Hd]. destruct Hc; congruence.
Qed.

Lemma spelled_nil w : starts_with_letter w = true → spelled w [] = None.
Proof. by destruct w. Qed.

Lemma spelled_nonempty w s m r :
  starts_with_letter w = true → spelled w s = Some (m, r) → m ≠ [].
Proof.
  destruct w as [|p w]; [done|]. intros _. destruct s as [|c s]; [done|].
  cbn [spelled]. destruct (ignorecase_eq p c); [|done].
  destruct (spelled w s) as [[m' r']|]; [|done]. by intros [= <- _].
Qed.

Lemma read_variant_head v c r :
  v ≠ [] → Forall (λ w, starts_with_letter w = true) v →
  isspace c = true ∨ in_range 48 57 c = true →
  read_variant v (c :: r) = None.
Proof.
  destruct v as [|w more]; [done|]. intros _ [Hw _]%Forall_cons Hc.
  cbn [read_variant]. rewrite (spelled_letter w c r Hw Hc). by destruct more.
Qed.

Lemma read_variant_nil v :
  v ≠ [] → Forall (λ w, starts_with_letter w = true) v → read_variant v [] = None.
Proof.
  destruct v as [|w more]; [done|]. intros _ [Hw _]%Forall_cons.
  cbn [read_variant]. rewrite (spelled_nil w Hw). by destruct more.
Qed.

Lemma read_variant_nonempty v s text r :
  v ≠ [] → Forall (λ w, starts_with_letter w = true) v →
  read_variant v s = Some (text, r) → text ≠ [].
Proof.
  destruct v as [|w more]; [done|]. intros _ [Hw _]%Forall_cons.
  cbn [read_variant]. destruct more as [|w' more].
  - by apply spelled_nonempty.
  - destruct (spelled w s) as [[m s1]|] eqn:Hm; [|done].
    apply spelled_nonempty in Hm; [|done].
    destruct (spaces1 s1) as [[ws s2]|]; [|done].
    destruct (read_variant (w' :: more) s2) as [[m' r']|]; [|done].
    intros [= <- _]. by destruct m.
Qed.

Lemma spaces1_spec s :
  spaces1 s = if (1 <=? length (spaces s).1)%nat then Some (spaces s) else None.
Proof. unfold spaces1. by destruct (spaces s) as [[|c ws] r]. Qed.

Lemma run_variant v : ∀ k sn s gs,
  Forall (λ w, starts_with_letter w = true) v →
  run true (variant_re v) k (MState sn s gs)
  = match read_variant v s with
    | Some (text, r) => k (MState (reverse text ++ sn) r gs)
    | None => None
    end.
Proof.
  induction v as [|w more IH]; intros k sn s gs Hv; [done|].
  apply Forall_cons in Hv as [Hw Hmore].
  destruct more as [|w' more]; [apply run_lits|].
  change (variant_re (w :: w' :: more))
    with (lits w ~> Rep CSpace 1 None ~> variant_re (w' :: more)).
  change (read_variant (w :: w' :: more) s)
    with (match spelled w s with
          | Some (m, s1) =>
              match spaces1 s1 with
              | Some (ws, s2) =>
                  match read_variant (w' :: more) s2 with
                  | Some (m', r) => Some (m ++ ws ++ m', r)
                  | None => None
                  end
              | None => None
              end
          | None => None
          end).
  cbn [run]. rewrite run_lits.
  destruct (spelled w s) as [[m s1]|]; [|done].
  cbn [seen rest groups]. rewrite rep_spaces.
  2:{ intros sn' c r Hc. rewrite IH by done.
      rewrite read_variant_head; [done|done|done|by left]. }
  rewrite spaces1_spec. destruct (1 <=? length (spaces s1).1)%nat; [|done].
  destruct (spaces s1) as [ws s2]. cbn [fst snd]. rewrite IH by done.
  destruct (read_variant (w' :: more) s2) as [[m' r]|]; [|done].
  by rewrite !reverse_app, <- !app_assoc.
Qed.

(** ** The end of a word *)

Lemma at_boundary_word_ends text sn r gs :
  text ≠ [] → at_boundary (MState (reverse text ++ sn) r gs) = word_ends text r.
Proof.
  intros Hne. unfold at_boundary, word_ends. cbn [seen rest].
  destruct (exists_last Hne) as (body & z & ->).
  by rewrite reverse_snoc, last_snoc.
Qed.

Lemma digit_is_word c : in_range 48 57 c = true → is_word c = true.
Proof.
  intros Hc. unfold is_word, isalnum, ascii_isalnum, ascii_isdigit.
  pose proof (proj1 (in_range_spec _ _ _) Hc).
  destruct (N.ltb_spec c 128); [|lia]. by rewrite Hc, !orb_true_r.
Qed.

Lemma digit_19_09 c : in_range 49 57 c = true → in_range 48 57 c = true.
Proof. rewrite !in_range_spec. lia. Qed.

(** ** The number and the variant *)

Lemma first_variant_head vocab c r :
  good_vocabulary vocab →
  isspace c = true ∨ in_range 48 57 c = true →
  first_variant vocab (c :: r) = None.
Proof.
  intros Hgood Hc. induction Hgood as [|v vocab [Hne Hv] _ IH]; [done|].
  cbn [first_variant]. by rewrite read_variant_head.
Qed.

Section Token.
Variables (vocab : list (list str)) (K : mstate → option mstate) (K2 : mstate → mstate).
Hypothesis HK : ∀ st, K st = if at_boundary st then Some (K2 st) else None.

Lemma run_first_variant sn s gs :
  good_vocabulary vocab →
  run true (alts (variant_re <$> vocab)) K (MState sn s gs)
  = match first_variant vocab s with
    | Some (text, r) => Some (K2 (MState (reverse text ++ sn) r gs))
    | None => None
    end.
Proof.
  rewrite run_alts. intros Hgood.
  induction Hgood as [|v more [Hne Hv] _ IH]; [done|].
  rewrite fmap_cons. cbn [foldr first_variant]. rewrite run_variant by done.
  destruct (read_variant v s) as [[text r]|] eqn:Hread; [|exact IH].
  rewrite HK, at_boundary_word_ends by (by eapply read_variant_nonempty).
  destruct (word_ends text r); [done|exact IH].
Qed.

Hypothesis Hgood : good_vocabulary vocab.

Lemma run_variant_part sn s gs :
  run true (Opt (Rep CSpace 0 (Some 1%nat) ~> alts (variant_re <$> vocab))) K
      (MState sn s gs)
  = let '(gap, s2) := match s with
                      | c :: r => if isspace c then ([c], r) else ([], s)
                      | [] => ([], s)
                      end in
    match first_variant vocab s2 with
    | Some (text, r) => Some (K2 (MState (reverse text ++ reverse gap ++ sn) r gs))
    | None => K (MState sn s gs)
    end.
Proof.
  cbn [run seen rest groups]. destruct s as [|c r].
  - cbn [rep_greedy]. rewrite run_first_variant by done.
    by destruct (first_variant vocab []) as [[text r]|].
  - cbn [rep_greedy in_cset fmap option_fmap option_map pred].
    destruct (isspace c) eqn:Hc.
    + rewrite rep_greedy_zero, !run_first_variant by done.
      rewrite (first_variant_head vocab c r Hgood) by (by left).
      by destruct (first_variant vocab r) as [[text r']|].
    + rewrite run_first_variant by done.
      by destruct (first_variant vocab (c :: r)) as [[text r']|].
Qed.

Lemma run_token sn s gs :
  run true (token_re vocab) K (MState sn s gs)
  = match read_token vocab s with
    | Some (m, r) => Some (K2 (MState (reverse (m_token m) ++ sn) r gs))
    | None => None
    end.
Proof.
  unfold token_re, read_token.
  change (run true (OneOf D19 ~> Rep D09 0 (Some 1%nat)
                    ~> Opt (Rep CSpace 0 (Some 1%nat) ~> alts (variant_re <$> vocab)))
              K (MState sn s gs))
    with (match s with
          | d1 :: s1 =>
              if in_range 49 57 d1
              then rep_greedy (in_range 48 57) 0 (Some 1%nat)
                     (run true (Opt (Rep CSpace 0 (Some 1%nat)
                                     ~> alts (variant_re <$> vocab))) K)
                     gs (d1 :: sn) s1
              else None
          | [] => None
          end).
  destruct s as [|d1 s1]; [done|]. cbn [read_number].
  destruct (in_range 49 57 d1) eqn:Hd1; [|done].
  assert (Hbare : ∀ num after, num ≠ [] →
            K (MState (reverse num ++ sn) after gs)
            = if word_ends num after
              then Some (K2 (MState (reverse (m_token (mkMention num [] [])) ++ sn) after gs))
              else None).
  { intros num after Hne. rewrite HK, at_boundary_word_ends by done.
    unfold m_token. cbn [m_number m_gap m_variant]. by rewrite !app_nil_r. }
  assert (Hseen : ∀ num gap text,
            reverse text ++ reverse gap ++ reverse num ++ sn
            = reverse (m_token (mkMention num gap text)) ++ sn).
  { intros. unfold m_token. cbn [m_number m_gap m_variant].
    by rewrite !reverse_app, <- !app_assoc. }
  destruct s1 as [|d2 s2].
  - cbn [rep_greedy]. rewrite run_variant_part.
    destruct (first_variant vocab []) as [[text r]|].
    + by rewrite <- Hseen.
    + change (d1 :: sn) with (reverse [d1] ++ sn). rewrite Hbare by done.
      by destruct (word_ends [d1] []).
  - cbn [rep_greedy fmap option_fmap option_map pred].
    change (in_cset D09 d2) with (in_range 48 57 d2).
    destruct (in_range 48 57 d2) eqn:Hd2.
    + rewrite rep_greedy_zero, !run_variant_part.
      assert (isspace d2 = false) as Hsp by (by apply ascii_digit_not_space).
      rewrite Hsp. rewrite (first_variant_head vocab d2 s2 Hgood) by (by right).
      assert (K (MState (d1 :: sn) (d2 :: s2) gs) = None) as ->.
      { rewrite HK. unfold at_boundary. cbn [seen rest].
        rewrite (digit_is_word d2 Hd2), (digit_is_word d1 (digit_19_09 d1 Hd1)). done. }
      change (d2 :: d1 :: sn) with (reverse [d1; d2] ++ sn).
      destruct s2 as [|c r].
      * destruct (first_variant vocab []) as [[text r]|].
        -- by rewrite <- Hseen.
        -- rewrite (Hbare [d1; d2] []) by done. by destruct (word_ends [d1; d2] []).
      * destruct (isspace c).
        -- destruct (first_variant vocab r) as [[text r']|].
           ++ by rewrite <- Hseen.
           ++ rewrite (Hbare [d1; d2] (c :: r)) by done.
              by destruct (word_ends [d1; d2] (c :: r)).
        -- destruct (first_variant vocab (c :: r)) as [[text r']|].
           ++ by rewrite <- Hseen.
           ++ rewrite (Hbare [d1; d2] (c :: r)) by done.
              by destruct (word_ends [d1; d2] (c :: r)).
    + rewrite run_variant_part.
      change (d1 :: sn) with (reverse [d1] ++ sn).
      destruct (isspace d2).
      * destruct (first_variant vocab s2) as [[text r']|].
        -- by rewrite <- Hseen.
        -- rewrite (Hbare [d1] (d2 :: s2)) by done.
           by destruct (word_ends [d1] (d2 :: s2)).
      * destruct (first_variant vocab (d2 :: s2)) as [[text r']|].
        -- by rewrite <- Hseen.
        -- rewrite (Hbare [d1] (d2 :: s2)) by done.
           by destruct (word_ends [d1] (d2 :: s2)).
Qed.
End Token.

(** ** A whole mention *)

Lemma run_tail fam n st1 st' :
  run true (tail_re fam) (accept false n) (set_group 1 (span st1 st') st')
  = if at_boundary st' then Some (finish fam st1 st') else None.
Proof.
  unfold tail_re, finish. cbv zeta.
  change (at_boundary st') with (at_boundary (set_group 1 (span st1 st') st')).
  generalize (set_group 1 (span st1 st') st'). intros [sn rs gs].
  destruct (with_5g fam); cbn [run seen rest groups];
    destruct (at_boundary (MState sn rs gs)); try done.
  rewrite rep_spaces.
  2:{ intros sn' c r Hc. rewrite run_lits.
      change (py "5G") with [53; 71]. cbn [spelled].
      destruct (ignorecase_eq 53 c) eqn:Heq; [|done].
      apply ignorecase_variants in Heq; [|done].
      apply list_elem_of_singleton in Heq as ->. done. }
  change (0 <=? length (spaces rs).1)%nat with true. cbv iota.
  rewrite run_lits. by destruct (spelled (py "5G") (spaces rs).2) as [[m5 r]|].
Qed.

Lemma finish_spec fam sn1 s1 tok r :
  let st := finish fam (MState sn1 s1 []) (MState (reverse tok ++ sn1) r []) in
  rest st = (if with_5g fam then skip_5g r else r)
  ∧ assoc 1 (groups st) = Some tok.
Proof.
  cbv zeta. unfold finish, skip_5g, set_group. cbv zeta. rewrite span_app.
  cbn [seen rest groups].
  destruct (with_5g fam); [|done].
  by destruct (spelled (py "5G") (spaces r).2) as [[m5 r']|].
Qed.

Lemma run_after_keyword fam sn s n :
  good_family fam →
  same_reading (run true (lits (keyword fam) ~> Rep CSpace 1 None
                   ~> Group 1 (token_re (vocabulary fam)) ~> tail_re fam)
             (accept false n) (MState sn s []))
        (after_keyword fam s).
Proof.
  intros [Hkw Hvocab]. unfold after_keyword. cbn [run]. rewrite run_lits.
  destruct (spelled (keyword fam) s) as [[m0 s1]|]; [|done].
  cbn [seen rest groups]. rewrite rep_spaces.
  2:{ intros sn' c r Hc. unfold token_re. cbn [run rest].
      change (in_cset D19 c) with (in_range 49 57 c).
      destruct (in_range 49 57 c) eqn:Hd; [|done].
      apply digit_19_09, ascii_digit_not_space in Hd. congruence. }
  rewrite spaces1_spec. destruct (1 <=? length (spaces s1).1)%nat; [|done].
  destruct (spaces s1) as [ws s2]. cbn [fst snd].
  rewrite (run_token (vocabulary fam) _
             (finish fam (MState (reverse ws ++ reverse m0 ++ sn) s2 []))).
  - destruct (read_token (vocabulary fam) s2) as [[m r]|]; [|done].
    apply finish_spec.
  - intros st'. apply run_tail.
  - done.
Qed.

Lemma attempt_mention fam sn s :
  good_family fam →
  same_reading (attempt (Pattern (mention_re fam) true) false sn s) (read_mention fam s).
Proof.
  intros Hfam. unfold attempt, read_mention, mention_re. cbn [ignorecase rx].
  change (run true (Opt (lits (brand fam) ~> Rep CSpace 1 None) ~> ?R) ?k ?st)
    with (match run true (lits (brand fam))
                  (run true (Rep CSpace 1 None) (run true R k)) st with
          | Some x => Some x
          | None => run true R k st
          end).
  rewrite run_lits.
  pose proof (run_after_keyword fam sn s (length sn) Hfam) as Hplain.
  destruct (spelled (brand fam) s) as [[m0 s1]|]; [|exact Hplain].
  cbn [run seen rest groups]. rewrite rep_spaces.
  2:{ intros sn' c r Hc. rewrite run_lits.
      rewrite spelled_letter; [done|apply Hfam|by left]. }
  rewrite spaces1_spec. destruct (1 <=? length (spaces s1).1)%nat; [|exact Hplain].
  destruct (spaces s1) as [ws s2]. cbn [fst snd].
  pose proof (run_after_keyword fam (reverse ws ++ reverse m0 ++ sn) s2 (length sn) Hfam)
    as Hbrand.
  cbn [run] in Hbrand, Hplain.
  destruct (after_keyword fam s2) as [[m r]|];
    match type of Hbrand with same_reading ?x _ => destruct x end; done.
Qed.

(** A mention is not empty. *)
Lemma after_keyword_shorter fam s m r :
  good_family fam → after_keyword fam s = Some (m, r) → ∃ c s', s = c :: s'.
Proof.
  intros [Hkw _]. unfold after_keyword. destruct s as [|c s']; [|by eauto].
  by rewrite spelled_nil.
Qed.

Lemma read_mention_nil fam : good_family fam → read_mention fam [] = None.
Proof.
  intros Hfam. unfold read_mention.
  assert (after_keyword fam [] = None) as Hnone.
  { destruct (after_keyword fam []) as [[m r]|] eqn:Hm; [|done].
    by apply after_keyword_shorter in Hm as (c & s' & ?). }
  rewrite Hnone. by destruct (brand fam).
Qed.

(** ** The scan *)

Lemma den_lits_shorter kw a b :
  kw ≠ [] → den true (lits kw) a b → (length (rest b) < length (rest a))%nat.
Proof.
  intros Hne (suf & Hsuf & -> & _)%den_lits. rewrite length_app.
  apply Forall2_length in Hsuf. destruct kw; [done|]. cbn in Hsuf. lia.
Qed.

Lemma den_seq ic a b st st' :
  den ic (a ~> b) st st' → ∃ mid, den ic a st mid ∧ den ic b mid st'.
Proof. done. Qed.

Lemma attempt_mention_length fam sn rs st :
  keyword fam ≠ [] →
  attempt (Pattern (mention_re fam) true) false sn rs = Some st →
  (length (rest st) < length rs)%nat
  ∧ (length (seen st) - length sn = length rs - length (rest st))%nat.
Proof.
  intros Hkw Hat. apply attempt_den in Hat. pose proof (den_text _ _ _ _ Hat) as Htext.
  destruct Htext as (mid & Hrest & Hseen). cbn [rest seen] in Hrest, Hseen.
  split.
  - cbn [ignorecase rx] in Hat. unfold mention_re in Hat.
    apply den_seq in Hat as (m1 & H1 & Hat). apply den_seq in Hat as (m2 & H2 & H3).
    apply den_text in H1 as (x1 & E1 & _). apply den_lits_shorter in H2; [|done].
    apply den_text in H3 as (x3 & E3 & _). cbn [rest] in E1.
    rewrite E1, length_app. rewrite E3, length_app in H2. lia.
  - rewrite Hseen, Hrest, !length_app, length_reverse. lia.
Qed.

Lemma scan_mentions fam :
  good_family fam →
  ∀ rs sn skip,
    omap (λ m, group m 1)
         (omap (λ x, match x with Hit m => Some m | Gap _ => None end)
               (scan (Pattern (mention_re fam) true) sn rs skip))
    = m_token <$> mentions_go fam rs skip.
Proof.
  intros Hfam.
  assert (keyword fam ≠ []) as Hkw.
  { destruct Hfam as [Hk _]. by destruct (keyword fam). }
  induction rs as [|c rs IH]; intros sn skip.
  - destruct skip as [|n]; cbn [scan app mentions_go fmap list_fmap]; [|done].
    pose proof (attempt_mention fam sn [] Hfam) as Hag.
    rewrite read_mention_nil in Hag by done.
    by destruct (attempt (Pattern (mention_re fam) true) false sn []).
  - destruct skip as [|n]; cbn [scan app mentions_go]; [|apply IH].
    pose proof (attempt_mention fam sn (c :: rs) Hfam) as Hag.
    destruct (attempt (Pattern (mention_re fam) true) false sn (c :: rs)) as [st|] eqn:Hat;
      destruct (read_mention fam (c :: rs)) as [[m r]|]; try done.
    + destruct Hag as [Hrest Htok].
      destruct (attempt_mention_length fam sn (c :: rs) st Hkw Hat) as [Hlt Hlen].
      cbn [length] in Hlt, Hlen. rewrite Hrest in Hlt, Hlen.
      destruct (length (seen st) - length sn)%nat as [|n] eqn:Hn; [lia|].
      assert (n = (length rs - length r)%nat) as -> by lia.
      cbn [omap list_omap app group m_end]. rewrite Htok.
      cbn [fmap list_fmap]. f_equal. apply IH.
    + cbn [omap list_omap app]. apply IH.
Qed.

Lemma tokens_of_mentions fam title :
  good_family fam →
  tokens_of (Pattern (mention_re fam) true) title = m_token <$> mentions fam title.
Proof. intros Hfam. apply (scan_mentions fam Hfam). Qed.
End Reading.

(** * The names of the mentions *)

Section Names.
Context `{Runtime}.

(** ** What a reading consumes *)

Lemma spelled_spec w : ∀ s m r,
  spelled w s = Some (m, r) →
  Forall2 (λ p c, lit_eq true p c = true) w m ∧ s = m ++ r.
Proof.
  induction w as [|p w IH]; intros s m r.
  - intros [= <- <-]. by split; [constructor|].
  - destruct s as [|c s]; [done|]. cbn [spelled].
    destruct (ignorecase_eq p c) eqn:Hc; [|done].
    destruct (spelled w s) as [[m' r']|] eqn:Hm; [|done].
    intros [= <- <-]. destruct (IH _ _ _ Hm) as [Hf ->].
    split; [by constructor|done].
Qed.

Lemma spaces_spec : ∀ s, Forall (λ c, isspace c = true) (spaces s).1 ∧ s = (spaces s).1 ++ (spaces s).2.
Proof.
  induction s as [|c s [IH1 IH2]]; [by split; [constructor|]|].
  cbn [spaces]. destruct (isspace c) eqn:Hc; [|by split; [constructor|]].
  destruct (spaces s) as [ws r]. cbn [fst snd] in *. split; [by constructor|].
  cbn [app]. by f_equal.
Qed.

Lemma spaces1_Some s ws r :
  spaces1 s = Some (ws, r) → ws ≠ [] ∧ Forall (λ c, isspace c = true) ws ∧ s = ws ++ r.
Proof.
  unfold spaces1. pose proof (spaces_spec s) as [Hws Hs].
  destruct (spaces s) as [[|c ws'] r']; [done|]. intros [= <- <-]. done.
Qed.

(** A variant that is read squeezes to one of its casings. *)
Lemma read_variant_squeeze v : ∀ s text r,
  tidy v → read_variant v s = Some (text, r) →
  Forall2 (λ p c, c ∈ ci_variants p) (join v) (squeeze_go false text)
  ∧ head_ok text ∧ last_ok text ∧ text ≠ [].
Proof.
  induction v as [|w more IH]; intros s text r Htidy; [done|].
  destruct more as [|w' more].
  - destruct Htidy as (Hascii & Hne & Hh & Hl & Hsq). cbn [read_variant join].
    intros [Hm _]%spelled_spec. apply lits_variants in Hm; [|done].
    rewrite (squeeze_go_lits _ _ Hm) by done.
    split; [done|]. split; [by eapply head_ok_lits|].
    split; [by eapply last_ok_lits|]. by eapply lits_nonempty.
  - destruct Htidy as (Hw & Hne & Hmore).
    change (read_variant (w :: w' :: more) s)
      with (match spelled w s with
            | Some (m, s1) =>
                match spaces1 s1 with
                | Some (ws, s2) =>
                    match read_variant (w' :: more) s2 with
                    | Some (m', r) => Some (m ++ ws ++ m', r)
                    | None => None
                    end
                | None => None
                end
            | None => None
            end).
    change (join (w :: w' :: more)) with (w ++ [32] ++ join (w' :: more)).
    destruct (spelled w s) as [[m s1]|] eqn:Hm; [|done].
    destruct (spaces1 s1) as [[ws s2]|] eqn:Hws; [|done].
    destruct (read_variant (w' :: more) s2) as [[m' r']|] eqn:Hm'; [|done].
    intros [= <- <-].
    apply spelled_spec in Hm as [Hm _].
    apply lits_variants in Hm; [|by eapply Forall_impl; [exact Hw|]; intros ? []].
    apply spaces1_Some in Hws as (Hwsne & Hws & _).
    destruct (IH _ _ _ Hmore Hm') as (Hj & Hh' & Hl' & Hne').
    assert (Forall (λ c, isspace c = false) m) as Hns.
    { eapply lits_nonspace; [exact Hm|]. eapply Forall_impl; [exact Hw|]. by intros ? []. }
    assert (m ≠ []) as Hmne by (by eapply lits_nonempty).
    split; [|split; [|split]].
    + rewrite squeeze_go_nonspace by done. rewrite squeeze_go_gap by done.
      apply Forall2_app; [done|]. destruct ws as [|c ws]; [done|]. cbn [gap].
      apply Forall2_app; [|done]. constructor; [|constructor].
      apply (bool_decide_unpack _). by vm_compute.
    + apply head_ok_app; [done|]. destruct m as [|c m]; [done|].
      by apply Forall_cons in Hns as [? _].
    + rewrite app_assoc. by apply last_ok_app.
    + by destruct m.
Qed.

Lemma first_variant_Some vocab s text r :
  first_variant vocab s = Some (text, r) →
  ∃ v, v ∈ vocab ∧ read_variant v s = Some (text, r).
Proof.
  induction vocab as [|v vocab IH]; [done|]. cbn [first_variant].
  destruct (read_variant v s) as [[text' r']|] eqn:Hv.
  - destruct (word_ends text' r').
    + intros [= <- <-]. exists v. split; [by left|done].
    + intros (v' & ? & ?)%IH. exists v'. split; [by right|done].
  - intros (v' & ? & ?)%IH. exists v'. split; [by right|done].
Qed.

(** The token of a mention, squeezed, is in the table. *)
Lemma read_token_table vocab s m r :
  Forall tidy vocab → read_token vocab s = Some (m, r) →
  squeeze (strip (m_token m))
  = m_number m ++ gap (m_gap m) ++ squeeze (m_variant m)
  ∧ (m_number m, gap (m_gap m), squeeze (m_variant m)) ∈ token_table vocab.
Proof.
  intros Htidy. unfold read_token.
  destruct (read_number s) as [[num s1]|] eqn:Hnum; [|done].
  assert (∃ d1 xs2, num = d1 :: xs2 ∧ in_cset D19 d1 = true
                    ∧ Forall (λ c, in_cset D09 c = true) xs2 ∧ (length xs2 ≤ 1)%nat)
    as (d1 & xs2 & -> & Hd1 & Hxs2 & Hlen).
  { unfold read_number in Hnum. destruct s as [|d1 s']; [done|].
    destruct (in_range 49 57 d1) eqn:Hd1; [|done].
    destruct s' as [|d2 s2].
    - injection Hnum as <- <-. exists d1, [].
      split; [done|]. split; [done|]. split; [constructor|cbn; lia].
    - destruct (in_range 48 57 d2) eqn:Hd2; injection Hnum as <- <-.
      + exists d1, [d2].
        split; [done|]. split; [done|]. split; [by repeat constructor|cbn; lia].
      + exists d1, [].
        split; [done|]. split; [done|]. split; [constructor|cbn; lia]. }
  assert (Hin : ∀ sp suf,
            (sp = [] ∧ suf = [])
            ∨ (sp ∈ [[]; [32]] ∧ ∃ v, v ∈ vocab
                 ∧ Forall2 (λ p c, c ∈ ci_variants p) (join v) suf) →
            (d1 :: xs2, sp, suf) ∈ token_table vocab).
  { intros sp suf Hcase. unfold token_table.
    apply list_elem_of_bind. exists d1. split.
    2:{ apply in_range_spec in Hd1. by apply elem_of_digits. }
    apply list_elem_of_bind. exists xs2. split.
    2:{ destruct xs2 as [|d [|d' xs2]]; [by left| |cbn in Hlen; lia].
        right. apply (list_elem_of_fmap_2 (λ d, [d])).
        apply Forall_cons in Hxs2 as [Hd _]. apply in_range_spec in Hd.
        by apply elem_of_digits. }
    apply list_elem_of_bind. exists (sp, suf). split; [by apply list_elem_of_singleton|].
    destruct Hcase as [[-> ->]|(Hsp & v & Hv & Hsuf)]; [by left|].
    right. apply list_elem_of_bind. exists sp. split; [|done].
    apply list_elem_of_bind. exists v. split; [|done].
    apply list_elem_of_bind. exists suf. split; [by apply list_elem_of_singleton|].
    by apply elem_of_choices. }
  set (cut := match s1 with
              | c :: r0 => if isspace c then ([c], r0) else ([], s1)
              | [] => ([], s1)
              end).
  assert (Forall (λ c, isspace c = true) cut.1) as Hgap.
  { subst cut. destruct s1 as [|c r0]; [constructor|].
    destruct (isspace c) eqn:Hc; by repeat constructor. }
  destruct cut as [gp s2]. cbn [fst] in Hgap.
  destruct (first_variant vocab s2) as [[text r']|] eqn:Hfirst.
  - intros [= <- <-]. unfold m_token. cbn [m_number m_gap m_variant].
    apply first_variant_Some in Hfirst as (v & Hv & Hread).
    apply read_variant_squeeze in Hread as (Hj & Hh & Hl & Hne);
      [|by apply (proj1 (Forall_forall _ _) Htidy)].
    split.
    + by apply token_squeeze.
    + apply Hin. right. split; [apply gap_cases|]. by exists v.
  - destruct (word_ends (d1 :: xs2) s1); [|done].
    intros [= <- <-]. unfold m_token. cbn [m_number m_gap m_variant gap squeeze squeeze_go].
    rewrite !app_nil_r. split; [by apply number_squeeze|].
    apply Hin. by left.
Qed.

(** ** The normalisers on the table *)

Lemma pixel_table_ok :
  Forall (λ e, form_ok (vocabulary PIXEL) e = true) (token_table (vocabulary PIXEL)).
Proof. apply (bool_decide_unpack _). by vm_compute. Qed.

Lemma iphone_table_ok :
  Forall (λ e, form_ok (vocabulary IPHONE) e = true) (token_table (vocabulary IPHONE)).
Proof. apply (bool_decide_unpack _). by vm_compute. Qed.

Lemma pixel_render_table num sp suf :
  form_ok (vocabulary PIXEL) (num, sp, suf) = true →
  pixel_render (num ++ sp ++ suf)
  = (λ ending, py "Pixel " ++ num ++ ending) <$> lookup_str (lower suf) (endings PIXEL).
Proof.
  unfold form_ok, pixel_render. cbn [fst snd].
  change PixelAll.TOKEN_RE with (Pattern (form_re (vocabulary PIXEL)) true).
  destruct (re_match _ _) as [mm|]; [|done].
  intros [[H1%bool_decide_eq_true_1 H2%bool_decide_eq_true_1]%andb_prop _]%andb_prop.
  cbv zeta. rewrite H1, H2. cbn [default endings PIXEL lookup_str].
  repeat case_bool_decide; cbn [fmap option_fmap option_map]; by rewrite ?app_nil_r.
Qed.

Lemma iphone_render_table num sp suf :
  form_ok (vocabulary IPHONE) (num, sp, suf) = true →
  iphone_render (num ++ sp ++ suf)
  = (λ ending, py "iPhone " ++ num ++ ending) <$> lookup_str (lower suf) (endings IPHONE).
Proof.
  unfold form_ok, iphone_render. cbn [fst snd].
  change IPhoneAll.TOKEN_RE with (Pattern (form_re (vocabulary IPHONE)) true).
  destruct (re_match _ _) as [mm|]; [|done].
  intros [[H1%bool_decide_eq_true_1 H2%bool_decide_eq_true_1]%andb_prop
            H3%bool_decide_eq_true_1]%andb_prop.
  cbv zeta. rewrite H1, H2, H3. cbn [default endings IPHONE lookup_str].
  repeat case_bool_decide; cbn [fmap option_fmap option_map]; by rewrite ?app_nil_r.
Qed.

Lemma pixel_tidy : Forall tidy (vocabulary PIXEL).
Proof.
  repeat constructor; try done; try (by apply (bool_decide_unpack _)); by vm_compute.
Qed.

Lemma iphone_tidy : Forall tidy (vocabulary IPHONE).
Proof.
  repeat constructor; try done; try (by apply (bool_decide_unpack _)); by vm_compute.
Qed.

Lemma pixel_good : good_family PIXEL.
Proof. split; [done|]. repeat constructor; done. Qed.

Lemma iphone_good : good_family IPHONE.
Proof. split; [done|]. repeat constructor; done. Qed.

(** Each normaliser gives a mention the name of the table. *)
Lemma pixel_normalize_mention s m r :
  read_token (vocabulary PIXEL) s = Some (m, r) →
  PixelAll.normalize_model_token (m_token m) = model_of PIXEL m.
Proof.
  intros Hread. destruct (read_token_table _ _ _ _ pixel_tidy Hread) as [Hsq Hin].
  rewrite pixel_normalize_render, Hsq. rewrite pixel_render_table; [done|].
  by apply (proj1 (Forall_forall _ _) pixel_table_ok).
Qed.

Lemma iphone_normalize_mention s m r :
  read_token (vocabulary IPHONE) s = Some (m, r) →
  IPhoneAll.normalize_iphone_token (m_token m) = model_of IPHONE m.
Proof.
  intros Hread. destruct (read_token_table _ _ _ _ iphone_tidy Hread) as [Hsq Hin].
  rewrite iphone_normalize_render, Hsq. rewrite iphone_render_table; [done|].
  by apply (proj1 (Forall_forall _ _) iphone_table_ok).
Qed.

(** ** The mentions of a title *)

Lemma mentions_read fam : ∀ s skip m,
  m ∈ mentions_go fam s skip → ∃ s' r, read_token (vocabulary fam) s' = Some (m, r).
Proof.
  assert (Hafter : ∀ s m r, after_keyword fam s = Some (m, r) →
            ∃ s' r', read_token (vocabulary fam) s' = Some (m, r')).
  { intros s m r. unfold after_keyword.
    destruct (spelled (keyword fam) s) as [[m0 s1]|]; [|done].
    destruct (spaces1 s1) as [[ws s2]|]; [|done].
    destruct (read_token (vocabulary fam) s2) as [[m' r']|] eqn:Hread; [|done].
    intros [= <- _]. eauto. }
  induction s as [|c s IH]; intros skip m; [by intros ?%elem_of_nil|].
  destruct skip as [|n]; cbn [mentions_go]; [|apply IH].
  destruct (read_mention fam (c :: s)) as [[m' r]|] eqn:Hread; [|apply IH].
  intros [->|Hin]%elem_of_cons; [|by eapply IH].
  unfold read_mention in Hread.
  destruct (spelled (brand fam) (c :: s)) as [[m0 s1]|]; [|by eapply Hafter].
  destruct (spaces1 s1) as [[ws s2]|]; [|by eapply Hafter].
  destruct (after_keyword fam s2) as [[m1 r1]|] eqn:Hb; [|by eapply Hafter].
  injection Hread as <- <-. by eapply Hafter.
Qed.

Lemma model_of_nonempty fam m x :
  prefix fam ≠ [] → model_of fam m = Some x → x ≠ [].
Proof.
  unfold model_of. destruct (lookup_str _ _) as [e|]; [|done].
  intros Hp [= <-]. by destruct (prefix fam).
Qed.

Lemma models_of_mentions fam normalize title :
  prefix fam ≠ [] →
  (∀ s m r, read_token (vocabulary fam) s = Some (m, r) →
            normalize (m_token m) = model_of fam m) →
  models_of normalize (m_token <$> mentions fam title) = mentioned_models fam title.
Proof.
  intros Hp Hnorm. unfold models_of, mentioned_models, mentions.
  generalize 0%nat. induction title as [|c s IH]; intros skip; [done|].
  pose proof (mentions_read fam (c :: s) skip) as Hall.
  revert Hall. generalize (mentions_go fam (c :: s) skip). clear IH.
  induction l as [|m l IHl]; intros Hall; [done|].
  rewrite fmap_cons. cbn [omap list_omap].
  destruct (Hall m ltac:(by left)) as (s' & r & Hread).
  rewrite (Hnorm _ _ _ Hread).
  rewrite IHl by (intros; apply Hall; by right).
  destruct (model_of fam m) as [x|] eqn:Hx; [|done].
  apply model_of_nonempty in Hx; [|done]. by destruct x.
Qed.

(** The extractors answer from the models the title mentions. *)
Lemma pixel_recognized title :
  PixelAll.recognized title = mentioned_models PIXEL title.
Proof.
  unfold PixelAll.recognized.
  change PixelAll.MODEL_RE with (Pattern (mention_re PIXEL) true).
  rewrite tokens_of_mentions by apply pixel_good.
  apply models_of_mentions; [done|]. apply pixel_normalize_mention.
Qed.

Lemma iphone_recognized title :
  IPhoneAll.recognized title = mentioned_models IPHONE title.
Proof.
  unfold IPhoneAll.recognized.
  change IPhoneAll.IPHONE_MODEL_RE with (Pattern (mention_re IPHONE) true).
  rewrite tokens_of_mentions by apply iphone_good.
  apply models_of_mentions; [done|]. apply iphone_normalize_mention.
Qed.

End Names.
(** * The order of the variants in the scanning pattern *)

Section Casing.
Context `{Runtime}.

(** C2: [MODEL_RE] of pixel_all_only.py lists its variants as
    [Pro|XL|Pro XL|a], so on "Pixel 9 Pro XL", in any casing, the scan
    stops after "Pro" and the extractor answers "Pixel 9 Pro"; the
    pattern of test.py, which lists [Pro\s+XL] first, gives
    "Pixel 9 Pro XL" on the same titles. *)
Theorem C2_pro_xl_is_truncated (title : str) :
  Forall2 (λ p c, lit_eq true p c = true) (py "Pixel 9 Pro XL") title →
  PixelAll.extract_single_model_or_none title = Some (py "Pixel 9 Pro")
  ∧ TestPy.extract_single_model_or_none title = Some (py "Pixel 9 Pro XL").
Proof.
  intros Ht. apply lits_variants in Ht; [|by apply (bool_decide_unpack _)].
  apply elem_of_choices in Ht. revert title Ht.
  apply Forall_forall. apply (bool_decide_unpack _). by vm_compute.
Qed.
End Casing.

(** * The Pixel resolver and other separators *)

Section Separators.
Context `{Runtime}.

(** The file pattern of pixel_all_only.py ends the model in [\b] alone:
    asked for "Pixel 9" where "pixel 9 pro.csv" and "pixel 9.csv" both
    exist, it keeps both names and returns the first in sorted order. *)
Theorem pixel_resolver_keeps_longer_variant :
  PixelAll.find_csv_for_model [py "pixel 9.csv"; py "pixel 9 pro.csv"] (py "Pixel 9")
  = Ok (Some (py "pixel 9 pro.csv")).
Proof. by vm_compute. Qed.
End Separators.

(** ** The theorems at concrete inputs *)


Lemma C4_witness :
  @PixelAll.run sample_runtime [py "Pixel Fold"; py "Pixel 9"] sample_world
  = (Raise (ValueError (py "Model name not recognized: Pixel Fold")), sample_world).
Proof.
  refine (proj1 (proj2 (proj1 (@C4_unrecognized_name_ends_the_run sample_runtime
                                 sample_world [] (py "Pixel Fold") [py "Pixel 9"]) _))).
  by vm_compute.
Defined.

(** C4, as stated, fails: with "Pixel Fold" first in the list the run
    raises and "Pixel 9", which alone would be exported, is never
    processed. *)
Lemma C4_counterexample :
  @PixelAll.run sample_runtime [py "Pixel Fold"; py "Pixel 9"] sample_world
  = (Raise (ValueError (py "Model name not recognized: Pixel Fold")), sample_world)
  ∧ files (@PixelAll.run sample_runtime [py "Pixel Fold"; py "Pixel 9"] sample_world).2
      !! py "pixel_9_only.csv" = None
  ∧ is_Some (files (@PixelAll.run sample_runtime [py "Pixel 9"] sample_world).2
               !! py "pixel_9_only.csv").
Proof. split; [by vm_compute|split; [by vm_compute|]]. vm_compute. eauto. Qed.

Lemma C5_witness :
  @PixelAll.run sample_runtime [py "Pixel 8"; py "Pixel 9"] sample_world
  = @PixelAll.run sample_runtime [py "Pixel 9"]
      (print ([0x274C] ++ py " No CSV found for Pixel 8 in " ++ PixelAll.DATA_DIR)
             sample_world).
Proof.
  refine (proj2 (proj2 (proj1 (@C5_missing_source_is_skipped sample_runtime
                                 sample_world (py "Pixel 8") [py "Pixel 9"]) _))).
  by vm_compute.
Defined.

Lemma C6_witness :
  extract_condition (py "Very Good - Excellent battery") = py "Excellent".
Proof.
  apply (proj1 (C6_extract_condition_priority (py "Very Good - Excellent battery"))).
  by exists (py "Very Good - "), (py " battery").
Defined.

Lemma C10_witness :
  @extract_storage sample_runtime (py "12345GB") = py "2345 GB".
Proof.
  apply (@C10_long_digit_run sample_runtime [] (py "12345") 71 66 []).
  - simpl. lia.
  - repeat constructor.
  - by left.
  - by left.
  - done.
  - simpl. intros j ds Hj. lia.
Defined.

(** C10, as stated, fails: after "GB" the pattern asks for a word
    boundary, and an earlier size wins. *)
Lemma C10_counterexample :
  @extract_storage sample_runtime (py "12345GBs") = py "Unknown"
  ∧ @extract_storage sample_runtime (py "64GB 12345GB") = py "64 GB".
Proof. split; by vm_compute. Qed.
Lemma C2_witness :
  @PixelAll.extract_single_model_or_none sample_runtime (py "pixel 9 pro xl")
  = Some (py "Pixel 9 Pro")
  ∧ @TestPy.extract_single_model_or_none sample_runtime (py "pixel 9 pro xl")
    = Some (py "Pixel 9 Pro XL").
Proof.
  apply (@C2_pro_xl_is_truncated sample_runtime (py "pixel 9 pro xl")).
  repeat constructor.
Defined.

Lemma C3_witness :
  @PixelAll.find_csv_for_model sample_runtime
    [py "pixel_9_pro.csv"; py "pixel_9.csv"] (py "Pixel 9") = Ok (Some (py "pixel_9.csv"))
  ∧ @PixelAll.find_csv_for_model sample_runtime
      [py "pixel_9_pro.csv"; py "pixel_9.csv"] (py "Pixel 9")
    ≠ Ok (Some (py "pixel_9_pro.csv")).
Proof.
  split; [by vm_compute|].
  refine (proj1 (@C3_resolver_exclusivity sample_runtime
                   [py "pixel_9_pro.csv"; py "pixel_9.csv"] (py "pixel_9_pro.csv")) _ _).
  - by exists [], (py ".csv").
  - by vm_compute.
Defined.

(** C3, as stated, fails: the resolvers search the name, so a name that
    mentions the requested model before the longer one is returned. *)
Lemma C3_counterexample :
  @PixelAll.find_csv_for_model sample_runtime [py "pixel-9 pixel_9_pro.csv"] (py "Pixel 9")
  = Ok (Some (py "pixel-9 pixel_9_pro.csv"))
  ∧ contains (py "pixel_9_pro") (py "pixel-9 pixel_9_pro.csv") = true
  ∧ @IPhoneAll.find_csv_for_iphone sample_runtime
      [py "iphone-14-pro iphone-14-pro-max.csv"] (py "iPhone 14 Pro")
    = Ok (Some (py "iphone-14-pro iphone-14-pro-max.csv"))
  ∧ contains (py "iphone-14-pro-max") (py "iphone-14-pro iphone-14-pro-max.csv") = true.
Proof. repeat split; by vm_compute. Qed.

Lemma sample_titled : titled sample_frame.
Proof.
  split; [by left|]. intros row Hrow. unfold sample_frame in Hrow. cbn [rows] in Hrow.
  rewrite !elem_of_cons, elem_of_nil in Hrow.
  destruct Hrow as [->|[->|[->|[]]]]; eexists; by vm_compute.
Qed.

Lemma iphone_frame_titled : titled iphone_frame.
Proof.
  split; [by left|]. intros row Hrow. unfold iphone_frame in Hrow. cbn [rows] in Hrow.
  rewrite !elem_of_cons, elem_of_nil in Hrow.
  destruct Hrow as [->|[->|[->|[]]]]; eexists; by vm_compute.
Qed.



Lemma C9_witness :
  is_Some (@PixelAll.normalize_model_token sample_runtime (py "9 Pro"))
  ∧ is_Some (@IPhoneAll.normalize_iphone_token sample_runtime (py "14 Pro Max")).
Proof.
  split.
  - refine (proj1 (@C9_captured_tokens_normalize sample_runtime
                     (py "Google Pixel 9 Pro 128GB") (py "9 Pro")) _).
    vm_compute. left.
  - refine (proj2 (@C9_captured_tokens_normalize sample_runtime
                     (py "Apple iPhone 14 Pro  Max 256GB") (py "14 Pro  Max")) _ _).
    + vm_compute. left.
    + apply (bool_decide_unpack _). by vm_compute.
Defined.

(** C9, as stated, fails: IGNORECASE lets U+017F stand for the [s] of
    "Plus", so the scan captures the token, and [str.lower] leaves
    U+017F as it is, so the normaliser finds no variant and answers
    [None]; the title, with one model mention, gets no model. *)
Lemma C9_counterexample :
  @tokens_of sample_runtime IPhoneAll.IPHONE_MODEL_RE (py "iPhone 12 Plu" ++ [0x17F])
  = [py "12 Plu" ++ [0x17F]]
  ∧ @IPhoneAll.normalize_iphone_token sample_runtime (py "12 Plu" ++ [0x17F]) = None
  ∧ @IPhoneAll.extract_single_iphone_model_or_none sample_runtime
      (py "iPhone 12 Plu" ++ [0x17F]) = None.
Proof. repeat split; by vm_compute. Qed.
(** * Further properties of the scripts *)

(** ** The order of file names and the choice of the source file *)

Section NameOrder.

Lemma str_le_refl : ∀ a, str_le a a = true.
Proof.
  induction a as [|x a IH]; [done|]. cbn [str_le].
  by rewrite N.eqb_refl, IH, orb_true_r.
Qed.

Lemma str_le_total : ∀ a b, str_le a b = true ∨ str_le b a = true.
Proof.
  induction a as [|x a IH]; intros [|y b]; cbn [str_le]; auto.
  destruct (N.ltb_spec x y); [by left|].
  destruct (N.ltb_spec y x); [by right|].
  assert (x = y) as -> by lia. rewrite N.eqb_refl. cbn. apply IH.
Qed.

Lemma str_le_trans : ∀ a b c, str_le a b = true → str_le b c = true → str_le a c = true.
Proof.
  induction a as [|x a IH]; intros [|y b] [|z c]; cbn [str_le]; try done.
  rewrite !orb_true_iff, !andb_true_iff, !N.ltb_lt, !N.eqb_eq.
  intros [Hxy|[-> Hab]] [Hyz|[-> Hbc]].
  - left. lia.
  - by left.
  - by left.
  - right. split; [done|]. by eapply IH.
Qed.

Lemma str_le_antisym : ∀ a b, str_le a b = true → str_le b a = true → a = b.
Proof.
  induction a as [|x a IH]; intros [|y b]; cbn [str_le]; try done.
  rewrite !orb_true_iff, !andb_true_iff, !N.ltb_lt, !N.eqb_eq.
  intros [Hxy|[-> Hab]] [Hyx|[Heq Hba]]; try lia.
  f_equal. by apply IH.
Qed.

#[local] Instance str_le_Total : Total (λ a b, Is_true (str_le a b)).
Proof. intros a b. destruct (str_le_total a b); [left|right]; by apply Is_true_true. Qed.

#[local] Instance str_le_Transitive : Transitive (λ a b, Is_true (str_le a b)).
Proof.
  intros a b c Hab%Is_true_true Hbc%Is_true_true. apply Is_true_true. by eapply str_le_trans.
Qed.

#[local] Instance str_le_AntiSymm : AntiSymm eq (λ a b, Is_true (str_le a b)).
Proof. intros a b Hab%Is_true_true Hba%Is_true_true. by apply str_le_antisym. Qed.

Lemma sorted_Permutation l l' : l ≡ₚ l' → sorted l = sorted l'.
Proof.
  intros Hp. unfold sorted.
  apply (Sorted_unique (λ a b, Is_true (str_le a b))).
  - apply Sorted_merge_sort, _.
  - apply Sorted_merge_sort, _.
  - by rewrite !merge_sort_Permutation.
Qed.

Lemma head_sorted_least l f g :
  head (sorted l) = Some f → g ∈ l → str_le f g = true.
Proof.
  intros Hh Hg. unfold sorted in *.
  pose proof (StronglySorted_merge_sort (λ a b, Is_true (str_le a b)) l) as Hs.
  rewrite <- (merge_sort_Permutation (λ a b, Is_true (str_le a b)) l) in Hg.
  destruct (merge_sort _ l) as [|x s]; [done|]. injection Hh as ->.
  apply elem_of_cons in Hg as [->|Hg]; [apply str_le_refl|].
  apply StronglySorted_inv in Hs as [_ Hs].
  apply Is_true_true. by apply (proj1 (Forall_forall _ _) Hs).
Qed.

Lemma head_sorted_None l : head (sorted l) = None → l = [].
Proof.
  intros Hh%head_None. unfold sorted in Hh.
  apply Permutation_nil_r. by rewrite <- Hh, merge_sort_Permutation.
Qed.

Lemma sorted_singleton (g : str) : sorted [g] = [g].
Proof. done. Qed.
End NameOrder.

Section Pick.
Context `{Runtime}.

Lemma endswith_csv_glob dir name :
  name ∈ glob_csv dir ↔ name ∈ dir ∧ endswith (py ".csv") name = true.
Proof.
  unfold glob_csv. rewrite list_elem_of_filter, Is_true_true. tauto.
Qed.

Lemma pick_Permutation pat dir dir' : dir ≡ₚ dir' → pick pat dir = pick pat dir'.
Proof.
  intros Hp. unfold pick, glob_csv. f_equal. apply sorted_Permutation.
  by rewrite Hp.
Qed.

(** The choice depends on the names the pattern accepts only. *)
Lemma pick_same_candidates pat dir dir' :
  NoDup dir → NoDup dir' →
  (∀ name, pick pat [name] = Some name → (name ∈ dir ↔ name ∈ dir')) →
  pick pat dir = pick pat dir'.
Proof.
  intros Hd Hd' Hsame. unfold pick in *. f_equal. apply sorted_Permutation.
  apply NoDup_Permutation; [by do 2 apply NoDup_filter..|].
  intros name. rewrite !list_elem_of_filter, !endswith_csv_glob.
  split; intros (Hm & Hin & Hcsv); (split; [done|split; [|done]]);
    apply Hsame; try done; unfold glob_csv; cbn [filter list_filter];
    rewrite decide_True by (by apply Is_true_true); cbn [filter list_filter];
    by rewrite decide_True.
Qed.

Lemma pick_Some pat dir f :
  pick pat dir = Some f →
  f ∈ dir ∧ endswith (py ".csv") f = true ∧ is_Some (re_search pat f)
  ∧ ∀ g, g ∈ dir → endswith (py ".csv") g = true → is_Some (re_search pat g) →
         str_le f g = true.
Proof.
  intros Hp. unfold pick in Hp.
  pose proof (head_sorted_elem _ _ Hp) as Hf.
  apply list_elem_of_filter in Hf as [Hm Hf]. apply endswith_csv_glob in Hf as [Hin Hcsv].
  repeat (split; [done|]). intros g Hg Hgc Hgm.
  eapply head_sorted_least; [exact Hp|].
  apply list_elem_of_filter. split; [done|]. by apply endswith_csv_glob.
Qed.

Lemma pick_None pat dir g :
  pick pat dir = None → g ∈ dir → endswith (py ".csv") g = true → re_search pat g = None.
Proof.
  intros Hp%head_sorted_None Hg Hcsv.
  destruct (re_search pat g) as [m|] eqn:Hm; [|done].
  assert (g ∈ filter (λ name, is_Some (re_search pat name)) (glob_csv dir)) as Hin.
  { apply list_elem_of_filter. split; [by rewrite Hm|]. by apply endswith_csv_glob. }
  rewrite Hp in Hin. by apply elem_of_nil in Hin.
Qed.

Lemma pick_singleton pat g :
  pick pat [g] = Some g ↔ endswith (py ".csv") g = true ∧ is_Some (re_search pat g).
Proof.
  split.
  - intros (_ & ? & ? & _)%pick_Some. done.
  - intros [Hcsv Hm]. unfold pick, glob_csv. cbn [filter list_filter].
    rewrite decide_True by (by apply Is_true_true). cbn [filter list_filter].
    by rewrite decide_True.
Qed.

Lemma pick_singleton_None pat g :
  pick pat [g] = None ↔ ¬ (endswith (py ".csv") g = true ∧ is_Some (re_search pat g)).
Proof.
  rewrite <- pick_singleton. split.
  - by intros ->.
  - intros Hn. destruct (pick pat [g]) as [f|] eqn:Hp; [|done].
    pose proof (pick_Some _ _ _ Hp) as (->%list_elem_of_singleton & _). done.
Qed.

(** Each resolver either rejects the name or picks by a pattern made
    from the name alone. *)
Lemma pixel_find_shape model_name :
  (∃ e, ∀ dir, PixelAll.find_csv_for_model dir model_name = Raise e)
  ∨ (∃ pat, ∀ dir, PixelAll.find_csv_for_model dir model_name = Ok (pick pat dir)).
Proof.
  unfold PixelAll.find_csv_for_model.
  destruct (re_match PixelAll.NAME_RE model_name); [right|left]; eauto.
Qed.

Lemma iphone_find_shape model_name :
  (∃ e, ∀ dir, IPhoneAll.find_csv_for_iphone dir model_name = Raise e)
  ∨ (∃ pat, ∀ dir, IPhoneAll.find_csv_for_iphone dir model_name = Ok (pick pat dir)).
Proof.
  unfold IPhoneAll.find_csv_for_iphone.
  destruct (re_match IPhoneAll.NAME_RE model_name); [right|left]; eauto.
Qed.

Lemma testpy_find_shape model_name :
  (∃ e, ∀ dir, TestPy.find_csv_for_model dir model_name = Raise e)
  ∨ (∃ pat, ∀ dir, TestPy.find_csv_for_model dir model_name = Ok (pick pat dir)).
Proof.
  unfold TestPy.find_csv_for_model.
  destruct (re_match TestPy.NAME_RE model_name); [|left; eauto].
  repeat case_bool_decide; cbn [mbind result_bind]; eauto.
Qed.

Lemma only_find_shape model_name :
  (∃ e, ∀ dir, PixelOnly.find_csv_for_model dir model_name = Raise e)
  ∨ (∃ pat, ∀ dir, PixelOnly.find_csv_for_model dir model_name = Ok (pick pat dir)).
Proof.
  unfold PixelOnly.find_csv_for_model.
  destruct (re_match PixelOnly.NAME_RE model_name); [right|left]; eauto.
Qed.

(** What a resolver of that shape answers. *)
Lemma find_least (find : list str → result (option str)) :
  (∃ e, ∀ dir, find dir = Raise e) ∨ (∃ pat, ∀ dir, find dir = Ok (pick pat dir)) →
  ∀ dir,
    (∀ f, find dir = Ok (Some f) →
          f ∈ dir ∧ endswith (py ".csv") f = true ∧ find [f] = Ok (Some f)
          ∧ ∀ g, g ∈ dir → find [g] = Ok (Some g) → str_le f g = true)
    ∧ (find dir = Ok None → ∀ g, g ∈ dir → find [g] = Ok None).
Proof.
  intros [[e He]|[pat Hp]] dir; [rewrite He; by split|].
  rewrite !Hp. split.
  - intros f [= Hf]. pose proof (pick_Some _ _ _ Hf) as (Hin & Hcsv & Hm & Hleast).
    repeat (split; [done|]). split.
    + rewrite Hp. f_equal. by apply pick_singleton.
    + intros g Hg. rewrite Hp. intros [= [Hgc Hgm]%pick_singleton]. by apply Hleast.
  - intros [= Hn] g Hg. rewrite Hp. f_equal. apply pick_singleton_None.
    intros [Hgc [m Hgm]]. by rewrite (pick_None _ _ _ Hn Hg Hgc) in Hgm.
Qed.

Lemma find_Permutation (find : list str → result (option str)) :
  (∃ e, ∀ dir, find dir = Raise e) ∨ (∃ pat, ∀ dir, find dir = Ok (pick pat dir)) →
  ∀ dir dir', dir ≡ₚ dir' → find dir = find dir'.
Proof.
  intros [[e He]|[pat Hp]] dir dir' Hperm; [by rewrite !He|].
  rewrite !Hp. f_equal. by apply pick_Permutation.
Qed.

(** The source file is the least candidate: a resolver answers a name
    of the directory that ends in ".csv", that it would also answer if
    the name were alone, and that comes first, by code point, among
    such names; it answers [None] only when it would for each name
    alone.  For the four resolvers. *)
Theorem resolver_answers_least_candidate (dir : list str) (model_name : str) :
  answers_least PixelAll.find_csv_for_model dir model_name
  ∧ answers_least IPhoneAll.find_csv_for_iphone dir model_name
  ∧ answers_least TestPy.find_csv_for_model dir model_name
  ∧ answers_least PixelOnly.find_csv_for_model dir model_name.
Proof.
  split; [|split; [|split]].
  - apply (find_least (λ d, PixelAll.find_csv_for_model d model_name)), pixel_find_shape.
  - apply (find_least (λ d, IPhoneAll.find_csv_for_iphone d model_name)), iphone_find_shape.
  - apply (find_least (λ d, TestPy.find_csv_for_model d model_name)), testpy_find_shape.
  - apply (find_least (λ d, PixelOnly.find_csv_for_model d model_name)), only_find_shape.
Qed.

(** The answer of a resolver does not depend on the order in which the
    directory lists its files ("sorted for determinism", as
    pixel_only.py says).  For the four resolvers. *)
Theorem resolver_ignores_listing_order (dir dir' : list str) (model_name : str) :
  dir ≡ₚ dir' →
  PixelAll.find_csv_for_model dir model_name = PixelAll.find_csv_for_model dir' model_name
  ∧ IPhoneAll.find_csv_for_iphone dir model_name
    = IPhoneAll.find_csv_for_iphone dir' model_name
  ∧ TestPy.find_csv_for_model dir model_name = TestPy.find_csv_for_model dir' model_name
  ∧ PixelOnly.find_csv_for_model dir model_name
    = PixelOnly.find_csv_for_model dir' model_name.
Proof.
  intros Hperm. repeat split.
  - exact (find_Permutation (λ d, PixelAll.find_csv_for_model d model_name)
             (pixel_find_shape _) _ _ Hperm).
  - exact (find_Permutation (λ d, IPhoneAll.find_csv_for_iphone d model_name)
             (iphone_find_shape _) _ _ Hperm).
  - exact (find_Permutation (λ d, TestPy.find_csv_for_model d model_name)
             (testpy_find_shape _) _ _ Hperm).
  - exact (find_Permutation (λ d, PixelOnly.find_csv_for_model d model_name)
             (only_find_shape _) _ _ Hperm).
Qed.
End Pick.
(** ** The names a normaliser builds *)

Section Canonical.
Context `{Runtime}.

Lemma den_group_free ic : ∀ r a b,
  group_free r = true → den ic r a b → groups b = groups a.
Proof.
  induction r as [|p|cs|r1 IH1 r2 IH2|r1 IH1 r2 IH2|r IH|cs lo hi|n r IH|r IH| | |];
    intros a b Hf; cbn [den]; cbn [group_free] in Hf.
  - by intros ->.
  - by intros (c & rs & _ & _ & ->).
  - by intros (c & rs & _ & _ & ->).
  - apply andb_true_iff in Hf as [Hf1 Hf2]. intros (mid & Ha & Hb).
    rewrite (IH2 _ _ Hf2 Hb). by apply IH1.
  - apply andb_true_iff in Hf as [Hf1 Hf2]. intros [Ha|Hb]; [by apply IH1|by apply IH2].
  - intros [Ha| ->]; [by apply IH|done].
  - by intros (xs & rs & _ & _ & _ & _ & ->).
  - done.
  - by intros [-> _].
  - by intros [-> _].
  - by intros [-> _].
  - by intros [-> _].
Qed.

Lemma elem_of_numbers d1 xs2 :
  in_cset D19 d1 = true → Forall (λ c, in_cset D09 c = true) xs2 → (length xs2 ≤ 1)%nat →
  d1 :: xs2 ∈ numbers.
Proof.
  intros Hd1 Hxs2 Hlen. unfold numbers.
  apply list_elem_of_bind. exists d1. split.
  2:{ apply in_range_spec in Hd1. by apply elem_of_digits. }
  apply list_elem_of_bind. exists xs2. split; [by apply list_elem_of_singleton|].
  destruct xs2 as [|d [|d' xs2]]; [by left| |cbn in Hlen; lia].
  right. apply (list_elem_of_fmap_2 (λ d, [d])).
  apply Forall_cons in Hxs2 as [Hd _]. apply in_range_spec in Hd. by apply elem_of_digits.
Qed.

Lemma elem_of_canonical family endings num ending :
  num ∈ numbers → ending ∈ endings → family ++ num ++ ending ∈ canonical family endings.
Proof.
  intros Hnum Hend. unfold canonical.
  apply list_elem_of_bind. exists num. split; [|done].
  apply list_elem_of_bind. exists ending. split; [|done]. by apply list_elem_of_singleton.
Qed.

(** Group 1 of a token pattern is a number. *)
Lemma token_group1 S t m :
  group_free S = true →
  re_match (Pattern (Bol ~> Group 1 (OneOf D19 ~> Rep D09 0 (Some 1%nat))
                     ~> Opt (Rep CSpace 0 (Some 1%nat) ~> Group 2 S) ~> Eol) true) t
  = Some m →
  default (py "None") (group m 1) ∈ numbers.
Proof.
  intros HS. unfold re_match.
  destruct (attempt _ false [] t) as [st|] eqn:Hat; [|done]. intros [= <-].
  apply attempt_den in Hat. cbn [rx ignorecase den] in Hat.
  destruct Hat as (m0 & [-> _] & m1 & (m2 & (m3 & (d1 & rs1 & Hr & Hd1 & ->)
                   & (xs2 & rs2 & Hr1 & _ & Hlen & Hxs2 & ->)) & ->) & m4 & Hopt & [-> _]).
  cbn [rest seen groups set_group] in *.
  assert (assoc 1 (groups m4) = Some (d1 :: xs2)) as Hg.
  { assert (span (MState [] t []) (MState (reverse xs2 ++ [d1]) rs2 []) = d1 :: xs2) as Hsp.
    { replace (reverse xs2 ++ [d1]) with (reverse (d1 :: xs2) ++ []); [apply span_app|].
      by rewrite reverse_cons, app_nil_r. }
    destruct Hopt as [(m5 & (ws & rs3 & _ & _ & _ & _ & ->) & (m6 & HdS & ->))| ->].
    - cbn [rest seen groups set_group] in *.
      apply den_group_free in HdS; [|done]. cbn [groups] in *. rewrite HdS.
      cbn [assoc Nat.eqb]. by rewrite Hsp.
    - cbn [rest seen groups set_group assoc Nat.eqb]. by rewrite Hsp. }
  cbn [group m_end]. rewrite Hg. cbn [default]. by apply elem_of_numbers.
Qed.

Lemma pixel_normalize_range tok c :
  PixelAll.normalize_model_token tok = Some c → c ∈ canonical (py "Pixel ") PIXEL_ENDINGS.
Proof.
  unfold PixelAll.normalize_model_token. cbv zeta.
  destruct (re_match PixelAll.TOKEN_RE _) as [m|] eqn:Hm; [|done].
  apply token_group1 in Hm; [|done].
  repeat case_bool_decide; intros Hc; try done; apply (inj Some) in Hc; subst c;
    first [ apply elem_of_canonical
          | rewrite <- (app_nil_r (default (py "None") _)); apply elem_of_canonical ];
    first [ done | apply (bool_decide_unpack _); by vm_compute ].
Qed.

Lemma iphone_normalize_range tok c :
  IPhoneAll.normalize_iphone_token tok = Some c →
  c ∈ canonical (py "iPhone ") IPHONE_ENDINGS.
Proof.
  unfold IPhoneAll.normalize_iphone_token. cbv zeta.
  destruct (re_match IPhoneAll.TOKEN_RE _) as [m|] eqn:Hm; [|done].
  apply token_group1 in Hm; [|done].
  repeat case_bool_decide; intros Hc; try done; apply (inj Some) in Hc; subst c;
    first [ apply elem_of_canonical
          | rewrite <- (app_nil_r (default (py "None") _)); apply elem_of_canonical ];
    first [ done | apply (bool_decide_unpack _); by vm_compute ].
Qed.

Lemma testpy_normalize_range tok c :
  TestPy.normalize_model_token tok = Some c → c ∈ canonical (py "Pixel ") PIXEL_ENDINGS.
Proof.
  unfold TestPy.normalize_model_token. cbv zeta.
  destruct (re_match TestPy.TOKEN_RE _) as [m|] eqn:Hm; [|done].
  apply token_group1 in Hm; [|done].
  repeat case_bool_decide; intros Hc; try done; apply (inj Some) in Hc; subst c;
    first [ apply elem_of_canonical
          | rewrite <- (app_nil_r (default (py "None") _)); apply elem_of_canonical ];
    first [ done | apply (bool_decide_unpack _); by vm_compute ].
Qed.

Lemma only_normalize_range tok c :
  PixelOnly.normalize_model_token tok = Some c → c ∈ canonical (py "Pixel ") ONLY_ENDINGS.
Proof.
  unfold PixelOnly.normalize_model_token. cbv zeta.
  destruct (re_match PixelOnly.TOKEN_RE _) as [m|] eqn:Hm; [|done].
  apply token_group1 in Hm; [|done].
  repeat case_bool_decide; intros Hc; try done; apply (inj Some) in Hc; subst c;
    first [ apply elem_of_canonical
          | rewrite <- (app_nil_r (default (py "None") _)); apply elem_of_canonical ];
    first [ done | apply (bool_decide_unpack _); by vm_compute ].
Qed.

(** A normaliser answers nothing or a canonical name: the family, a
    number of one or two ASCII digits that does not start with 0, and
    one of the endings of the script.  For the four normalisers. *)
Theorem normalizers_answer_canonical_names (tok c : str) :
  (PixelAll.normalize_model_token tok = Some c →
     c ∈ canonical (py "Pixel ") PIXEL_ENDINGS)
  ∧ (IPhoneAll.normalize_iphone_token tok = Some c →
     c ∈ canonical (py "iPhone ") IPHONE_ENDINGS)
  ∧ (TestPy.normalize_model_token tok = Some c →
     c ∈ canonical (py "Pixel ") PIXEL_ENDINGS)
  ∧ (PixelOnly.normalize_model_token tok = Some c →
     c ∈ canonical (py "Pixel ") ONLY_ENDINGS).
Proof.
  split; [apply pixel_normalize_range|].
  split; [apply iphone_normalize_range|].
  split; [apply testpy_normalize_range|apply only_normalize_range].
Qed.

Lemma iphone_canonical_kept :
  Forall (λ c, IPhoneAll.extract_single_iphone_model_or_none c = Some c)
         (canonical (py "iPhone ") IPHONE_ENDINGS).
Proof. apply (bool_decide_unpack _). by vm_compute. Qed.

Lemma testpy_canonical_kept :
  Forall (λ c, TestPy.extract_single_model_or_none c = Some c)
         (canonical (py "Pixel ") PIXEL_ENDINGS).
Proof. apply (bool_decide_unpack _). by vm_compute. Qed.

Lemma only_canonical_kept :
  Forall (λ c, PixelOnly.extract_single_model_or_none c = Some c)
         (canonical (py "Pixel ") ONLY_ENDINGS).
Proof. apply (bool_decide_unpack _). by vm_compute. Qed.

Lemma pixel_canonical_kept :
  Forall (λ c, PixelAll.extract_single_model_or_none c
               = Some (if endswith (py " Pro XL") c then take (length c - 3) c else c))
         (canonical (py "Pixel ") PIXEL_ENDINGS).
Proof. apply (bool_decide_unpack _). by vm_compute. Qed.

(** A canonical name is a title of its own model: the extractor of
    iphone_all_only.py, of test.py and of pixel_only.py answers every
    name its normaliser builds with that name.  The extractor of
    pixel_all_only.py does so except on the names that end in
    " Pro XL", which it answers without the " XL". *)
Theorem canonical_names_are_kept (tok c : str) :
  (IPhoneAll.normalize_iphone_token tok = Some c →
     IPhoneAll.extract_single_iphone_model_or_none c = Some c)
  ∧ (TestPy.normalize_model_token tok = Some c →
     TestPy.extract_single_model_or_none c = Some c)
  ∧ (PixelOnly.normalize_model_token tok = Some c →
     PixelOnly.extract_single_model_or_none c = Some c)
  ∧ (PixelAll.normalize_model_token tok = Some c →
     PixelAll.extract_single_model_or_none c
     = Some (if endswith (py " Pro XL") c then take (length c - 3) c else c)).
Proof.
  split; [|split; [|split]].
  - intros Hc%iphone_normalize_range. by apply (proj1 (Forall_forall _ _) iphone_canonical_kept).
  - intros Hc%testpy_normalize_range. by apply (proj1 (Forall_forall _ _) testpy_canonical_kept).
  - intros Hc%only_normalize_range. by apply (proj1 (Forall_forall _ _) only_canonical_kept).
  - intros Hc%pixel_normalize_range. by apply (proj1 (Forall_forall _ _) pixel_canonical_kept).
Qed.
End Canonical.
(** ** The configured models and the grammar of the resolvers *)

Section Configured.
Context `{Runtime}.

Lemma find_ok_anywhere (find : list str → result (option str)) :
  (∃ e, ∀ dir, find dir = Raise e) ∨ (∃ pat, ∀ dir, find dir = Ok (pick pat dir)) →
  match find [] with Ok _ => true | Raise _ => false end = true →
  ∀ dir, ∃ r, find dir = Ok r.
Proof.
  intros [[e He]|[pat Hp]] Hnil dir; [by rewrite He in Hnil|]. rewrite Hp. eauto.
Qed.

(** No configured model is refused: for every model of the list of
    pixel_all_only.py, of iphone_all_only.py and of test.py, the
    resolver of the script answers a file or [None], in any directory,
    and does not raise. *)
Theorem configured_models_are_accepted (dir : list str) (model : str) :
  (model ∈ PixelAll.MODELS → ∃ r, PixelAll.find_csv_for_model dir model = Ok r)
  ∧ (model ∈ IPhoneAll.IPHONE_MODELS → ∃ r, IPhoneAll.find_csv_for_iphone dir model = Ok r)
  ∧ (model ∈ TestPy.MODELS → ∃ r, TestPy.find_csv_for_model dir model = Ok r).
Proof.
  split; [|split]; intros Hm.
  - apply (find_ok_anywhere (λ d, PixelAll.find_csv_for_model d model)
             (pixel_find_shape _)).
    revert model Hm. apply Forall_forall. apply (bool_decide_unpack _). by vm_compute.
  - apply (find_ok_anywhere (λ d, IPhoneAll.find_csv_for_iphone d model)
             (iphone_find_shape _)).
    revert model Hm. apply Forall_forall. apply (bool_decide_unpack _). by vm_compute.
  - apply (find_ok_anywhere (λ d, TestPy.find_csv_for_model d model)
             (testpy_find_shape _)).
    revert model Hm. apply Forall_forall. apply (bool_decide_unpack _). by vm_compute.
Qed.

(** The grammar of pixel_only.py asks for "Pro" after the number. *)
Lemma only_name_needs_pro (num : str) :
  Forall (λ c, ascii_isdigit c = true) num →
  re_match PixelOnly.NAME_RE (py "Pixel " ++ num) = None.
Proof.
  intros Hnum. unfold re_match.
  destruct (attempt _ false [] _) as [st|] eqn:Hat; [exfalso|done].
  apply attempt_den in Hat.
  let r := eval vm_compute in (rx PixelOnly.NAME_RE) in
    change (rx PixelOnly.NAME_RE) with r in Hat.
  py_eval. cbn [den app ignorecase PixelOnly.NAME_RE] in Hat. den_inv. simplify_eq/=.
  repeat match goal with
  | Hf : Forall (λ c, isspace c = true) ?xs, Heq : ?c :: _ = ?xs ++ _ |- _ =>
      destruct xs as [|? xs]; simplify_eq/=; [try (cbn in *; lia)|];
      apply Forall_cons in Hf as [Hsp Hf]
  end.
  match goal with
  | Hlen : (1 <= length ?ws)%nat, Hws : Forall (λ c, isspace c = true) ?ws |- _ =>
      destruct ws as [|c ws]; [cbn in Hlen; lia|];
      apply Forall_cons in Hws as [Hc _]
  end.
  do 2 apply Forall_app in Hnum as [_ Hnum]. apply Forall_cons in Hnum as [Hd _].
  apply ascii_digit_not_space in Hd. congruence.
Qed.

(** pixel_only.py refuses the model it is configured for: its resolver
    takes "Pixel N Pro" only, so for every base name "Pixel N" it raises
    [ValueError], and the run over its [MODELS], which is ["Pixel 7"],
    ends with that exception in any directory, before a file is read or
    written. *)
Theorem pixel_only_refuses_base_models (num : str) (dir : list str) (w : World) :
  Forall (λ c, ascii_isdigit c = true) num →
  PixelOnly.find_csv_for_model dir (py "Pixel " ++ num)
  = Raise (ValueError (py "Model name not recognized: Pixel " ++ num))
  ∧ PixelOnly.run PixelOnly.MODELS w
    = (Raise (ValueError (py "Model name not recognized: Pixel 7")), w).
Proof.
  intros Hnum. split.
  - unfold PixelOnly.find_csv_for_model. rewrite only_name_needs_pro by done.
    reflexivity.
  - unfold PixelOnly.run, PixelOnly.MODELS, for_each, PixelOnly.export_model_subset,
      PixelOnly.find_csv_for_model.
    change (py "Pixel 7") with (py "Pixel " ++ py "7").
    by rewrite (only_name_needs_pro (py "7")) by (by repeat constructor).
Qed.
End Configured.
(** ** What [clean_and_filter] keeps and when it raises *)

Section CleanRows.
Context `{Runtime}.

Lemma single_elem models m : single models = Some m → m ∈ models.
Proof.
  unfold single. destruct (fromkeys models) as [|a [|b l]] eqn:Hf; try done.
  intros [= <-]. apply elem_of_fromkeys. rewrite Hf. by left.
Qed.

Lemma models_of_elem (normalize : str → option str) tokens m :
  m ∈ models_of normalize tokens → ∃ tok, tok ∈ tokens ∧ normalize tok = Some m.
Proof.
  unfold models_of. intros (tok & Htok & Hm)%list_elem_of_omap. exists tok. split; [done|].
  destruct (normalize tok) as [[|c s]|]; congruence.
Qed.

Lemma pixel_extract_canonical title m :
  PixelAll.extract_single_model_or_none title = Some m →
  m ∈ canonical (py "Pixel ") PIXEL_ENDINGS.
Proof.
  intros (tok & _ & Hn)%single_elem%models_of_elem. by eapply pixel_normalize_range.
Qed.

Lemma iphone_extract_canonical title m :
  IPhoneAll.extract_single_iphone_model_or_none title = Some m →
  m ∈ canonical (py "iPhone ") IPHONE_ENDINGS.
Proof.
  intros (tok & _ & Hn)%single_elem%models_of_elem. by eapply iphone_normalize_range.
Qed.

(** A text without "_" after [replace(' ', '_')] had no space. *)
Lemma replace_space_id : ∀ s, 95 ∉ replace_go [32] [95] s 0 → replace_go [32] [95] s 0 = s.
Proof.
  induction s as [|c s IH]; [done|]. cbn [replace_go startswith length Nat.sub].
  destruct (N.eqb_spec 32 c) as [<-|Hc]; cbn [andb app].
  - intros Hno. exfalso. apply Hno. by left.
  - intros Hno. f_equal. apply IH. intros Hin. apply Hno. by right.
Qed.

Lemma flag_col_model target :
  replace (py " ") (py "_") target = py "Model" → target = py "Model".
Proof.
  change (replace (py " ") (py "_") target) with (replace_go [32] [95] target 0).
  intros Heq. rewrite <- (replace_space_id target); [done|].
  rewrite Heq. apply (bool_decide_unpack _). by vm_compute.
Qed.

Lemma pixel_flag_ne_model target :
  target ∈ canonical (py "Pixel ") PIXEL_ENDINGS →
  replace (py " ") (py "_") target ≠ py "Model".
Proof.
  intros Hc Heq%flag_col_model. subst target. revert Hc.
  apply (bool_decide_unpack _). by vm_compute.
Qed.

Lemma casefold_model_ne m :
  m ∈ canonical (py "iPhone ") IPHONE_ENDINGS → casefold m ≠ casefold (py "Model").
Proof.
  revert m. apply Forall_forall. apply (bool_decide_unpack _). by vm_compute.
Qed.

Lemma apply_str_bad {A} (f : str → A) (series : list cell) c :
  c ∈ series → (∀ s, c ≠ CStr s) → apply_str f series = Raise TypeError.
Proof.
  unfold apply_str. induction series as [|x l IH]; intros Hin Hc.
  - by apply elem_of_nil in Hin.
  - cbn [mapM]. apply elem_of_cons in Hin as [<-|Hin].
    + destruct c; try done. by destruct (Hc s).
    + destruct x; try done. cbn [mbind result_bind]. by rewrite IH.
Qed.

(** What is kept: the result of [clean_and_filter] has, in the order of
    the frame, the rows whose title yields the requested model
    (compared as it is in pixel_all_only.py, after [casefold] in
    iphone_all_only.py), each with its new cells and the date pandas
    reads for it; every row of the result carries that model in
    "Model" and [True] in the flag column. *)
Theorem clean_keeps_the_rows_of_the_model (df : DataFrame) (target : str) :
  titled df →
  (∃ out, PixelAll.clean_and_filter_for_model df target = Ok out
     ∧ rows out
       = (λ p, pixel_row (bool_decide (py "Sold Date" ∈ columns df)) target p.1 p.2)
         <$> filter (λ p, PixelAll.extract_single_model_or_none (title_text p.1)
                          = Some target)
                    (zip (rows df) (pixel_dates df))
     ∧ ∀ r, r ∈ rows out →
            r !! py "Model" = Some (CStr target)
            ∧ r !! replace (py " ") (py "_") target = Some (CBool true))
  ∧ (∃ out, IPhoneAll.clean_and_filter_for_iphone df target = Ok out
     ∧ rows out
       = (λ p, iphone_row (bool_decide (py "Sold Date" ∈ columns df)) target p.1 p.2)
         <$> filter (λ p, Is_true (IPhoneAll.eq_casefold target
                       (model_cell (IPhoneAll.extract_single_iphone_model_or_none
                                      (title_text p.1)))))
                    (zip (with_model (rows df)) (iphone_dates df))
     ∧ ∀ r, r ∈ rows out →
            (∃ m, r !! py "Model" = Some (CStr m) ∧ casefold m = casefold target)
            ∧ r !! replace (py " ") (py "_") target = Some (CBool true)).
Proof.
  intros Ht. split.
  - destruct (pixel_clean_spec df target Ht) as [cols ->].
    eexists. split; [done|]. split; [done|]. cbn [rows].
    intros r ([row date] & -> & [Hrow _]%list_elem_of_filter)%list_elem_of_fmap.
    cbn [fst snd] in *.
    unfold pixel_row; cbv zeta. rewrite lookup_insert_eq. split; [|done].
    rewrite lookup_insert_ne by (by apply pixel_flag_ne_model, (pixel_extract_canonical _ _ Hrow)).
    by rewrite lookup_insert_eq, Hrow.
  - destruct (iphone_clean_spec df target Ht) as [cols ->].
    eexists. split; [done|]. split; [done|]. cbn [rows].
    intros r ([row date] & -> & [Hrow _]%list_elem_of_filter)%list_elem_of_fmap.
    cbn [fst snd] in *.
    unfold iphone_row; cbv zeta. rewrite lookup_insert_eq. split; [|done].
    destruct (IPhoneAll.extract_single_iphone_model_or_none (title_text row))
      as [m|] eqn:Hm; [|done].
    cbn [model_cell IPhoneAll.eq_casefold] in Hrow. apply bool_decide_unpack in Hrow.
    exists m. split; [|done].
    rewrite lookup_insert_ne.
    2:{ intros Heq%flag_col_model. subst target.
        by apply (casefold_model_ne m (iphone_extract_canonical _ _ Hm)). }
    destruct (bool_decide (py "Sold Date" ∈ columns df)).
    + rewrite lookup_insert_ne by py_ne. by rewrite lookup_insert_eq.
    + by rewrite lookup_insert_eq.
Qed.

(** When it raises: without a "Title" column [clean_and_filter] raises
    [KeyError 'Title'], and with a title that is not text (an empty
    cell of the CSV is NaN) it raises [TypeError]; in both scripts. *)
Theorem clean_raises_without_text_titles (df : DataFrame) (target : str) :
  (py "Title" ∉ columns df →
     PixelAll.clean_and_filter_for_model df target = Raise (KeyError (py "Title"))
     ∧ IPhoneAll.clean_and_filter_for_iphone df target = Raise (KeyError (py "Title")))
  ∧ (py "Title" ∈ columns df →
     (∃ row, row ∈ rows df ∧ ∀ s, at_col (py "Title") row ≠ CStr s) →
     PixelAll.clean_and_filter_for_model df target = Raise TypeError
     ∧ IPhoneAll.clean_and_filter_for_iphone df target = Raise TypeError).
Proof.
  split.
  - intros Hno. unfold PixelAll.clean_and_filter_for_model,
      IPhoneAll.clean_and_filter_for_iphone, get_column. cbv zeta.
    by rewrite bool_decide_eq_false_2 by done.
  - intros Hcol (row & Hrow & Hbad).
    unfold PixelAll.clean_and_filter_for_model, IPhoneAll.clean_and_filter_for_iphone.
    cbv zeta.
    assert (get_column df (py "Title") = Ok (at_col (py "Title") <$> rows df)) as ->
      by (unfold get_column; by rewrite bool_decide_eq_true_2).
    cbn [mbind result_bind].
    rewrite !(apply_str_bad extract_storage _ (at_col (py "Title") row));
      try done; by apply list_elem_of_fmap_2.
Qed.
End CleanRows.
(** ** A run over the configured models *)

Section Batch.
Context `{Runtime}.

Lemma elem_of_listing (w : World) name : name ∈ listing w ↔ is_Some (files w !! name).
Proof.
  unfold listing. rewrite list_elem_of_fmap. split.
  - intros ([k df] & -> & Hin). apply elem_of_map_to_list in Hin. by exists df.
  - intros [df Hdf]. exists (name, df). split; [done|]. by apply elem_of_map_to_list.
Qed.

Lemma NoDup_listing (w : World) : NoDup (listing w).
Proof. apply NoDup_fst_map_to_list. Qed.

Lemma pixel_export_with :
  PixelAll.export_model_subset
  = export_with PixelAll.find_csv_for_model PixelAll.clean_and_filter_for_model.
Proof. reflexivity. Qed.

Lemma iphone_export_with :
  IPhoneAll.export_iphone_subset
  = export_with IPhoneAll.find_csv_for_iphone IPhoneAll.clean_and_filter_for_iphone.
Proof. reflexivity. Qed.

Lemma export_with_step find clean directory m w :
  export_with find clean directory m w
  = match find (listing w) m with
    | Raise e => (Raise e, w)
    | Ok None =>
        (Ok None, print ([0x274C] ++ py " No CSV found for " ++ m
                         ++ py " in " ++ directory) w)
    | Ok (Some src) =>
        match read_csv src w ≫= (λ df, clean df m) with
        | Raise e => (Raise e, print ([0x1F4C4] ++ py " Using file: " ++ src) w)
        | Ok subset =>
            (Ok (Some (directory ++ py "/" ++ out_name m)),
             print ([0x2705] ++ py " " ++ m ++ py ": Exported "
                    ++ str_of_nat (length (rows subset)) ++ py " rows -> " ++ out_name m)
                   (to_csv (out_name m) subset
                           (print ([0x1F4C4] ++ py " Using file: " ++ src) w)))
        end
    end.
Proof. reflexivity. Qed.

Section Generic.
Variable find : list str → str → result (option str).
Variable clean : DataFrame → str → result DataFrame.
Variable directory : str.
Variable models : list str.
Hypothesis find_shape : ∀ m,
  (∃ e, ∀ dir, find dir m = Raise e) ∨ (∃ pat, ∀ dir, find dir m = Ok (pick pat dir)).
(** No file that an export writes is a source for a configured model. *)
Hypothesis outs_apart : ∀ m m', m ∈ models → m' ∈ models →
  find [out_name m'] m ≠ Ok (Some (out_name m')).

Let outs : list str := out_name <$> models.

Lemma source_apart w m src :
  m ∈ models → find (listing w) m = Ok (Some src) → src ∈ listing w ∧ src ∉ outs.
Proof.
  intros Hm Hf. destruct (find_least (λ d, find d m) (find_shape m) (listing w)) as [Hl _].
  destruct (Hl _ Hf) as (Hin & _ & Hone & _). split; [done|].
  intros (m' & -> & Hm')%list_elem_of_fmap. by apply (outs_apart m m').
Qed.

Lemma find_agree w w' m :
  m ∈ models → agree outs (files w) (files w') →
  find (listing w) m = find (listing w') m.
Proof.
  intros Hm Hag. destruct (find_shape m) as [[e He]|[pat Hp]]; [by rewrite !He|].
  rewrite !Hp. f_equal. apply pick_same_candidates; [apply NoDup_listing..|].
  intros name Hname. rewrite !elem_of_listing, Hag; [done|].
  intros (m' & -> & Hm')%list_elem_of_fmap.
  apply (outs_apart m m' Hm Hm'). by rewrite Hp, Hname.
Qed.

(** What a run writes is the same in two directories that agree on
    the sources. *)
Lemma run_agree : ∀ ms w w',
  (∀ m, m ∈ ms → m ∈ models) → agree outs (files w) (files w') →
  ∃ U : gmap str DataFrame,
    (∀ k, is_Some (U !! k) → k ∈ outs)
    ∧ files (for_each (export_with find clean directory) ms w).2 = U ∪ files w
    ∧ files (for_each (export_with find clean directory) ms w').2 = U ∪ files w'
    ∧ (for_each (export_with find clean directory) ms w).1
      = (for_each (export_with find clean directory) ms w').1.
Proof.
  induction ms as [|m ms IH]; intros w w' Hms Hag.
  { exists ∅. cbn. rewrite !(left_id_L ∅ (∪)). split; [|done].
    intros k [x Hx]. by rewrite lookup_empty in Hx. }
  assert (m ∈ models) as Hm by (apply Hms; by left).
  assert (∀ m0, m0 ∈ ms → m0 ∈ models) as Hms' by (intros; apply Hms; by right).
  assert (∃ U : gmap str DataFrame, (∀ k, is_Some (U !! k) → k ∈ outs)
          ∧ ∀ fs : gmap str DataFrame, U ∪ fs = ∅ ∪ fs) as Hstop.
  { exists ∅. split; [|done]. intros k [x Hx]. by rewrite lookup_empty in Hx. }
  cbn [for_each]. rewrite !export_with_step.
  rewrite <- (find_agree w w' m Hm Hag).
  destruct (find (listing w) m) as [[src|]|e] eqn:Hf.
  - destruct (source_apart w m src Hm Hf) as [_ Hsrc].
    assert (read_csv src w' = read_csv src w) as ->
      by (unfold read_csv; by rewrite <- (Hag src Hsrc)).
    destruct (read_csv src w ≫= (λ df, clean df m)) as [subset|e].
    + match goal with
      | |- context [(for_each _ ms ?a).1 = (for_each _ ms ?b).1] =>
          destruct (IH a b Hms') as (U & HU & Hw & Hw' & Hr)
      end.
      { intros name Hname. cbn [files print to_csv].
        destruct (decide (name = out_name m)) as [->|Hne].
        - by rewrite !lookup_insert_eq.
        - rewrite !lookup_insert_ne by done. by apply Hag. }
      exists (U ∪ {[out_name m :=
                mkDF (columns subset)
                     ((λ row : gmap str cell, reload <$> row) <$> rows subset)]}).
      split; [|split; [|split]].
      * intros k [x [Hx|[_ Hx]]%lookup_union_Some_raw]; [by apply HU|].
        apply lookup_singleton_Some in Hx as [<- _]. by apply list_elem_of_fmap_2.
      * rewrite Hw. cbn [files print to_csv].
        by rewrite insert_union_singleton_l, (assoc_L (∪)).
      * rewrite Hw'. cbn [files print to_csv].
        by rewrite insert_union_singleton_l, (assoc_L (∪)).
      * exact Hr.
    + destruct Hstop as (U & HU & HUe). exists U. cbn.
      by rewrite !HUe, !(left_id_L ∅ (∪)).
  - match goal with
    | |- context [(for_each _ ms ?a).1 = (for_each _ ms ?b).1] =>
        destruct (IH a b Hms' Hag) as (U & HU & Hw & Hw' & Hr)
    end.
    by exists U.
  - destruct Hstop as (U & HU & HUe). exists U. cbn.
    by rewrite !HUe, !(left_id_L ∅ (∪)).
Qed.

Lemma agree_union (U fs : gmap str DataFrame) :
  (∀ k, is_Some (U !! k) → k ∈ outs) → agree outs fs (U ∪ fs).
Proof.
  intros HU name Hname. rewrite lookup_union_r; [done|].
  destruct (U !! name) eqn:Hk; [|done]. destruct Hname. apply HU. by rewrite Hk.
Qed.

Lemma run_writes_outs_only ms w :
  (∀ m, m ∈ ms → m ∈ models) →
  agree outs (files w) (files (for_each (export_with find clean directory) ms w).2).
Proof.
  intros Hms. destruct (run_agree ms w w Hms) as (U & HU & -> & _); [done|].
  by apply agree_union.
Qed.

Lemma run_twice ms w :
  (∀ m, m ∈ ms → m ∈ models) →
  let w1 := (for_each (export_with find clean directory) ms w).2 in
  files (for_each (export_with find clean directory) ms w1).2 = files w1
  ∧ (for_each (export_with find clean directory) ms w1).1
    = (for_each (export_with find clean directory) ms w).1.
Proof.
  intros Hms w1.
  destruct (run_agree ms w w1 Hms) as (U & HU & Hw & Hw1 & Hr).
  { by apply run_writes_outs_only. }
  split; [|done]. rewrite Hw1. subst w1. rewrite Hw.
  by rewrite (assoc_L (∪)), (idemp_L (∪)).
Qed.

(** With cleaners that succeed on frames with text titles and a
    resolver that accepts the models, a run ends without exception. *)
Lemma run_completes : ∀ ms w,
  (∀ m, m ∈ ms → m ∈ models) →
  (∀ m dir, m ∈ models → ∃ r, find dir m = Ok r) →
  (∀ df m, titled df → ∃ out, clean df m = Ok out) →
  (∀ name df, name ∉ outs → files w !! name = Some df → titled df) →
  (for_each (export_with find clean directory) ms w).1 = Ok ().
Proof.
  induction ms as [|m ms IH]; intros w Hms Hfind Hclean Hfiles; [done|].
  assert (m ∈ models) as Hm by (apply Hms; by left).
  assert (∀ m0, m0 ∈ ms → m0 ∈ models) as Hms' by (intros; apply Hms; by right).
  cbn [for_each]. rewrite export_with_step.
  destruct (Hfind m (listing w) Hm) as [[src|] Hf]; rewrite Hf.
  - destruct (source_apart w m src Hm Hf) as [[df Hdf]%elem_of_listing Hsrc].
    pose proof (Hfiles _ _ Hsrc Hdf) as Ht.
    assert (read_csv src w = Ok df) as ->.
    { unfold read_csv. rewrite Hdf. rewrite bool_decide_eq_false_2; [done|].
      destruct Ht as [Hcol _]. intros Hnil. rewrite Hnil in Hcol.
      by apply elem_of_nil in Hcol. }
    cbn [mbind result_bind].
    destruct (Hclean df m Ht) as [out ->].
    apply IH; try done. intros name df' Hname. cbn [files print to_csv].
    rewrite lookup_insert_ne; [by apply Hfiles|].
    intros <-. apply Hname. by apply list_elem_of_fmap_2.
  - apply IH; try done.
Qed.
End Generic.

Lemma pixel_outs_apart m m' :
  m ∈ PixelAll.MODELS → m' ∈ PixelAll.MODELS →
  PixelAll.find_csv_for_model [out_name m'] m ≠ Ok (Some (out_name m')).
Proof.
  intros Hm Hm'.
  assert (match PixelAll.find_csv_for_model [out_name m'] m with
          | Ok None => true | _ => false end = true) as Hnone.
  { revert m' Hm'. apply Forall_forall. revert m Hm. apply Forall_forall.
    apply (bool_decide_unpack _). by vm_compute. }
  intros Heq. by rewrite Heq in Hnone.
Qed.

Lemma iphone_outs_apart m m' :
  m ∈ IPhoneAll.IPHONE_MODELS → m' ∈ IPhoneAll.IPHONE_MODELS →
  IPhoneAll.find_csv_for_iphone [out_name m'] m ≠ Ok (Some (out_name m')).
Proof.
  intros Hm Hm'.
  assert (match IPhoneAll.find_csv_for_iphone [out_name m'] m with
          | Ok None => true | _ => false end = true) as Hnone.
  { revert m' Hm'. apply Forall_forall. revert m Hm. apply Forall_forall.
    apply (bool_decide_unpack _). by vm_compute. }
  intros Heq. by rewrite Heq in Hnone.
Qed.

Lemma pixel_accepts m dir :
  m ∈ PixelAll.MODELS → ∃ r, PixelAll.find_csv_for_model dir m = Ok r.
Proof.
  intros Hm. apply (find_ok_anywhere (λ d, PixelAll.find_csv_for_model d m)
                      (pixel_find_shape _)).
  revert m Hm. apply Forall_forall. apply (bool_decide_unpack _). by vm_compute.
Qed.

Lemma iphone_accepts m dir :
  m ∈ IPhoneAll.IPHONE_MODELS → ∃ r, IPhoneAll.find_csv_for_iphone dir m = Ok r.
Proof.
  intros Hm. apply (find_ok_anywhere (λ d, IPhoneAll.find_csv_for_iphone d m)
                      (iphone_find_shape _)).
  revert m Hm. apply Forall_forall. apply (bool_decide_unpack _). by vm_compute.
Qed.

Lemma pixel_run_with ms w :
  PixelAll.run ms w
  = for_each (export_with PixelAll.find_csv_for_model PixelAll.clean_and_filter_for_model
                PixelAll.DATA_DIR) ms w.
Proof. reflexivity. Qed.

Lemma iphone_run_with ms w :
  IPhoneAll.run ms w
  = for_each (export_with IPhoneAll.find_csv_for_iphone IPhoneAll.clean_and_filter_for_iphone
                IPhoneAll.IPHONE_DIR) ms w.
Proof. reflexivity. Qed.

(** A run of the configured models writes the "<model>_only.csv" files
    and nothing else, and none of these names is ever taken as a source:
    every other file of the directory is after the run what it was
    before.  For pixel_all_only.py and iphone_all_only.py. *)
Theorem exports_leave_the_sources (w : World) (name : str) :
  (name ∉ out_name <$> PixelAll.MODELS →
     files (PixelAll.run PixelAll.MODELS w).2 !! name = files w !! name)
  ∧ (∀ m src, m ∈ PixelAll.MODELS →
       PixelAll.find_csv_for_model (listing w) m = Ok (Some src) →
       src ∈ listing w ∧ src ∉ out_name <$> PixelAll.MODELS)
  ∧ (name ∉ out_name <$> IPhoneAll.IPHONE_MODELS →
     files (IPhoneAll.run IPhoneAll.IPHONE_MODELS w).2 !! name = files w !! name)
  ∧ (∀ m src, m ∈ IPhoneAll.IPHONE_MODELS →
       IPhoneAll.find_csv_for_iphone (listing w) m = Ok (Some src) →
       src ∈ listing w ∧ src ∉ out_name <$> IPhoneAll.IPHONE_MODELS).
Proof.
  split; [|split; [|split]].
  - intros Hname. symmetry. rewrite pixel_run_with.
    exact (run_writes_outs_only PixelAll.find_csv_for_model
             PixelAll.clean_and_filter_for_model PixelAll.DATA_DIR PixelAll.MODELS
             pixel_find_shape pixel_outs_apart PixelAll.MODELS w (λ m Hm, Hm) name Hname).
  - intros m src Hm Hf.
    exact (source_apart PixelAll.find_csv_for_model PixelAll.MODELS
             pixel_find_shape pixel_outs_apart w m src Hm Hf).
  - intros Hname. symmetry. rewrite iphone_run_with.
    exact (run_writes_outs_only IPhoneAll.find_csv_for_iphone
             IPhoneAll.clean_and_filter_for_iphone IPhoneAll.IPHONE_DIR
             IPhoneAll.IPHONE_MODELS iphone_find_shape iphone_outs_apart
             IPhoneAll.IPHONE_MODELS w (λ m Hm, Hm) name Hname).
  - intros m src Hm Hf.
    exact (source_apart IPhoneAll.find_csv_for_iphone IPhoneAll.IPHONE_MODELS
             iphone_find_shape iphone_outs_apart w m src Hm Hf).
Qed.

(** Running a script again changes nothing: after a run of the
    configured models, a second run in the directory the first one left
    ends the same way and leaves every file, the exported ones
    included, as the first run left it.  For pixel_all_only.py and
    iphone_all_only.py. *)
Theorem configured_run_twice (w : World) :
  files (PixelAll.run PixelAll.MODELS (PixelAll.run PixelAll.MODELS w).2).2
  = files (PixelAll.run PixelAll.MODELS w).2
  ∧ (PixelAll.run PixelAll.MODELS (PixelAll.run PixelAll.MODELS w).2).1
    = (PixelAll.run PixelAll.MODELS w).1
  ∧ files (IPhoneAll.run IPhoneAll.IPHONE_MODELS
             (IPhoneAll.run IPhoneAll.IPHONE_MODELS w).2).2
    = files (IPhoneAll.run IPhoneAll.IPHONE_MODELS w).2
  ∧ (IPhoneAll.run IPhoneAll.IPHONE_MODELS (IPhoneAll.run IPhoneAll.IPHONE_MODELS w).2).1
    = (IPhoneAll.run IPhoneAll.IPHONE_MODELS w).1.
Proof.
  rewrite !pixel_run_with, !iphone_run_with.
  pose proof (run_twice PixelAll.find_csv_for_model PixelAll.clean_and_filter_for_model
                PixelAll.DATA_DIR PixelAll.MODELS pixel_find_shape pixel_outs_apart
                PixelAll.MODELS w (λ m Hm, Hm)) as [Hp1 Hp2].
  pose proof (run_twice IPhoneAll.find_csv_for_iphone IPhoneAll.clean_and_filter_for_iphone
                IPhoneAll.IPHONE_DIR IPhoneAll.IPHONE_MODELS iphone_find_shape
                iphone_outs_apart IPhoneAll.IPHONE_MODELS w (λ m Hm, Hm)) as [Hi1 Hi2].
  split; [exact Hp1|]. split; [exact Hp2|]. split; [exact Hi1|exact Hi2].
Qed.

(** When every CSV of the directory has a "Title" column with text in
    every row, the run of the configured models ends without an
    exception.  For pixel_all_only.py and iphone_all_only.py. *)
Theorem configured_run_completes (w : World) :
  (∀ name df, files w !! name = Some df → titled df) →
  (PixelAll.run PixelAll.MODELS w).1 = Ok ()
  ∧ (IPhoneAll.run IPhoneAll.IPHONE_MODELS w).1 = Ok ().
Proof.
  intros Hfiles. rewrite pixel_run_with, iphone_run_with. split.
  - refine (run_completes PixelAll.find_csv_for_model PixelAll.clean_and_filter_for_model
              PixelAll.DATA_DIR PixelAll.MODELS pixel_find_shape pixel_outs_apart
              PixelAll.MODELS w (λ m Hm, Hm) (λ m dir Hm, pixel_accepts m dir Hm) _
              (λ name df _ Hdf, Hfiles name df Hdf)).
    intros df m Ht. destruct (pixel_clean_spec df m Ht) as [cols Hc]. eauto.
  - refine (run_completes IPhoneAll.find_csv_for_iphone
              IPhoneAll.clean_and_filter_for_iphone
              IPhoneAll.IPHONE_DIR IPhoneAll.IPHONE_MODELS iphone_find_shape
              iphone_outs_apart IPhoneAll.IPHONE_MODELS w (λ m Hm, Hm)
              (λ m dir Hm, iphone_accepts m dir Hm) _
              (λ name df _ Hdf, Hfiles name df Hdf)).
    intros df m Ht. destruct (iphone_clean_spec df m Ht) as [cols Hc]. eauto.
Qed.
End Batch.

(** ** The further theorems at concrete inputs *)

Lemma listing_order_witness :
  @PixelAll.find_csv_for_model sample_runtime
    [py "pixel 9.csv"; py "pixel 9 (1).csv"] (py "Pixel 9")
  = @PixelAll.find_csv_for_model sample_runtime
      [py "pixel 9 (1).csv"; py "pixel 9.csv"] (py "Pixel 9")
  ∧ @IPhoneAll.find_csv_for_iphone sample_runtime
      [py "iphone-14.csv"; py "iphone 14.csv"] (py "iPhone 14")
    = @IPhoneAll.find_csv_for_iphone sample_runtime
        [py "iphone 14.csv"; py "iphone-14.csv"] (py "iPhone 14").
Proof.
  split.
  - refine (proj1 (@resolver_ignores_listing_order sample_runtime
                     [py "pixel 9.csv"; py "pixel 9 (1).csv"]
                     [py "pixel 9 (1).csv"; py "pixel 9.csv"] (py "Pixel 9") _)).
    apply perm_swap.
  - refine (proj1 (proj2 (@resolver_ignores_listing_order sample_runtime
                     [py "iphone-14.csv"; py "iphone 14.csv"]
                     [py "iphone 14.csv"; py "iphone-14.csv"] (py "iPhone 14") _))).
    apply perm_swap.
Defined.

Lemma canonical_names_witness :
  py "Pixel 9 Pro" ∈ canonical (py "Pixel ") PIXEL_ENDINGS
  ∧ py "iPhone 14 Pro Max" ∈ canonical (py "iPhone ") IPHONE_ENDINGS.
Proof.
  split.
  - refine (proj1 (@normalizers_answer_canonical_names sample_runtime
                     (py " 9  pro ") (py "Pixel 9 Pro")) _).
    by vm_compute.
  - refine (proj1 (proj2 (@normalizers_answer_canonical_names sample_runtime
                            (py "14 PRO   MAX") (py "iPhone 14 Pro Max"))) _).
    by vm_compute.
Defined.

Lemma names_kept_witness :
  @IPhoneAll.extract_single_iphone_model_or_none sample_runtime (py "iPhone 14 Pro Max")
  = Some (py "iPhone 14 Pro Max")
  ∧ @PixelAll.extract_single_model_or_none sample_runtime (py "Pixel 9 Pro XL")
    = Some (py "Pixel 9 Pro").
Proof.
  split.
  - refine (proj1 (@canonical_names_are_kept sample_runtime
                     (py "14 pro max") (py "iPhone 14 Pro Max")) _).
    by vm_compute.
  - refine (proj2 (proj2 (proj2 (@canonical_names_are_kept sample_runtime
                                   (py "9 pro xl") (py "Pixel 9 Pro XL")))) _).
    by vm_compute.
Defined.

Lemma configured_witness :
  (∃ r, @PixelAll.find_csv_for_model sample_runtime [py "pixel 9.csv"] (py "Pixel 10 Pro XL")
        = Ok r)
  ∧ (∃ r, @IPhoneAll.find_csv_for_iphone sample_runtime [] (py "iPhone 15 Pro Max") = Ok r).
Proof.
  split.
  - refine (proj1 (@configured_models_are_accepted sample_runtime
                     [py "pixel 9.csv"] (py "Pixel 10 Pro XL")) _).
    apply (bool_decide_unpack _). by vm_compute.
  - refine (proj1 (proj2 (@configured_models_are_accepted sample_runtime
                            [] (py "iPhone 15 Pro Max"))) _).
    apply (bool_decide_unpack _). by vm_compute.
Defined.

Lemma pixel_only_witness :
  @PixelOnly.find_csv_for_model sample_runtime [py "pixel 7.csv"] (py "Pixel " ++ py "7")
  = Raise (ValueError (py "Model name not recognized: Pixel " ++ py "7"))
  ∧ @PixelOnly.run sample_runtime PixelOnly.MODELS sample_world
    = (Raise (ValueError (py "Model name not recognized: Pixel 7")), sample_world).
Proof.
  apply (@pixel_only_refuses_base_models sample_runtime (py "7") [py "pixel 7.csv"]
           sample_world).
  by repeat constructor.
Defined.

Lemma clean_rows_witness :
  (∃ out, @PixelAll.clean_and_filter_for_model sample_runtime sample_frame (py "Pixel 9")
          = Ok out
          ∧ length (rows out) = 2%nat)
  ∧ (∃ out, @IPhoneAll.clean_and_filter_for_iphone sample_runtime iphone_frame
              (py "iPhone 14 Pro") = Ok out
            ∧ length (rows out) = 2%nat).
Proof.
  split.
  - destruct (proj1 (@clean_keeps_the_rows_of_the_model sample_runtime sample_frame
                       (py "Pixel 9") sample_titled)) as (out & Hout & Hrows & _).
    exists out. split; [done|]. rewrite Hrows. by vm_compute.
  - destruct (proj2 (@clean_keeps_the_rows_of_the_model sample_runtime iphone_frame
                       (py "iPhone 14 Pro") iphone_frame_titled)) as (out & Hout & Hrows & _).
    exists out. split; [done|]. rewrite Hrows. by vm_compute.
Defined.

Lemma clean_raises_witness :
  @PixelAll.clean_and_filter_for_model sample_runtime
    (mkDF [py "Sold Date"] [{[ py "Sold Date" := CStr (py "Sold Oct 21, 2025") ]}])
    (py "Pixel 9") = Raise (KeyError (py "Title"))
  ∧ @IPhoneAll.clean_and_filter_for_iphone sample_runtime
      (mkDF [py "Title"] [{[ py "Title" := CNaN ]}]) (py "iPhone 14") = Raise TypeError.
Proof.
  split.
  - refine (proj1 (proj1 (@clean_raises_without_text_titles sample_runtime
                            (mkDF [py "Sold Date"]
                               [{[ py "Sold Date" := CStr (py "Sold Oct 21, 2025") ]}])
                            (py "Pixel 9")) _)).
    apply (bool_decide_unpack _). by vm_compute.
  - refine (proj2 (proj2 (@clean_raises_without_text_titles sample_runtime
                            (mkDF [py "Title"] [{[ py "Title" := CNaN ]}])
                            (py "iPhone 14")) _ _)).
    + by left.
    + exists {[ py "Title" := CNaN ]}. split; [by left|]. intros s. by vm_compute.
Defined.

Lemma sources_witness :
  files (@PixelAll.run sample_runtime PixelAll.MODELS sample_world).2 !! py "pixel 9.csv"
  = files sample_world !! py "pixel 9.csv".
Proof.
  refine (proj1 (@exports_leave_the_sources sample_runtime sample_world (py "pixel 9.csv")) _).
  apply (bool_decide_unpack _). by vm_compute.
Defined.

Lemma run_completes_witness :
  (@PixelAll.run sample_runtime PixelAll.MODELS sample_world).1 = Ok ()
  ∧ (@IPhoneAll.run sample_runtime IPhoneAll.IPHONE_MODELS sample_world).1 = Ok ().
Proof.
  apply (@configured_run_completes sample_runtime sample_world).
  intros name df Hdf. unfold sample_world in Hdf. cbn [files] in Hdf.
  apply lookup_singleton_Some in Hdf as [_ <-]. exact sample_titled.
Defined.
